(** * hex_fdm: finite differences on a hexagonal and a rectangular mesh

    A shallow embedding of the computational cells of
    [hex_fdm_example.ipynb]: the mesh generators, the connectivity
    (boundary lists, stencils, polygons), the assembly of the sparse
    systems, and the drawing and the time step of [drawstep], frame after
    frame.

    Integers are Python integers and numpy 64-bit integers; both are
    modelled by [Z], without wrap-around: every index the notebook computes
    is bounded by N^2, the number of entries of arrays it holds in memory.
    numpy arrays are lists (two-dimensional arrays are lists of rows).
    Floating point values are modelled by exact rationals [Q], so rounding
    is left out; the value of [np.sqrt(3.0)] and the function [exact_u] are
    parameters, and [spsolve] is specified by the equation it solves.
    An exception is the [None] of an [option], or [Raised] where the kind of
    exception matters. *)

From Stdlib Require Import ZArith List Lia Bool QArith Qabs Qminmax Lqa FinFun.
Import ListNotations.
Open Scope Z_scope.

(** ** numpy primitives *)

Module Np.

(** [np.arange(a, b)] *)
Definition arange (a b : Z) : list Z :=
  map (fun k => a + Z.of_nat k) (seq 0 (Z.to_nat (b - a))).

(** [a[::2]] *)
Fixpoint stride2 {A} (l : list A) : list A :=
  match l with
  | [] => []
  | x :: t => x :: match t with [] => [] | _ :: t' => stride2 t' end
  end.

(** [a[:-1]], [a[1:]] and [a[::-1]] are [removelast], [tl] and [rev]. *)

(** [zip_cons col rows]: one more leading column in front of [rows]. *)
Fixpoint zip_cons {A} (col : list A) (rows : list (list A)) : list (list A) :=
  match col, rows with
  | x :: col', r :: rows' => (x :: r) :: zip_cons col' rows'
  | _, _ => []
  end.

(** [np.vstack((r0, r1, ...)).T]: the rows become the columns. *)
Fixpoint transpose {A} (rows : list (list A)) : list (list A) :=
  match rows with
  | [] => []
  | r :: rs =>
      match rs with
      | [] => map (fun x => [x]) r
      | _ :: _ => zip_cons r (transpose rs)
      end
  end.

(** [np.hstack] of a two-dimensional array: its rows one after the other. *)
Definition hstack {A} (rows : list (list A)) : list A := concat rows.

(** [arr + c] on a two-dimensional integer array. *)
Definition shift2 (c : Z) (rows : list (list Z)) : list (list Z) :=
  map (map (fun x => x + c)) rows.

(** [arr[:, p]] *)
Definition column (p : nat) (rows : list (list Z)) : list Z :=
  map (fun r => nth p r 0) rows.

(** [len(l)] *)
Definition len {A} (l : list A) : Z := Z.of_nat (length l).

(** [np.cumsum] of a one-dimensional array. *)
Fixpoint cumsum_from (acc : Q) (l : list Q) : list Q :=
  match l with
  | [] => []
  | x :: t => (acc + x)%Q :: cumsum_from (acc + x)%Q t
  end.

Definition cumsum (l : list Q) : list Q := cumsum_from 0%Q l.

(** [arr.max()] of a non-empty array. *)
Definition amax (l : list Q) : Q :=
  match l with
  | [] => 0%Q
  | x :: t => fold_left Qmax t x
  end.

(** [np.linspace(a, b, n)]: [arange(0, n) * step + a] with
    [step = (b - a) / (n - 1)]. *)
Definition linspace (a b : Q) (n : Z) : list Q :=
  map (fun k => (inject_Z k * ((b - a) / inject_Z (n - 1)) + a)%Q) (arange 0 n).

(** [np.meshgrid(xs, ys)]: both results have one row per element of [ys]. *)
Definition meshgrid {A B} (xs : list A) (ys : list B) : list (list A) * list (list B) :=
  (map (fun _ => xs) ys, map (fun y => map (fun _ => y) xs) ys).

(** An elementwise expression [f(idx, jdx)] over
    [idx, jdx = np.meshgrid(xs, ys)]. *)
Definition on_grid {A B C} (f : A -> B -> C) (xs : list A) (ys : list B) : list (list C) :=
  map (fun j => map (fun i => f i j) xs) ys.

End Np.

Import Np.

(** ** Cell 5: the configuration check *)

(** [assert N%2 == 0 and N > 4] *)
Definition check_N (N : Z) : bool := (N mod 2 =? 0) && (4 <? N).

Definition valid_N (N : Z) : Prop := N mod 2 = 0 /\ 4 < N.

(** ** Cells 7 and 8: hexagonal connectivity *)

Section Connectivity.

Variable N : Z.

(** [np.arange(N-1)[::2]] *)
Definition evens : list Z := stride2 (arange 0 (N - 1)).

(** [np.arange(1,N-1)[::2]] *)
Definition odds : list Z := stride2 (arange 1 (N - 1)).

Definition hex_poly_tmp : list (list Z) :=
  transpose [ map (fun a => 1 + a) evens;
              map (fun a => 1 + N + a) evens;
              map (fun a => 1 + 2*N + a) evens;
              map (fun a => 2 + 2*N + a) evens;
              map (fun a => 2 + N + a) evens;
              map (fun a => 2 + a) evens ].

Definition hex_polys : list (list Z) :=
  concat (map (fun j => shift2 (2*j*N) (removelast hex_poly_tmp)
                        ++ shift2 ((2*j+1)*N - 1) hex_poly_tmp)
              (arange 0 (Z.shiftr N 1 - 1))).

Definition hex_bcs_left : list Z := map (fun a => a * N) (arange 0 N).
Definition hex_bcs_right : list Z := map (fun a => a * N + N - 1) (arange 0 N).

Definition hex_bcs_bottom : list Z :=
  removelast
    ([N + 1] ++
     hstack (transpose [ odds;
                         map (fun a => 1 + a) odds;
                         map (fun a => 1 + N + a) odds;
                         map (fun a => 2 + N + a) odds ])).

Definition hex_bcs_top : list Z :=
  hstack (transpose [ map (fun a => N*(N-1) + a) odds;
                      map (fun a => - N + N*(N-1) + a) odds;
                      map (fun a => 1 - N + N*(N-1) + a) odds;
                      map (fun a => 1 + N*(N-1) + a) odds ]).

Definition hex_bcs_all : list Z :=
  hex_bcs_bottom ++ hex_bcs_right ++ rev hex_bcs_top ++ rev hex_bcs_left.

Definition hex_tmp_r : list (list Z) :=
  transpose [ map (fun a => 1 + N + a) evens;
              map (fun a => 1 + 2*N + a) evens;
              map (fun a => 2 + 2*N + a) evens;
              map (fun a => 3*N + 1 + a) evens ].

Definition hex_stencil_r : list (list Z) :=
  concat (map (fun j => shift2 (2*j*N) (removelast hex_tmp_r)
                        ++ shift2 ((2*j+1)*N - 1) (tl hex_tmp_r))
              (arange 0 (Z.shiftr N 1 - 2))).

Definition hex_tmp_l : list (list Z) :=
  transpose [ map (fun a => N + a) evens;
              map (fun a => -1 + 2*N + a) evens;
              map (fun a => 2*N + a) evens;
              map (fun a => 3*N + a) evens ].

Definition hex_stencil_l : list (list Z) :=
  concat (map (fun j => shift2 (2*j*N) (tl hex_tmp_l)
                        ++ shift2 ((2*j+1)*N - 1) (tl hex_tmp_l))
              (arange 0 (Z.shiftr N 1 - 2))).

(** [np.hstack((hex_stencil_r[:,2], hex_stencil_l[:,1]))] *)
Definition hex_centr : list Z :=
  column 2 hex_stencil_r ++ column 1 hex_stencil_l.

(** ** Cell 9: rectangular connectivity *)

(** [np.hstack(jdx*N + idx)] over [meshgrid(arange(1,N-1), arange(1,N-1))];
    the later [resize] to a column and [hstack] back leave the order as is. *)
Definition rect_centr : list Z :=
  hstack (on_grid (fun i j => j * N + i) (arange 1 (N - 1)) (arange 1 (N - 1))).

(** [np.hstack((rect_centr-N, rect_centr-1, rect_centr, rect_centr+1,
    rect_centr+N))] on the column vector [rect_centr]. *)
Definition rect_stencil : list (list Z) :=
  map (fun c => [c - N; c - 1; c; c + 1; c + N]) rect_centr.

Definition rect_bcs_left : list Z := map (fun a => a * N) (arange 1 (N - 1)).
Definition rect_bcs_right : list Z := map (fun a => a * N + N - 1) (arange 1 (N - 1)).
Definition rect_bcs_bottom : list Z := arange 0 N.
Definition rect_bcs_top : list Z := map (fun a => (N - 1) * N + a) (arange 0 N).

Definition rect_bcs_all : list Z :=
  rect_bcs_bottom ++ rect_bcs_right ++ rev rect_bcs_top ++ rev rect_bcs_left.

(** [np.vstack(np.array((jdx*N + idx, jdx*N + idx+1, (jdx+1)*N + idx+1,
    (jdx+1)*N + idx)).T)]: the transposition of the (4, N-1, N-1) array
    puts [idx] outermost. *)
Definition rect_polys : list (list Z) :=
  concat (map (fun i => map (fun j => [ j*N + i; j*N + i + 1;
                                        (j+1)*N + i + 1; (j+1)*N + i ])
                            (arange 0 (N - 1)))
              (arange 0 (N - 1))).

End Connectivity.

(** ** Cell 6: the hexagonal grid *)

Module Arr.

(** [np.hstack((A, B))] of two two-dimensional arrays with as many rows. *)
Fixpoint hstack2 {A} (a b : list (list A)) : list (list A) :=
  match a, b with
  | ra :: a', rb :: b' => (ra ++ rb) :: hstack2 a' b'
  | _, _ => []
  end.

(** Python's index normalisation: [-len <= i < 0] counts from the end. *)
Definition norm_index (n : nat) (i : Z) : option nat :=
  if (0 <=? i) && (i <? Z.of_nat n) then Some (Z.to_nat i)
  else if (- Z.of_nat n <=? i) && (i <? 0) then Some (Z.to_nat (i + Z.of_nat n))
  else None.

(** [arr[i]]; [None] stands for [IndexError]. *)
Definition item {A} (arr : list A) (i : Z) : option A :=
  match norm_index (length arr) i with
  | Some k => nth_error arr k
  | None => None
  end.

(** [arr[idxs]] with an integer index array. *)
Fixpoint take {A} (arr : list A) (idxs : list Z) : option (list A) :=
  match idxs with
  | [] => Some []
  | i :: t =>
      match item arr i, take arr t with
      | Some v, Some vs => Some (v :: vs)
      | _, _ => None
      end
  end.

(** [arr[k] = v] for a position [k] within range. *)
Fixpoint update {A} (arr : list A) (k : nat) (v : A) : list A :=
  match arr, k with
  | [], _ => []
  | _ :: t, O => v :: t
  | x :: t, S k' => x :: update t k' v
  end.

(** [arr[idxs] = vals]: the assignments are made in order; [None] stands
    for [IndexError] or for a shape mismatch. *)
Fixpoint put (arr : list Q) (idxs : list Z) (vals : list Q) : option (list Q) :=
  match idxs, vals with
  | [], [] => Some arr
  | i :: idxs', v :: vals' =>
      match norm_index (length arr) i with
      | Some k => put (update arr k v) idxs' vals'
      | None => None
      end
  | _, _ => None
  end.

(** [np.zeros(n)] *)
Definition zeros (n : Z) : list Q := repeat 0%Q (Z.to_nat n).

(** [np.repeat(a, c)] *)
Definition repeat_each {A} (c : nat) (a : list A) : list A :=
  concat (map (fun x => repeat x c) a).

(** [np.tile(a, n)] *)
Definition tile {A} (a : list A) (n : Z) : list A :=
  concat (repeat a (Z.to_nat n)).

End Arr.

Import Arr.

Section Grids.

Variable N : Z.

(** The value of [np.sqrt(3.0)], a positive float. *)
Variable sqrt3 : Q.

Definition hhat : Q := 1 / inject_Z N.
Definition off_x : Q := (5 # 10) * hhat.
Definition short_x : Q := hhat.
Definition long_x : Q := 2 * hhat.
Definition off_y : Q := hhat * sqrt3 / 2.

(** [np.where(jdx % 2 == 1, 1, 0)], resized to a column. *)
Definition initoff : list (list Q) :=
  map (fun j => [if j mod 2 =? 1 then 1%Q else 0%Q]) (arange 0 N).

(** [np.where((idx+1) % 2 == jdx % 2, 1, 0)] *)
Definition shortoff : list (list Q) :=
  on_grid (fun i j => if (i + 1) mod 2 =? j mod 2 then 1%Q else 0%Q)
          (arange 0 (N - 1)) (arange 0 N).

(** [short_x * shortoff + long_x * (1-shortoff)]: the horizontal steps. *)
Definition hex_dx : list (list Q) :=
  map (map (fun s => short_x * s + long_x * (1 - s))%Q) shortoff.

(** [np.hstack((initoff*off_x, hex_x)).cumsum(axis=1)]: the coordinates
    before normalisation, row by row. *)
Definition hex_x_raw : list (list Q) :=
  map cumsum (hstack2 (map (map (fun o => o * off_x)%Q) initoff) hex_dx).

(** [off_y * jdx] *)
Definition hex_y_raw : list (list Q) :=
  on_grid (fun (i j : Z) => (off_y * inject_Z j)%Q) (arange 0 N) (arange 0 N).

(** [np.hstack(a) / a.max()] after [a.resize(N*N, 1)] *)
Definition normalise (a : list (list Q)) : list Q :=
  map (fun v => v / amax (hstack a))%Q (hstack a).

Definition hex_x : list Q := normalise hex_x_raw.
Definition hex_y : list Q := normalise hex_y_raw.

(** ** Cell 9: the rectangular grid *)

Definition rect_x : list Q := hstack (fst (meshgrid (linspace 0 1 N) (linspace 0 1 N))).
Definition rect_y : list Q := hstack (snd (meshgrid (linspace 0 1 N) (linspace 0 1 N))).

End Grids.

(** ** Sparse matrices *)

Module Sparse.

(** An entry [(row, column, value)] of a matrix in coordinate form. *)
Definition triplet : Type := Z * Z * Q.

Definition matrix : Type := list triplet.

Definition in_shape (n : Z) (i : Z) : bool := (0 <=? i) && (i <? n).

(** [scipy.sparse.csr_matrix((data, (rows, cols)), shape=shape)]; [None]
    stands for the [ValueError] of a length mismatch or of an index outside
    the shape.  Entries at the same position add up (see [entry]). *)
Definition csr_matrix (data : list Q) (rows cols : list Z) (shape : Z * Z)
  : option matrix :=
  if (length rows =? length data)%nat && (length cols =? length data)%nat
     && forallb (in_shape (fst shape)) rows
     && forallb (in_shape (snd shape)) cols
  then Some (combine (combine rows cols) data)
  else None.

(** [A + B] *)
Definition add (a b : matrix) : matrix := a ++ b.

(** The stored entries of row [r], in order, as (column, value). *)
Definition row_of (m : matrix) (r : Z) : list (Z * Q) :=
  map (fun t => (snd (fst t), snd t))
      (filter (fun t => fst (fst t) =? r) m).

(** [M[r, c]] *)
Definition entry (m : matrix) (r c : Z) : Q :=
  fold_right Qplus 0%Q
    (map snd (filter (fun cv => fst cv =? c) (row_of m r))).

(** Row [r] of the product [M @ u]. *)
Definition row_dot (m : matrix) (u : list Q) (r : Z) : Q :=
  fold_right Qplus 0%Q
    (map (fun cv => snd cv * nth (Z.to_nat (fst cv)) u 0)%Q (row_of m r)).

(** What [scipy.sparse.linalg.spsolve(M, b)] returns for an [n] by [n]
    matrix, in exact arithmetic: a vector [u] of length [n] with
    [M @ u = b]. *)
Definition spsolve (n : Z) (m : matrix) (b u : list Q) : Prop :=
  length u = Z.to_nat n /\
  forall r, 0 <= r < n -> (row_dot m u r == nth (Z.to_nat r) b 0)%Q.

End Sparse.

Import Sparse.

(** ** Cell 10: assembly *)

Definition obind {A B} (o : option A) (k : A -> option B) : option B :=
  match o with
  | Some a => k a
  | None => None
  end.

Notation "x <- e ;; k" := (obind e (fun x => k))
  (at level 61, e at next level, right associativity).

(** [f(xs, ys)] elementwise on two arrays of the same length. *)
Fixpoint map2 {A B C} (f : A -> B -> C) (xs : list A) (ys : list B) : list C :=
  match xs, ys with
  | x :: xs', y :: ys' => f x y :: map2 f xs' ys'
  | _, _ => []
  end.

Definition dt : Q := 5 # 100.
Definition mu : Q := 1 # 100.

(** What assembling one mesh leaves behind for the time steps. *)
Record system : Type := mk_system {
  sys_M : matrix;
  sys_rhs : list Q;
  sys_bulk_rhs_rows : list Z
}.

Section Assembly.

Variable N : Z.
Variable sqrt3 : Q.
Variable exact_u : Q -> Q -> Q -> Q.

Definition N2 : Z := N * N.
Definition h : Q := 1 / inject_Z N.

(** [start + np.repeat(np.arange(n), w)] *)
Definition bulk_rows (start n : Z) (w : nat) : list Z :=
  map (fun k => start + k) (repeat_each w (arange 0 n)).

(** [1 + 0*rows] *)
Definition ones (rows : list Z) : list Q := map (fun r => inject_Z (1 + 0 * r)) rows.

Definition rect_elmt_row : list Q :=
  [ mu / h^2; mu / h^2; - 1 / dt - mu * 4 / h^2; mu / h^2; mu / h^2 ]%Q.

Definition hex_elmt_r_row : list Q :=
  [ mu * 4 / (3 * h^2); - mu * 4 / h^2 - 1 / dt;
    mu * 4 / (3 * h^2); mu * 4 / (3 * h^2) ]%Q.

Definition hex_elmt_l_row : list Q :=
  [ mu * 4 / (3 * h^2); mu * 4 / (3 * h^2);
    - mu * 4 / h^2 - 1 / dt; mu * 4 / (3 * h^2) ]%Q.

Definition rect_assemble : option system :=
  let rect_rows := arange 0 (len (rect_bcs_all N)) in
  rect_I_bc <- csr_matrix (ones rect_rows) rect_rows (rect_bcs_all N) (N2, N2) ;;
  last_row <- item rect_rows (-1) ;;
  let rect_rows_bulk_start_idx := 1 + last_row in
  let rect_rows := bulk_rows rect_rows_bulk_start_idx (len (rect_centr N)) 5 in
  let rect_cols := hstack (rect_stencil N) in
  let rect_elmt := tile rect_elmt_row ((N - 2) * (N - 2)) in
  rect_A <- csr_matrix rect_elmt rect_rows rect_cols (N2, N2) ;;
  xs <- take (rect_x N) (rect_bcs_all N) ;;
  ys <- take (rect_y N) (rect_bcs_all N) ;;
  rect_rhs <- put (zeros N2) (arange 0 (len (rect_bcs_all N)))
                  (map2 (exact_u 0) xs ys) ;;
  let rect_bulk_rhs_rows :=
    map (fun k => rect_rows_bulk_start_idx + k) (arange 0 (len (rect_centr N))) in
  Some (mk_system (add rect_I_bc rect_A) rect_rhs rect_bulk_rhs_rows).

Definition hex_assemble : option system :=
  let hex_rows := arange 0 (len (hex_bcs_all N)) in
  hex_I_bc <- csr_matrix (ones hex_rows) hex_rows (hex_bcs_all N) (N2, N2) ;;
  last_row <- item hex_rows (-1) ;;
  let hex_rows_bulk_start_idx := 1 + last_row in
  let hex_rows := bulk_rows hex_rows_bulk_start_idx (len (hex_stencil_r N)) 4 in
  let hex_cols_r := hstack (hex_stencil_r N) in
  let hex_elmt_r := tile hex_elmt_r_row (len (hex_stencil_r N)) in
  hex_A_r <- csr_matrix hex_elmt_r hex_rows hex_cols_r (N2, N2) ;;
  last_row_r <- item hex_rows (-1) ;;
  let hex_rows := bulk_rows (1 + last_row_r) (len (hex_stencil_l N)) 4 in
  let hex_cols_l := hstack (hex_stencil_l N) in
  let hex_elmt_l := tile hex_elmt_l_row (len (hex_stencil_l N)) in
  hex_A_l <- csr_matrix hex_elmt_l hex_rows hex_cols_l (N2, N2) ;;
  xs <- take (hex_x N) (hex_bcs_all N) ;;
  ys <- take (hex_y N sqrt3) (hex_bcs_all N) ;;
  hex_rhs <- put (zeros N2) (arange 0 (len (hex_bcs_all N)))
                 (map2 (exact_u 0) xs ys) ;;
  let hex_bulk_rhs_rows :=
    map (fun k => hex_rows_bulk_start_idx + k) (arange 0 (len (hex_centr N))) in
  Some (mk_system (add (add hex_I_bc hex_A_r) hex_A_l) hex_rhs hex_bulk_rhs_rows).

End Assembly.

(** ** Cells 13 and 15: the time step *)

(** The globals that [drawstep] reads and writes. *)
Record state : Type := mk_state {
  rect_u : list Q;
  hex_u : list Q;
  rect_rhs : list Q;
  hex_rhs : list Q;
  time : Q
}.

Section TimeStep.

Variable N : Z.
Variable sqrt3 : Q.
Variable exact_u : Q -> Q -> Q -> Q.

(** The assembled systems of cell 10. *)
Variable rect_sys hex_sys : system.

(** Cell 15: [time = 0], both solutions set to [exact_u] at that time. *)
Definition init_state : state :=
  mk_state (map2 (exact_u 0) (rect_x N) (rect_y N))
           (map2 (exact_u 0) (hex_x N) (hex_y N sqrt3))
           (sys_rhs rect_sys) (sys_rhs hex_sys) 0.

(** The "Step" part of [drawstep], up to the two solves: the boundary rows
    and then the stencil rows of both right-hand sides are rewritten in
    place.  (The drawing before it reads the state only.) *)
Definition step_rhs (st : state) : option (list Q * list Q) :=
  rxs <- take (rect_x N) (rect_bcs_all N) ;;
  rys <- take (rect_y N) (rect_bcs_all N) ;;
  rect_rhs1 <- put (rect_rhs st) (arange 0 (len (rect_bcs_all N)))
                   (map2 (exact_u (time st)) rxs rys) ;;
  hxs <- take (hex_x N) (hex_bcs_all N) ;;
  hys <- take (hex_y N sqrt3) (hex_bcs_all N) ;;
  hex_rhs1 <- put (hex_rhs st) (arange 0 (len (hex_bcs_all N)))
                  (map2 (exact_u (time st)) hxs hys) ;;
  ruc <- take (rect_u st) (rect_centr N) ;;
  rect_rhs2 <- put rect_rhs1 (sys_bulk_rhs_rows rect_sys)
                   (map (fun v => - v / dt)%Q ruc) ;;
  huc <- take (hex_u st) (hex_centr N) ;;
  hex_rhs2 <- put hex_rhs1 (sys_bulk_rhs_rows hex_sys)
                  (map (fun v => - v / dt)%Q huc) ;;
  Some (rect_rhs2, hex_rhs2).

(** One call of [drawstep]: the right-hand sides are rewritten, the two
    systems are solved and [time] advances by [dt]. *)
Inductive drawstep (st : state) : state -> Prop :=
| drawstep_intro :
    forall rect_rhs2 hex_rhs2 rect_u' hex_u',
      step_rhs st = Some (rect_rhs2, hex_rhs2) ->
      spsolve (N2 N) (sys_M rect_sys) rect_rhs2 rect_u' ->
      spsolve (N2 N) (sys_M hex_sys) hex_rhs2 hex_u' ->
      drawstep st (mk_state rect_u' hex_u' rect_rhs2 hex_rhs2 (time st + dt)%Q).

End TimeStep.

(** ** Cell 13, the "Draw" part, and the frames of cell 15 *)

(** [np.column_stack((x, y, u))] of three one-dimensional arrays: one row
    [(x, y, u)] per node; [None] stands for the [ValueError] of arrays of
    different lengths. *)
Fixpoint column_stack (x y u : list Q) : option (list (Q * Q * Q)) :=
  match x, y, u with
  | [], [], [] => Some []
  | a :: x', b :: y', c :: u' =>
      match column_stack x' y' u' with
      | Some t => Some ((a, b, c) :: t)
      | None => None
      end
  | _, _, _ => None
  end.

(** [tt[polys]] with a two-dimensional index array: the rows of [tt] that
    each polygon names, polygon by polygon. *)
Fixpoint take_rows {A} (tt : list A) (polys : list (list Z))
  : option (list (list A)) :=
  match polys with
  | [] => Some []
  | p :: t =>
      match take tt p, take_rows tt t with
      | Some v, Some vs => Some (v :: vs)
      | _, _ => None
      end
  end.

(** The vertices of one picture: a list of polygons. *)
Definition picture : Type := list (list (Q * Q * Q)).

Section Animation.

Variable N : Z.
Variable sqrt3 : Q.
Variable exact_u : Q -> Q -> Q -> Q.
Variable rect_sys hex_sys : system.

(** The "Draw" part of [drawstep]: the three vertex arrays handed to
    [Poly3DCollection], for the rectangular solution, the hexagonal
    solution and [exact_u] on the hexagonal mesh. *)
Definition draw (st : state) : option (picture * picture * picture) :=
  tt1 <- column_stack (rect_x N) (rect_y N) (rect_u st) ;;
  rect_pic <- take_rows tt1 (rect_polys N) ;;
  tt2 <- column_stack (hex_x N) (hex_y N sqrt3) (hex_u st) ;;
  hex_pic <- take_rows tt2 (hex_polys N) ;;
  tt3 <- column_stack (hex_x N) (hex_y N sqrt3)
                      (map2 (exact_u (time st)) (hex_x N) (hex_y N sqrt3)) ;;
  exact_pic <- take_rows tt3 (hex_polys N) ;;
  Some (rect_pic, hex_pic, exact_pic).

(** One call of [animate]: [drawstep] as a whole, the drawing first. *)
Inductive animate (st : state) : state -> Prop :=
| animate_intro :
    forall pics st',
      draw st = Some pics ->
      drawstep N sqrt3 exact_u rect_sys hex_sys st st' ->
      animate st st'.

(** [frames n st st']: [n] calls of [animate] in a row lead from [st] to
    [st']. *)
Inductive frames : nat -> state -> state -> Prop :=
| frames_O : forall st, frames 0 st st
| frames_S :
    forall n st st1 st2,
      animate st st1 -> frames n st1 st2 -> frames (S n) st st2.

End Animation.

(** ** The notebook, cell after cell *)

Inductive exn : Type :=
| AssertionError
| ArrayError.

Inductive outcome (A : Type) : Type :=
| Raised (e : exn)
| Returned (a : A).

Arguments Raised {A} e.
Arguments Returned {A} a.

(** The arrays that cells 6 to 9 leave behind. *)
Record meshes : Type := mk_meshes {
  ms_hex_x : list Q;
  ms_hex_y : list Q;
  ms_hex_polys : list (list Z);
  ms_hex_bcs_all : list Z;
  ms_hex_stencil_r : list (list Z);
  ms_hex_stencil_l : list (list Z);
  ms_hex_centr : list Z;
  ms_rect_x : list Q;
  ms_rect_y : list Q;
  ms_rect_centr : list Z;
  ms_rect_stencil : list (list Z);
  ms_rect_bcs_all : list Z;
  ms_rect_polys : list (list Z)
}.

Section Notebook.

Variable N : Z.
Variable sqrt3 : Q.
Variable exact_u : Q -> Q -> Q -> Q.

Definition cell_5 : outcome unit :=
  if check_N N then Returned tt else Raised AssertionError.

Definition cells_6_to_9 : meshes :=
  mk_meshes (hex_x N) (hex_y N sqrt3) (hex_polys N) (hex_bcs_all N)
            (hex_stencil_r N) (hex_stencil_l N) (hex_centr N)
            (rect_x N) (rect_y N) (rect_centr N) (rect_stencil N)
            (rect_bcs_all N) (rect_polys N).

Definition cell_10 : outcome (system * system) :=
  match rect_assemble N exact_u, hex_assemble N sqrt3 exact_u with
  | Some r, Some x => Returned (r, x)
  | _, _ => Raised ArrayError
  end.

(** The cells run in order; the result lists the cells that completed,
    the first one last, next to what the run ended with. *)
Definition notebook : list Z * outcome (meshes * (system * system)) :=
  match cell_5 with
  | Raised e => ([], Raised e)
  | Returned _ =>
      let ms := cells_6_to_9 in
      match cell_10 with
      | Raised e => ([9; 8; 7; 6; 5], Raised e)
      | Returned ss => ([10; 9; 8; 7; 6; 5], Returned (ms, ss))
      end
  end.

End Notebook.

(** * Vocabulary of the properties

    Nothing below is translated from the notebook: these are the notions
    in which the properties are stated, the closed forms of what the cells
    compute, and a worked first step for N = 6. *)

(** An index of a node. *)
Definition in_range (N : Z) (x : Z) : Prop := 0 <= x < N * N.

(** ** Closed forms of the connectivity *)

(** The rows of the transposed blocks. *)
Definition poly_row N a : list Z :=
  [1 + a; 1 + N + a; 1 + 2*N + a; 2 + 2*N + a; 2 + N + a; 2 + a].
Definition r_row N a : list Z :=
  [1 + N + a; 1 + 2*N + a; 2 + 2*N + a; 3*N + 1 + a].
Definition l_row N a : list Z :=
  [N + a; -1 + 2*N + a; 2*N + a; 3*N + a].
Definition bottom_row N a : list Z := [a; 1 + a; 1 + N + a; 2 + N + a].
Definition top_row N a : list Z :=
  [N*(N-1) + a; - N + N*(N-1) + a; 1 - N + N*(N-1) + a; 1 + N*(N-1) + a].

(** Blocks of stencils: the rows of [tmp] at the indices [idx], moved by [c]. *)
Definition block (row : Z -> list Z) (c : Z) (idx : list Z) : list (list Z) :=
  map (fun a => map (fun x => x + c) (row a)) idx.

(** The stencil centres where the matrix puts the diagonal coefficient:
    position 1 of the right stencils and position 2 of the left ones
    ([hex_centr] takes the positions 2 and 1). *)
Definition hex_diag_nodes (N : Z) : list Z :=
  column 1 (hex_stencil_r N) ++ column 2 (hex_stencil_l N).

(** Every index array the notebook builds: the boundary lists and their
    four sides, the centre lists, the stencils and the polygons. *)
Definition artifacts (N : Z) : list (list Z) :=
  [ hex_bcs_all N; hex_bcs_bottom N; hex_bcs_right N; hex_bcs_top N;
    hex_bcs_left N; hex_centr N;
    rect_bcs_all N; rect_bcs_bottom N; rect_bcs_right N; rect_bcs_top N;
    rect_bcs_left N; rect_centr N ]
  ++ rect_stencil N ++ hex_stencil_r N ++ hex_stencil_l N
  ++ hex_polys N ++ rect_polys N.

(** Membership, as a test. *)
Definition memb (x : Z) (l : list Z) : bool := existsb (Z.eqb x) l.

(** What a partition of the node indices is: no repetition within or across
    the two lists, and exactly the indices of [0, N^2). *)
Definition partitions (N : Z) (bcs centr : list Z) : Prop :=
  NoDup (bcs ++ centr)
  /\ (forall x, In x (bcs ++ centr) <-> in_range N x).

(** The number of different indices in two lists together. *)
Definition union_size (l1 l2 : list Z) : Z := len (nodup Z.eq_dec (l1 ++ l2)).

(** ** Coordinates *)

(** A coordinate within the unit interval; a value that a list takes. *)
Definition unit_interval (v : Q) : Prop := (0 <= v <= 1)%Q.
Definition attains (c : Q) (l : list Q) : Prop := exists v, In v l /\ (v == c)%Q.

(** The step from node [i] to node [i+1] in row [j]. *)
Definition step_x (N i j : Z) : Q :=
  let s := if (i + 1) mod 2 =? j mod 2 then 1%Q else 0%Q in
  (short_x N * s + long_x N * (1 - s))%Q.

(** Where row [j] starts. *)
Definition start_x (N j : Z) : Q :=
  ((if j mod 2 =? 1 then 1 else 0) * off_x N)%Q.

(** The float nearest to the square root of three. *)
Definition sqrt3_float : Q := 7800463371553962 # 4503599627370496.

(** A solution of the heat equation with rational values, used where a
    concrete [exact_u] is needed: [x^2 + y^2 + 4 mu t]. *)
Definition heat_poly (t x y : Q) : Q := (x * x + y * y + 4 * mu * t)%Q.

(** ** Closed forms of the assembly *)

(** The Dirichlet block: row [k] holds a one at column [bcs[k]]. *)
Definition identity_coo (bcs : list Z) : matrix :=
  combine (combine (arange 0 (len bcs)) bcs) (ones (arange 0 (len bcs))).

(** A block of stencil rows: stencil [k] fills row [start + k] with the
    coefficients [coefs], column by column. *)
Definition bulk_coo (start : Z) (st : list (list Z)) (coefs : list Q) : matrix :=
  combine (combine (bulk_rows start (len st) (length coefs)) (hstack st))
          (tile coefs (len st)).

(** What [exact_u(t, x[bcs], y[bcs])] evaluates to. *)
Definition boundary_values (exact_u : Q -> Q -> Q -> Q) (t : Q)
           (x y : list Q) (bcs : list Z) : list Q :=
  map2 (exact_u t) (map (fun i => nth (Z.to_nat i) x 0%Q) bcs)
                   (map (fun i => nth (Z.to_nat i) y 0%Q) bcs).

Section ClosedForms.

Variable N : Z.
Variable sqrt3 : Q.
Variable exact_u : Q -> Q -> Q -> Q.

(** The number of Dirichlet rows of each mesh. *)
Definition rect_nb : Z := len (rect_bcs_all N).
Definition hex_nb : Z := len (hex_bcs_all N).

(** What cell 10 assembles, written out. *)
Definition rect_M : matrix :=
  add (identity_coo (rect_bcs_all N))
      (bulk_coo rect_nb (rect_stencil N) (rect_elmt_row N)).

Definition hex_M : matrix :=
  add (add (identity_coo (hex_bcs_all N))
           (bulk_coo hex_nb (hex_stencil_r N) (hex_elmt_r_row N)))
      (bulk_coo (hex_nb + len (hex_stencil_r N)) (hex_stencil_l N)
                (hex_elmt_l_row N)).

Definition rect_rhs0 : list Q :=
  let vals := boundary_values exact_u 0 (rect_x N) (rect_y N) (rect_bcs_all N) in
  vals ++ skipn (length vals) (zeros (N2 N)).

Definition hex_rhs0 : list Q :=
  let vals := boundary_values exact_u 0 (hex_x N) (hex_y N sqrt3) (hex_bcs_all N) in
  vals ++ skipn (length vals) (zeros (N2 N)).

Definition rect_system : system :=
  mk_system rect_M rect_rhs0 (arange rect_nb (rect_nb + len (rect_centr N))).

Definition hex_system : system :=
  mk_system hex_M hex_rhs0 (arange hex_nb (hex_nb + len (hex_centr N))).

End ClosedForms.

(** Row [k] of the system belongs to the [k]-th boundary node: its only
    stored entry is a one in the column of that node, and its right-hand
    side is [exact_u] at time [t] at the coordinates of that node. *)
Definition dirichlet_rows (sys : system) (bcs : list Z) (x y : list Q)
           (exact_u : Q -> Q -> Q -> Q) (t : Q) : Prop :=
  forall k, 0 <= k < len bcs ->
    exists node xv yv,
      item bcs k = Some node
      /\ item x node = Some xv /\ item y node = Some yv
      /\ row_of (sys_M sys) k = [(node, 1%Q)]
      /\ item (sys_rhs sys) k = Some (exact_u t xv yv).

(** The coefficients in the form the specification gives them. *)
Definition hex_off (N : Z) : Q := 4 * mu / (3 * h N ^ 2).
Definition hex_diag (N : Z) : Q := - (4 * mu / h N ^ 2) - 1 / dt.
Definition rect_off (N : Z) : Q := mu / h N ^ 2.
Definition rect_diag (N : Z) : Q := - (1 / dt) - 4 * mu / h N ^ 2.

(** Two rows with the same columns and equal values. *)
Definition row_is (row expected : list (Z * Q)) : Prop :=
  Forall2 (fun p q => fst p = fst q /\ (snd p == snd q)%Q) row expected.

(** ** A first step, worked out for N = 6 *)

(** Exact elimination on a dense copy of a system; it only serves to
    exhibit solutions, which are then checked against [spsolve]. *)
Module Gauss.

Fixpoint pick_pivot (rows : list (list Q)) : option (list Q * list (list Q)) :=
  match rows with
  | [] => None
  | r :: rs =>
      if Qeq_bool (hd 0%Q r) 0 then
        match pick_pivot rs with
        | Some (p, others) => Some (p, r :: others)
        | None => None
        end
      else Some (r, rs)
  end.

Definition dotQ (a b : list Q) : Q := fold_right Qplus 0%Q (map2 Qmult a b).

Fixpoint eliminate (unknowns : nat) (rows : list (list Q)) : option (list Q) :=
  match unknowns with
  | O => Some []
  | S unknowns' =>
      match pick_pivot rows with
      | None => None
      | Some (p, others) =>
          let p' := map (fun v => Qred (v / hd 0 p))%Q (tl p) in
          let reduce r :=
            map2 (fun rv pv => Qred (rv - hd 0 r * pv))%Q (tl r) p' in
          match eliminate unknowns' (map reduce others) with
          | None => None
          | Some sol =>
              Some (Qred (last p' 0 - dotQ (removelast p') sol)%Q :: sol)
          end
      end
  end.

(** Row [r] of the matrix, column by column, followed by [b[r]]. *)
Definition dense_row (n : Z) (m : matrix) (b : list Q) (r : Z) : list Q :=
  map (fun c => Qred (entry m r c)) (arange 0 n) ++ [Qred (nth (Z.to_nat r) b 0%Q)].

Definition solve (n : Z) (m : matrix) (b : list Q) : list Q :=
  match eliminate (Z.to_nat n) (map (dense_row n m b) (arange 0 n)) with
  | Some u => u
  | None => []
  end.

(** The test that [u] solves the system. *)
Definition solves (n : Z) (m : matrix) (b u : list Q) : bool :=
  (length u =? Z.to_nat n)%nat
  && forallb (fun r => Qeq_bool (row_dot m u r) (nth (Z.to_nat r) b 0%Q))
             (arange 0 n).

End Gauss.

(** The two systems for N = 6, with the heat polynomial as [exact_u]. *)
Definition rect_sys6 : system := rect_system 6 heat_poly.
Definition hex_sys6 : system := hex_system 6 sqrt3_float heat_poly.

(** The state that cell 15 sets up. *)
Definition state0 : state := init_state 6 sqrt3_float heat_poly rect_sys6 hex_sys6.

(** The right-hand sides that the first step writes. *)
Definition first_rhs : list Q * list Q :=
  match step_rhs 6 sqrt3_float heat_poly rect_sys6 hex_sys6 state0 with
  | Some p => p
  | None => ([], [])
  end.

Definition rect_u1 : list Q :=
  Eval vm_compute in Gauss.solve 36 (sys_M rect_sys6) (fst first_rhs).

Definition hex_u1 : list Q :=
  Eval vm_compute in Gauss.solve 36 (sys_M hex_sys6) (snd first_rhs).

(** The state after the first step. *)
Definition state1 : state :=
  mk_state rect_u1 hex_u1 (fst first_rhs) (snd first_rhs) (0 + dt)%Q.

(** ** Rows and columns of the node numbering *)

(** Node [x] sits in row [x / N] at column [x mod N].  The nodes on the
    outer frame of the lattice, and the nodes of the hexagonal boundary: the
    two lowest rows, the two highest rows and the two outer columns. *)
Definition on_rect_boundary (N x : Z) : Prop :=
  in_range N x
  /\ (x / N = 0 \/ x / N = N - 1 \/ x mod N = 0 \/ x mod N = N - 1).

Definition on_hex_boundary (N x : Z) : Prop :=
  in_range N x
  /\ (x / N <= 1 \/ N - 2 <= x / N \/ x mod N = 0 \/ x mod N = N - 1).

(** The right stencil, the left stencil and the polygon at the node of row
    [r] and column [c]. *)
Definition right_stencil_at (N r c : Z) : list Z :=
  [(r - 1) * N + c; r * N + c; r * N + c + 1; (r + 1) * N + c].

Definition left_stencil_at (N r c : Z) : list Z :=
  [(r - 1) * N + c; r * N + c - 1; r * N + c; (r + 1) * N + c].

Definition hexagon_at (N r c : Z) : list Z :=
  [r * N + c; (r + 1) * N + c; (r + 2) * N + c;
   (r + 2) * N + c + 1; (r + 1) * N + c + 1; r * N + c + 1].

(** The step from column [c] to column [c+1] in row [r], as cell 6 lays
    it out. *)
Definition gap (N r c : Z) : Q :=
  nth (Z.to_nat c) (nth (Z.to_nat r) (hex_dx N) []) 0%Q.

(** Twice the distance, in short steps, of node [i] of row [j] from the
    left end of the even rows: even rows run 0, 4, 6, 10, 12, ..., odd rows
    1, 3, 7, 9, 13, ... *)
Definition half_units (j i : Z) : Z :=
  j mod 2 + 6 * (i / 2) + (if j mod 2 =? 1 then 2 else 4) * (i mod 2).

(** Row [j] of the hexagonal x coordinates before normalisation. *)
Definition hex_row (N j : Z) : list Q :=
  cumsum (start_x N j :: map (fun i => step_x N i j) (arange 0 (N - 1))).

(** Where a node of the hexagonal mesh is drawn, and two outlines that go
    through the same points. *)
Definition vertex (N : Z) (sqrt3 : Q) (node : Z) : Q * Q :=
  (nth (Z.to_nat node) (hex_x N) 0%Q, nth (Z.to_nat node) (hex_y N sqrt3) 0%Q).

Definition same_points (a b : list (Q * Q)) : Prop :=
  Forall2 (fun p q => (fst p == fst q)%Q /\ (snd p == snd q)%Q) a b.

(** A right-hand side written anew: the boundary values first, then one
    entry [- u[c] / dt] for each entry [c] of the centre list. *)
Definition next_rhs (exact_u : Q -> Q -> Q -> Q) (t : Q) (x y : list Q)
           (bcs centr : list Z) (u : list Q) : list Q :=
  boundary_values exact_u t x y bcs
  ++ map (fun c => (- nth (Z.to_nat c) u 0 / dt)%Q) centr.

(** A state with one entry per node in each of its four vectors. *)
Definition well_formed (N : Z) (st : state) : Prop :=
  len (rect_u st) = N * N /\ len (hex_u st) = N * N
  /\ len (rect_rhs st) = N * N /\ len (hex_rhs st) = N * N.

(** ** Rows of a system, read as equations *)

(** Entry [c] of a vector. *)
Definition at_node (u : list Q) (c : Z) : Q := nth (Z.to_nat c) u 0%Q.

Definition stencil_sum (w : Z -> Q) (nbrs : list Z) : Q :=
  fold_right (fun j acc => (w j + acc)%Q) 0%Q nbrs.

(** Row [r] of [m @ w] is entry [c] of [w]. *)
Definition dirichlet_row (m : matrix) (r c : Z) : Prop :=
  forall w, (row_dot m w r == at_node w c)%Q.

(** Row [r] of [m @ w] couples node [c] to the nodes [nbrs], with [off] at
    each of them and minus their sum, less [1/dt], at [c]. *)
Definition stencil_row (m : matrix) (off : Q) (r c : Z) (nbrs : list Z) : Prop :=
  forall w,
    (row_dot m w r
     == (- (inject_Z (len nbrs) * off) - 1 / dt) * at_node w c
        + off * stencil_sum (at_node w) nbrs)%Q.

(** Every node has a row of one of the two kinds. *)
Definition dominant (n : Z) (m : matrix) (off : Q) : Prop :=
  forall c, 0 <= c < n ->
    (exists r, 0 <= r < n /\ dirichlet_row m r c)
    \/ (exists r nbrs, 0 <= r < n /\ Forall (fun j => 0 <= j < n) nbrs
                       /\ stencil_row m off r c nbrs).

(** Two vectors of [n] entries with equal entries. *)
Definition same_vector (n : Z) (u v : list Q) : Prop :=
  length u = length v /\ forall c, 0 <= c < n -> (at_node u c == at_node v c)%Q.

(** A vector that holds [c] at every node. *)
Definition constant_on (N : Z) (u : list Q) (c : Q) : Prop :=
  forall i, 0 <= i < N * N -> (at_node u i == c)%Q.

(** The vertex of a node in a picture, and the picture of a polygon list. *)
Definition vertex3 (x y u : list Q) (node : Z) : Q * Q * Q :=
  (at_node x node, at_node y node, at_node u node).

Definition picture_of (x y u : list Q) (polys : list (list Z)) : picture :=
  map (map (vertex3 x y u)) polys.

(** Both solutions of [st] hold, at every boundary node, the value of
    [exact_u] at time [t] at the coordinates of the node. *)
Definition boundary_holds (N : Z) (sqrt3 : Q) (exact_u : Q -> Q -> Q -> Q)
           (t : Q) (st : state) : Prop :=
  (forall k, 0 <= k < len (rect_bcs_all N) ->
     let node := nth (Z.to_nat k) (rect_bcs_all N) 0 in
     (at_node (rect_u st) node
      == exact_u t (at_node (rect_x N) node) (at_node (rect_y N) node))%Q)
  /\ (forall k, 0 <= k < len (hex_bcs_all N) ->
        let node := nth (Z.to_nat k) (hex_bcs_all N) 0 in
        (at_node (hex_u st) node
         == exact_u t (at_node (hex_x N) node)
                    (at_node (hex_y N sqrt3) node))%Q).

(** Every node [c] has a row of its own: row [k] if it is the [k]-th
    boundary node, and otherwise one of the [nst] stencil rows that follow
    the boundary rows. *)
Definition node_rows (n : Z) (m : matrix) (off : Q) (bcs : list Z) (nst : Z)
  : Prop :=
  forall c, 0 <= c < n ->
    (exists k, 0 <= k < len bcs /\ nth (Z.to_nat k) bcs 0 = c
               /\ dirichlet_row m k c)
    \/ (exists k nbrs, 0 <= k < nst /\ Forall (fun j => 0 <= j < n) nbrs
                       /\ stencil_row m off (len bcs + k) c nbrs).

(** Every entry of a vector is at most [B] in absolute value. *)
Definition bounded_by (N : Z) (u : list Q) (B : Q) : Prop :=
  forall i, 0 <= i < N * N -> (Qabs (at_node u i) <= B)%Q.

(** The cell of the rectangular mesh with lower left node (j, i), counter
    clockwise, and where a node of that mesh is drawn. *)
Definition cell_at (N i j : Z) : list Z :=
  [j * N + i; j * N + i + 1; (j + 1) * N + i + 1; (j + 1) * N + i].

Definition rect_vertex (N : Z) (node : Z) : Q * Q :=
  (at_node (rect_x N) node, at_node (rect_y N) node).

(** The absolute values of [w] at the nodes 0, ..., n-1, and the
    difference of two vectors at a node. *)
Definition abs_entries (n : Z) (w : Z -> Q) : list Q :=
  map (fun c => Qabs (w c)) (arange 0 n).

Definition diff_at (u u' : list Q) (c : Z) : Q := (at_node u c - at_node u' c)%Q.

(** * Properties *)

(** ** Facts about the numpy primitives *)

Module NpFacts.

Lemma arange_length a b : length (arange a b) = Z.to_nat (b - a).
Proof. unfold arange. now rewrite length_map, length_seq. Qed.

Lemma arange_nil a b : b <= a -> arange a b = [].
Proof.
  intros H. unfold arange.
  replace (Z.to_nat (b - a)) with 0%nat by lia. reflexivity.
Qed.

Lemma arange_cons a b : a < b -> arange a b = a :: arange (a + 1) b.
Proof.
  intros H. unfold arange.
  replace (Z.to_nat (b - a)) with (S (Z.to_nat (b - (a + 1)))) by lia.
  cbn [seq map]. f_equal; [lia|].
  rewrite <- seq_shift, map_map.
  apply map_ext. intros k. lia.
Qed.

Lemma In_arange a b x : In x (arange a b) <-> a <= x < b.
Proof.
  unfold arange. rewrite in_map_iff. split.
  - intros (k & <- & Hk). apply in_seq in Hk. lia.
  - intros H. exists (Z.to_nat (x - a)). split; [lia|].
    apply in_seq. lia.
Qed.

Lemma nth_arange a b k d :
  (k < Z.to_nat (b - a))%nat -> nth k (arange a b) d = a + Z.of_nat k.
Proof.
  intros H. unfold arange.
  rewrite nth_indep with (d' := a + Z.of_nat 0)
    by (now rewrite length_map, length_seq).
  rewrite (map_nth (fun k => a + Z.of_nat k)), seq_nth by assumption.
  reflexivity.
Qed.

Lemma NoDup_arange a b : NoDup (arange a b).
Proof.
  unfold arange. apply Finite.Injective_map_NoDup; [|apply seq_NoDup].
  intros x y H. lia.
Qed.

Lemma arange_shift s a b :
  map (fun k => s + k) (arange a b) = arange (s + a) (s + b).
Proof.
  unfold arange. rewrite map_map.
  replace (s + b - (s + a)) with (b - a) by lia.
  apply map_ext. intros k. lia.
Qed.

Lemma arange_snoc a b : a < b -> arange a b = arange a (b - 1) ++ [b - 1].
Proof.
  intros H. unfold arange.
  replace (Z.to_nat (b - a)) with (Z.to_nat (b - 1 - a) + 1)%nat by lia.
  rewrite seq_app, map_app. cbn [seq map]. do 2 f_equal. lia.
Qed.

Lemma removelast_arange a b : removelast (arange a b) = arange a (b - 1).
Proof.
  destruct (Z_lt_le_dec a b) as [H|H].
  - rewrite (arange_snoc a b H). apply removelast_last.
  - rewrite !arange_nil by lia. reflexivity.
Qed.

Lemma tl_arange a b : tl (arange a b) = arange (a + 1) b.
Proof.
  destruct (Z_lt_le_dec a b) as [H|H].
  - now rewrite (arange_cons a b H).
  - rewrite !arange_nil by lia. reflexivity.
Qed.

Lemma last_arange a b d : a < b -> last (arange a b) d = b - 1.
Proof. intros H. rewrite (arange_snoc a b H). apply last_last. Qed.

(** *** Strided slices *)

(** Induction two elements at a time. *)
Lemma list_ind2 {A} (P : list A -> Prop) :
  P [] -> (forall x, P [x]) ->
  (forall x y l, P l -> P (x :: y :: l)) ->
  forall l, P l.
Proof.
  intros H0 H1 H2 l.
  assert (H : P l /\ forall x, P (x :: l)).
  { induction l as [|y l [IH1 IH2]]; split; auto. }
  apply H.
Qed.

Lemma In_stride2 {A} (l : list A) x : In x (stride2 l) -> In x l.
Proof.
  induction l as [| y | y z l IH] using list_ind2; cbn; auto.
  intros [H|H]; auto.
Qed.

Lemma stride2_map {A B} (f : A -> B) l :
  stride2 (map f l) = map f (stride2 l).
Proof.
  induction l as [| y | y z l IH] using list_ind2; cbn; auto.
  f_equal. exact IH.
Qed.

Lemma stride2_seq a n :
  stride2 (seq a n) = map (fun k => (a + 2 * k)%nat) (seq 0 ((n + 1) / 2)).
Proof.
  revert a. induction n as [n IH] using (well_founded_induction lt_wf).
  intros a. destruct n as [|[|n]].
  - reflexivity.
  - cbn. f_equal. lia.
  - replace ((S (S n) + 1) / 2)%nat with (S ((n + 1) / 2)).
    2:{ replace (S (S n) + 1)%nat with ((n + 1) + 1 * 2)%nat by lia.
        rewrite Nat.div_add by lia. lia. }
    cbn [seq stride2 map]. f_equal; [lia|].
    rewrite IH by lia. rewrite <- seq_shift, map_map.
    apply map_ext. intros k. lia.
Qed.

Lemma stride2_arange a b :
  stride2 (arange a b) = map (fun k => a + 2 * k) (arange 0 ((b - a + 1) / 2)).
Proof.
  unfold arange. rewrite stride2_map, stride2_seq, !map_map.
  destruct (Z_lt_le_dec a b) as [H|H].
  - replace (Z.to_nat ((b - a + 1) / 2 - 0))
      with ((Z.to_nat (b - a) + 1) / 2)%nat.
    2:{ rewrite Z.sub_0_r.
        replace 2%nat with (Z.to_nat 2) by reflexivity.
        replace (Z.to_nat (b - a) + 1)%nat with (Z.to_nat (b - a + 1)) by lia.
        rewrite <- Z2Nat.inj_div by lia. reflexivity. }
    apply map_ext. intros k. lia.
  - replace (Z.to_nat (b - a)) with 0%nat by lia.
    replace (Z.to_nat ((b - a + 1) / 2 - 0)) with 0%nat.
    + reflexivity.
    + assert ((b - a + 1) / 2 < 1).
      { apply Z.div_lt_upper_bound; lia. }
      lia.
Qed.

(** *** Slices and maps *)

Lemma removelast_map {A B} (f : A -> B) l :
  removelast (map f l) = map f (removelast l).
Proof.
  induction l as [|x l IH]; [reflexivity|].
  destruct l as [|y l]; [reflexivity|].
  change (removelast (map f (x :: y :: l)))
    with (f x :: removelast (map f (y :: l))).
  rewrite IH. reflexivity.
Qed.

Lemma tl_map {A B} (f : A -> B) l : tl (map f l) = map f (tl l).
Proof. now destruct l. Qed.

Lemma In_removelast {A} (l : list A) x : In x (removelast l) -> In x l.
Proof.
  induction l as [|y l IH]; [intros []|].
  destruct l as [|z l]; [intros []|].
  change (removelast (y :: z :: l)) with (y :: removelast (z :: l)).
  intros [H|H]; [left; exact H | right; apply IH; exact H].
Qed.

Lemma In_tl {A} (l : list A) x : In x (tl l) -> In x l.
Proof. destruct l; cbn; auto. Qed.

Lemma length_removelast {A} (l : list A) :
  length (removelast l) = (length l - 1)%nat.
Proof.
  induction l as [|y l IH]; [reflexivity|].
  destruct l as [|z l]; [reflexivity|].
  change (removelast (y :: z :: l)) with (y :: removelast (z :: l)).
  cbn [length] in *. rewrite IH. lia.
Qed.

Lemma length_tl {A} (l : list A) : length (tl l) = (length l - 1)%nat.
Proof. destruct l; cbn; lia. Qed.

(** *** Transposition of rows built from one index list *)

Lemma zip_cons_map {A I} (f : I -> A) (g : I -> list A) l :
  zip_cons (map f l) (map g l) = map (fun a => f a :: g a) l.
Proof. induction l; cbn; congruence. Qed.

Lemma transpose4 {A I} (f0 f1 f2 f3 : I -> A) l :
  transpose [map f0 l; map f1 l; map f2 l; map f3 l]
  = map (fun a => [f0 a; f1 a; f2 a; f3 a]) l.
Proof.
  cbn [transpose]. rewrite map_map.
  now rewrite !zip_cons_map.
Qed.

Lemma transpose6 {A I} (f0 f1 f2 f3 f4 f5 : I -> A) l :
  transpose [map f0 l; map f1 l; map f2 l; map f3 l; map f4 l; map f5 l]
  = map (fun a => [f0 a; f1 a; f2 a; f3 a; f4 a; f5 a]) l.
Proof.
  cbn [transpose]. rewrite map_map.
  now rewrite !zip_cons_map.
Qed.

(** *** Concatenations of blocks of one length *)

Lemma length_concat_const {A} (c : nat) (ls : list (list A)) :
  Forall (fun l => length l = c) ls ->
  length (concat ls) = (length ls * c)%nat.
Proof.
  induction 1 as [|l ls Hl _ IH]; cbn; auto.
  rewrite length_app, IH, Hl. reflexivity.
Qed.

Lemma Forall_concat {A} (P : A -> Prop) (ls : list (list A)) :
  Forall (Forall P) ls -> Forall P (concat ls).
Proof.
  induction 1; cbn; auto. apply Forall_app. split; assumption.
Qed.

End NpFacts.

Import NpFacts.

(** ** The connectivity arrays in closed form *)

Module Conn.

Lemma half_valid N : valid_N N -> exists m, N = 2 * m /\ 3 <= m /\ Z.shiftr N 1 = m.
Proof.
  intros [He Hg]. exists (N / 2).
  assert (HN : N = 2 * (N / 2)).
  { rewrite (Z.div_mod N 2) at 1 by lia. lia. }
  rewrite Z.shiftr_div_pow2 by lia. change (2 ^ 1) with 2.
  repeat split; lia.
Qed.

Lemma In_evens N a : In a (evens N) -> 0 <= a < N - 1.
Proof. intros H. apply In_stride2, In_arange in H. exact H. Qed.

Lemma In_odds N a : In a (odds N) -> 1 <= a < N - 1.
Proof. intros H. apply In_stride2, In_arange in H. exact H. Qed.

Lemma evens_eq m : 0 <= m -> evens (2 * m) = map (fun k => 2 * k) (arange 0 m).
Proof.
  intros Hm. unfold evens. rewrite stride2_arange.
  replace ((2 * m - 1 - 0 + 1) / 2) with m.
  - apply map_ext. intros k. lia.
  - replace (2 * m - 1 - 0 + 1) with (m * 2) by lia.
    now rewrite Z.div_mul by lia.
Qed.

Lemma odds_eq m : 0 <= m -> odds (2 * m) = map (fun k => 1 + 2 * k) (arange 0 (m - 1)).
Proof.
  intros Hm. unfold odds. rewrite stride2_arange.
  replace ((2 * m - 1 - 1 + 1) / 2) with (m - 1); [reflexivity|].
  replace (2 * m - 1 - 1 + 1) with (1 + (m - 1) * 2) by lia.
  rewrite Z.div_add by lia. reflexivity.
Qed.

Lemma hex_poly_tmp_eq N : hex_poly_tmp N = map (poly_row N) (evens N).
Proof. apply transpose6. Qed.

Lemma hex_tmp_r_eq N : hex_tmp_r N = map (r_row N) (evens N).
Proof. apply transpose4. Qed.

Lemma hex_tmp_l_eq N : hex_tmp_l N = map (l_row N) (evens N).
Proof. apply transpose4. Qed.

Lemma hex_bcs_bottom_eq N :
  hex_bcs_bottom N
  = removelast ((N + 1) :: concat (map (bottom_row N) (odds N))).
Proof.
  unfold hex_bcs_bottom, hstack.
  rewrite <- (map_id (odds N)) at 1.
  rewrite transpose4. reflexivity.
Qed.

Lemma hex_bcs_top_eq N :
  hex_bcs_top N = concat (map (top_row N) (odds N)).
Proof. unfold hex_bcs_top, hstack. now rewrite transpose4. Qed.

Lemma shift2_map row c idx : shift2 c (map row idx) = block row c idx.
Proof. unfold shift2, block. now rewrite map_map. Qed.

Lemma hex_polys_eq N :
  hex_polys N
  = concat (map (fun j => block (poly_row N) (2*j*N) (removelast (evens N))
                          ++ block (poly_row N) ((2*j+1)*N - 1) (evens N))
                (arange 0 (Z.shiftr N 1 - 1))).
Proof.
  unfold hex_polys. rewrite hex_poly_tmp_eq. f_equal.
  apply map_ext. intros j.
  now rewrite removelast_map, !shift2_map.
Qed.

Lemma hex_stencil_r_eq N :
  hex_stencil_r N
  = concat (map (fun j => block (r_row N) (2*j*N) (removelast (evens N))
                          ++ block (r_row N) ((2*j+1)*N - 1) (tl (evens N)))
                (arange 0 (Z.shiftr N 1 - 2))).
Proof.
  unfold hex_stencil_r. rewrite hex_tmp_r_eq. f_equal.
  apply map_ext. intros j.
  now rewrite removelast_map, tl_map, !shift2_map.
Qed.

Lemma hex_stencil_l_eq N :
  hex_stencil_l N
  = concat (map (fun j => block (l_row N) (2*j*N) (tl (evens N))
                          ++ block (l_row N) ((2*j+1)*N - 1) (tl (evens N)))
                (arange 0 (Z.shiftr N 1 - 2))).
Proof.
  unfold hex_stencil_l. rewrite hex_tmp_l_eq. f_equal.
  apply map_ext. intros j.
  now rewrite tl_map, !shift2_map.
Qed.

End Conn.

Import Conn.

(** ** Every stored index is a node index *)

Module Bounds.

Ltac half N H :=
  let m := fresh "m" in
  let Hm := fresh "Hm" in
  let Hs := fresh "Hs" in
  destruct (half_valid N H) as (m & -> & Hm & Hs); try rewrite Hs in *.

Lemma Forall_block (P : Z -> Prop) row c idx :
  (forall a, In a idx -> Forall P (map (fun x => x + c) (row a))) ->
  Forall (Forall P) (block row c idx).
Proof.
  intros H. unfold block. apply Forall_map, Forall_forall. exact H.
Qed.

Lemma Forall_blocks (P : Z -> Prop) (f : Z -> list (list Z)) a b :
  (forall j, a <= j < b -> Forall (Forall P) (f j)) ->
  Forall (Forall P) (concat (map f (arange a b))).
Proof.
  intros H. apply Forall_concat, Forall_map, Forall_forall.
  intros j Hj. apply In_arange in Hj.
  apply Forall_forall. intros r Hr.
  specialize (H j Hj). rewrite Forall_forall in H. apply H, Hr.
Qed.

Ltac rows_in_range :=
  cbn [map poly_row r_row l_row bottom_row top_row];
  unfold in_range; repeat constructor; nia.

Lemma hex_polys_in_range N :
  valid_N N -> Forall (Forall (in_range N)) (hex_polys N).
Proof.
  intros H. rewrite hex_polys_eq. half N H.
  apply Forall_blocks. intros j Hj.
  apply Forall_app; split; apply Forall_block; intros a Ha.
  - apply In_removelast, In_evens in Ha. rows_in_range.
  - apply In_evens in Ha. rows_in_range.
Qed.

Lemma hex_stencil_r_in_range N :
  valid_N N -> Forall (Forall (in_range N)) (hex_stencil_r N).
Proof.
  intros H. rewrite hex_stencil_r_eq. half N H.
  apply Forall_blocks. intros j Hj.
  apply Forall_app; split; apply Forall_block; intros a Ha.
  - apply In_removelast, In_evens in Ha. rows_in_range.
  - apply In_tl, In_evens in Ha. rows_in_range.
Qed.

Lemma hex_stencil_l_in_range N :
  valid_N N -> Forall (Forall (in_range N)) (hex_stencil_l N).
Proof.
  intros H. rewrite hex_stencil_l_eq. half N H.
  apply Forall_blocks. intros j Hj.
  apply Forall_app; split; apply Forall_block; intros a Ha;
    apply In_tl, In_evens in Ha; rows_in_range.
Qed.

Lemma Forall_removelast {A} (P : A -> Prop) l :
  Forall P l -> Forall P (removelast l).
Proof.
  rewrite !Forall_forall. intros H x Hx. apply H, In_removelast, Hx.
Qed.

Lemma hex_bcs_all_in_range N :
  valid_N N -> Forall (in_range N) (hex_bcs_all N).
Proof.
  intros H. unfold hex_bcs_all.
  rewrite hex_bcs_bottom_eq, hex_bcs_top_eq. half N H.
  repeat (apply Forall_app; split).
  - apply Forall_removelast. constructor; [unfold in_range; nia|].
    apply Forall_concat, Forall_map, Forall_forall. intros a Ha.
    apply In_odds in Ha. rows_in_range.
  - apply Forall_map, Forall_forall. intros a Ha. apply In_arange in Ha.
    unfold in_range. nia.
  - apply Forall_rev, Forall_concat, Forall_map, Forall_forall. intros a Ha.
    apply In_odds in Ha. rows_in_range.
  - apply Forall_rev, Forall_map, Forall_forall. intros a Ha.
    apply In_arange in Ha. unfold in_range. nia.
Qed.

Lemma In_rect_centr N c :
  In c (rect_centr N) <->
  exists i j, 1 <= i < N - 1 /\ 1 <= j < N - 1 /\ c = j * N + i.
Proof.
  unfold rect_centr, hstack, on_grid. rewrite in_concat. split.
  - intros (row & Hrow & Hc). apply in_map_iff in Hrow.
    destruct Hrow as (j & <- & Hj). apply in_map_iff in Hc.
    destruct Hc as (i & <- & Hi). apply In_arange in Hi, Hj.
    exists i, j. auto.
  - intros (i & j & Hi & Hj & ->).
    exists (map (fun i => j * N + i) (arange 1 (N - 1))). split.
    + apply in_map_iff. exists j. split; [reflexivity|]. now apply In_arange.
    + apply in_map_iff. exists i. split; [reflexivity|]. now apply In_arange.
Qed.

Lemma rect_stencil_in_range N :
  valid_N N -> Forall (Forall (in_range N)) (rect_stencil N).
Proof.
  intros [_ H]. unfold rect_stencil. apply Forall_map, Forall_forall.
  intros c Hc. apply In_rect_centr in Hc.
  destruct Hc as (i & j & Hi & Hj & ->).
  unfold in_range. repeat constructor; nia.
Qed.

Lemma rect_bcs_all_in_range N :
  valid_N N -> Forall (in_range N) (rect_bcs_all N).
Proof.
  intros [_ H]. unfold rect_bcs_all, rect_bcs_bottom, rect_bcs_right,
    rect_bcs_top, rect_bcs_left.
  repeat (apply Forall_app; split);
    [ | apply Forall_map | apply Forall_rev, Forall_map
      | apply Forall_rev, Forall_map ];
    apply Forall_forall; intros a Ha;
    apply In_arange in Ha; unfold in_range; nia.
Qed.

Lemma rect_polys_in_range N :
  valid_N N -> Forall (Forall (in_range N)) (rect_polys N).
Proof.
  intros [_ H]. unfold rect_polys. apply Forall_blocks. intros i Hi.
  apply Forall_map, Forall_forall. intros j Hj. apply In_arange in Hj.
  unfold in_range. repeat constructor; nia.
Qed.

End Bounds.

Import Bounds.

(** ** Sizes *)

Module Sizes.

Lemma len_app {A} (l l' : list A) : len (l ++ l') = len l + len l'.
Proof. unfold len. rewrite length_app. lia. Qed.

Lemma len_map {A B} (f : A -> B) l : len (map f l) = len l.
Proof. unfold len. now rewrite length_map. Qed.

Lemma len_rev {A} (l : list A) : len (rev l) = len l.
Proof. unfold len. now rewrite length_rev. Qed.

Lemma len_arange a b : a <= b -> len (arange a b) = b - a.
Proof. intros H. unfold len. rewrite arange_length. lia. Qed.

Lemma len_removelast {A} (l : list A) : 0 < len l -> len (removelast l) = len l - 1.
Proof. unfold len. rewrite length_removelast. lia. Qed.

Lemma len_tl {A} (l : list A) : 0 < len l -> len (tl l) = len l - 1.
Proof. unfold len. rewrite length_tl. lia. Qed.

Lemma len_blocks {A} (f : Z -> list A) a b c :
  a <= b -> 0 <= c -> (forall j, a <= j < b -> len (f j) = c) ->
  len (concat (map f (arange a b))) = (b - a) * c.
Proof.
  intros Hab Hc H. unfold len.
  rewrite (length_concat_const (Z.to_nat c)).
  - rewrite length_map, arange_length. nia.
  - apply Forall_map, Forall_forall. intros j Hj. apply In_arange in Hj.
    specialize (H j Hj). unfold len in H. lia.
Qed.

Lemma len_evens m : 0 <= m -> len (evens (2 * m)) = m.
Proof. intros H. rewrite evens_eq, len_map, len_arange; lia. Qed.

Lemma len_odds m : 1 <= m -> len (odds (2 * m)) = m - 1.
Proof. intros H. rewrite odds_eq, len_map, len_arange; lia. Qed.

Lemma len_block row c idx : len (block row c idx) = len idx.
Proof. apply len_map. Qed.

Lemma len_hex_stencil_r N :
  valid_N N -> len (hex_stencil_r N) = (N / 2 - 2) * (N - 2).
Proof.
  intros H. rewrite hex_stencil_r_eq. half N H.
  replace (2 * m / 2) with m by (rewrite Z.mul_comm, Z.div_mul; lia).
  rewrite (len_blocks _ 0 (m - 2) (2 * m - 2)); try lia.
  intros j Hj.
  rewrite len_app, !len_block, len_removelast, len_tl, len_evens; try lia;
    rewrite len_evens; lia.
Qed.

Lemma len_hex_stencil_l N :
  valid_N N -> len (hex_stencil_l N) = (N / 2 - 2) * (N - 2).
Proof.
  intros H. rewrite hex_stencil_l_eq. half N H.
  replace (2 * m / 2) with m by (rewrite Z.mul_comm, Z.div_mul; lia).
  rewrite (len_blocks _ 0 (m - 2) (2 * m - 2)); try lia.
  intros j Hj.
  rewrite len_app, !len_block, !len_tl, len_evens; try lia;
    rewrite len_evens; lia.
Qed.

Lemma len_column p rows : len (column p rows) = len rows.
Proof. apply len_map. Qed.

Lemma len_hex_centr N :
  valid_N N -> len (hex_centr N) = (N / 2 - 2) * (N - 2) * 2.
Proof.
  intros H. unfold hex_centr.
  rewrite len_app, !len_column, len_hex_stencil_r, len_hex_stencil_l by assumption.
  lia.
Qed.

Lemma len_hex_bcs_all N : valid_N N -> len (hex_bcs_all N) = 6 * N - 8.
Proof.
  intros H. unfold hex_bcs_all.
  rewrite hex_bcs_bottom_eq, hex_bcs_top_eq. half N H.
  assert (Hrows : forall (row : Z -> list Z),
             (forall a, len (row a) = 4) ->
             len (concat (map row (odds (2 * m)))) = (m - 1) * 4).
  { intros row Hrow. rewrite odds_eq by lia. rewrite map_map.
    rewrite (len_blocks _ 0 (m - 1) 4); try lia. intros; apply Hrow. }
  rewrite !len_app, !len_rev, len_removelast.
  - unfold hex_bcs_right, hex_bcs_left.
    rewrite !len_map, !len_arange by lia.
    change (len ((2 * m + 1) :: ?l)) with (Z.of_nat (S (length l))).
    rewrite Nat2Z.inj_succ. fold (len (concat (map (bottom_row (2 * m)) (odds (2 * m))))).
    rewrite !Hrows by reflexivity. lia.
  - unfold len. cbn [length]. lia.
Qed.

Lemma len_rect_centr N : valid_N N -> len (rect_centr N) = (N - 2) * (N - 2).
Proof.
  intros [_ H]. unfold rect_centr, hstack, on_grid.
  rewrite (len_blocks _ 1 (N - 1) (N - 2)); try lia.
  intros j Hj. rewrite len_map, len_arange; lia.
Qed.

Lemma len_rect_bcs_all N : valid_N N -> len (rect_bcs_all N) = 4 * N - 4.
Proof.
  intros [_ H]. unfold rect_bcs_all, rect_bcs_bottom, rect_bcs_right,
    rect_bcs_top, rect_bcs_left.
  rewrite !len_app, !len_rev, !len_map, !len_arange by lia. lia.
Qed.

(** The matrices are square: as many rows as nodes. *)
Lemma rect_rows_total N :
  valid_N N -> len (rect_bcs_all N) + len (rect_centr N) = N * N.
Proof.
  intros H. rewrite len_rect_bcs_all, len_rect_centr by assumption. lia.
Qed.

Lemma hex_rows_total N :
  valid_N N ->
  len (hex_bcs_all N) + len (hex_stencil_r N) + len (hex_stencil_l N) = N * N.
Proof.
  intros H.
  rewrite len_hex_bcs_all, len_hex_stencil_r, len_hex_stencil_l by assumption.
  half N H. replace (2 * m / 2) with m by (rewrite Z.mul_comm, Z.div_mul; lia).
  lia.
Qed.

End Sizes.

Import Sizes.

(** ** Indexing *)

Module ArrFacts.

Lemma norm_index_nonneg n i :
  0 <= i < Z.of_nat n -> norm_index n i = Some (Z.to_nat i).
Proof.
  intros H. unfold norm_index.
  replace (0 <=? i) with true by (symmetry; apply Z.leb_le; lia).
  replace (i <? Z.of_nat n) with true by (symmetry; apply Z.ltb_lt; lia).
  reflexivity.
Qed.

Lemma item_nonneg {A} (arr : list A) i d :
  0 <= i < len arr -> item arr i = Some (nth (Z.to_nat i) arr d).
Proof.
  intros H. unfold item. rewrite norm_index_nonneg by exact H.
  apply nth_error_nth'. unfold len in H. lia.
Qed.

Lemma item_last_arange n : 0 < n -> item (arange 0 n) (-1) = Some (n - 1).
Proof.
  intros H. unfold item, norm_index. rewrite arange_length.
  replace (0 <=? -1) with false by reflexivity. cbn [andb].
  replace (- Z.of_nat (Z.to_nat (n - 0)) <=? -1) with true
    by (symmetry; apply Z.leb_le; lia).
  cbn [andb Z.ltb Z.compare].
  rewrite (nth_error_nth' _ 0) by (rewrite arange_length; lia).
  rewrite nth_arange by lia. f_equal. lia.
Qed.

Lemma take_in_range {A} (arr : list A) idxs d :
  Forall (fun i => 0 <= i < len arr) idxs ->
  take arr idxs = Some (map (fun i => nth (Z.to_nat i) arr d) idxs).
Proof.
  induction 1 as [|i idxs Hi _ IH]; [reflexivity|].
  cbn [take map]. rewrite (item_nonneg arr i d Hi), IH. reflexivity.
Qed.

Lemma length_update {A} (arr : list A) k v : length (update arr k v) = length arr.
Proof.
  revert k. induction arr as [|x arr IH]; intros [|k]; cbn; auto.
Qed.

Lemma firstn_update {A} (arr : list A) k v :
  (k < length arr)%nat ->
  firstn (S k) (update arr k v) = firstn k arr ++ [v].
Proof.
  revert k. induction arr as [|x arr IH]; intros [|k] H; cbn in *; try lia.
  - reflexivity.
  - f_equal. apply IH. lia.
Qed.

Lemma skipn_update {A} (arr : list A) k j v :
  (k < j)%nat -> skipn j (update arr k v) = skipn j arr.
Proof.
  revert k j. induction arr as [|x arr IH]; intros [|k] [|j] H; cbn; auto; try lia.
  apply IH. lia.
Qed.

(** Writing a run of consecutive positions replaces that slice. *)
Lemma put_arange arr vals a :
  (a + length vals <= length arr)%nat ->
  put arr (arange (Z.of_nat a) (Z.of_nat a + len vals)) vals
  = Some (firstn a arr ++ vals ++ skipn (a + length vals) arr).
Proof.
  revert arr a. induction vals as [|v vals IH]; intros arr a H.
  - unfold len. cbn [length]. rewrite arange_nil by lia.
    cbn [put app]. now rewrite Nat.add_0_r, firstn_skipn.
  - unfold len in *. cbn [length] in *.
    rewrite arange_cons by lia. cbn [put].
    rewrite norm_index_nonneg by lia. rewrite Nat2Z.id.
    replace (Z.of_nat a + 1) with (Z.of_nat (S a)) by lia.
    replace (Z.of_nat a + Z.of_nat (S (length vals)))
      with (Z.of_nat (S a) + Z.of_nat (length vals)) by lia.
    rewrite IH by (rewrite length_update; lia).
    rewrite firstn_update by lia.
    rewrite skipn_update by lia.
    rewrite <- app_assoc. cbn [app].
    now replace (S a + length vals)%nat with (a + S (length vals))%nat by lia.
Qed.

Lemma put_arange_Z arr vals a :
  0 <= a -> a + len vals <= len arr ->
  put arr (arange a (a + len vals)) vals
  = Some (firstn (Z.to_nat a) arr ++ vals
          ++ skipn (Z.to_nat a + length vals) arr).
Proof.
  intros Ha H. rewrite <- (Z2Nat.id a) at 1 2 by exact Ha.
  apply put_arange. unfold len in H. lia.
Qed.

(** Reading the slice that was written. *)
Lemma nth_written (pre vals post : list Q) k d :
  (k < length vals)%nat ->
  nth (length pre + k) (pre ++ vals ++ post) d = nth k vals d.
Proof.
  intros H. rewrite app_nth2 by lia.
  replace (length pre + k - length pre)%nat with k by lia.
  now rewrite app_nth1.
Qed.

Lemma nth_before (pre vals post : list Q) k d :
  (k < length pre)%nat -> nth k (pre ++ vals ++ post) d = nth k pre d.
Proof. intros H. now rewrite app_nth1. Qed.

Lemma length_map2 {A B C} (f : A -> B -> C) xs ys :
  length xs = length ys -> length (map2 f xs ys) = length xs.
Proof.
  revert ys. induction xs as [|x xs IH]; intros [|y ys] H; cbn in *; try lia.
  rewrite IH; lia.
Qed.

Lemma nth_map2 {A B C} (f : A -> B -> C) xs ys k dx dy dz :
  length xs = length ys -> (k < length xs)%nat ->
  nth k (map2 f xs ys) dz = f (nth k xs dx) (nth k ys dy).
Proof.
  revert ys k. induction xs as [|x xs IH]; intros [|y ys] k H Hk;
    cbn in *; try lia.
  destruct k; [reflexivity|]. apply IH; lia.
Qed.

End ArrFacts.

Import ArrFacts.

(** ** Rows of the assembled matrices *)

Module SparseFacts.

Lemma row_of_app a b r : row_of (add a b) r = row_of a r ++ row_of b r.
Proof. unfold row_of, add. now rewrite filter_app, map_app. Qed.

Lemma row_of_none m r :
  (forall t, In t m -> fst (fst t) <> r) -> row_of m r = [].
Proof.
  intros H. unfold row_of.
  induction m as [|t m IH]; [reflexivity|].
  cbn [filter].
  destruct (Z.eqb_spec (fst (fst t)) r) as [E|E].
  - exfalso. apply (H t); [left; reflexivity | exact E].
  - apply IH. intros t' Ht'. apply H. right. exact Ht'.
Qed.

Lemma In_coo_row (rows cols : list Z) (data : list Q) t :
  In t (combine (combine rows cols) data) -> In (fst (fst t)) rows.
Proof.
  destruct t as [[r c] v]. intros H.
  apply in_combine_l, in_combine_l in H. exact H.
Qed.

Lemma combine_app {A B} (l1 l2 : list A) (k1 k2 : list B) :
  length l1 = length k1 ->
  combine (l1 ++ l2) (k1 ++ k2) = combine l1 k1 ++ combine l2 k2.
Proof.
  revert k1. induction l1 as [|x l1 IH]; intros [|y k1] H; cbn in *;
    try discriminate; auto.
  f_equal. apply IH. lia.
Qed.

Lemma csr_matrix_ok data rows cols n :
  length rows = length data -> length cols = length data ->
  Forall (fun r => 0 <= r < n) rows -> Forall (fun c => 0 <= c < n) cols ->
  csr_matrix data rows cols (n, n) = Some (combine (combine rows cols) data).
Proof.
  intros Hr Hc Fr Fc. unfold csr_matrix.
  assert (Hshape : forall l, Forall (fun r => 0 <= r < n) l ->
                             forallb (in_shape n) l = true).
  { intros l Hl. apply forallb_forall. rewrite Forall_forall in Hl.
    intros x Hx. specialize (Hl x Hx). unfold in_shape.
    apply andb_true_iff. split; [apply Z.leb_le | apply Z.ltb_lt]; lia. }
  cbn [fst snd]. rewrite (Hshape rows Fr), (Hshape cols Fc).
  rewrite Hr, Hc, Nat.eqb_refl. reflexivity.
Qed.

Lemma row_of_identity_from (bcs : list Z) a k :
  (k < length bcs)%nat ->
  row_of (combine (combine (arange a (a + len bcs)) bcs)
                  (ones (arange a (a + len bcs)))) (a + Z.of_nat k)
  = [(nth k bcs 0, 1%Q)].
Proof.
  revert a k. induction bcs as [|x bcs IH]; intros a k Hk; [cbn in Hk; lia|].
  unfold len in *. cbn [length] in *.
  rewrite arange_cons by lia.
  replace (a + Z.of_nat (S (length bcs))) with (a + 1 + Z.of_nat (length bcs)) by lia.
  unfold ones in *. cbn [map combine].
  change ((a, x, inject_Z (1 + 0 * a)) :: ?m) with (add [(a, x, 1%Q)] m).
  rewrite row_of_app. destruct k as [|k].
  - rewrite (row_of_none (combine _ _)).
    + unfold row_of. cbn [filter fst snd]. rewrite Z.add_0_r, Z.eqb_refl.
      reflexivity.
    + intros t Ht. apply In_coo_row, In_arange in Ht. lia.
  - replace (a + Z.of_nat (S k)) with (a + 1 + Z.of_nat k) by lia.
    rewrite IH by lia.
    unfold row_of. cbn [filter fst snd].
    destruct (Z.eqb_spec a (a + 1 + Z.of_nat k)); [lia|]. reflexivity.
Qed.

Lemma row_of_identity bcs k :
  0 <= k < len bcs -> row_of (identity_coo bcs) k = [(nth (Z.to_nat k) bcs 0, 1%Q)].
Proof.
  intros H. unfold identity_coo.
  replace k with (0 + Z.of_nat (Z.to_nat k)) at 1 by lia.
  change (arange 0 (len bcs)) with (arange 0 (0 + len bcs)).
  apply row_of_identity_from. unfold len in H. lia.
Qed.

Lemma row_of_identity_out bcs r :
  len bcs <= r -> row_of (identity_coo bcs) r = [].
Proof.
  intros H. apply row_of_none. intros t Ht.
  apply In_coo_row, In_arange in Ht. lia.
Qed.

Lemma repeat_each_cons {A} w (x : A) l :
  repeat_each w (x :: l) = repeat x w ++ repeat_each w l.
Proof. reflexivity. Qed.

Lemma In_repeat_each {A} w (x : A) l : In x (repeat_each w l) -> In x l.
Proof.
  unfold repeat_each. rewrite in_concat. intros (r & Hr & Hx).
  apply in_map_iff in Hr. destruct Hr as (y & <- & Hy).
  apply repeat_spec in Hx. now subst.
Qed.

Lemma row_of_const_row r (cols : list Z) (data : list Q) r' :
  row_of (combine (combine (repeat r (length data)) cols) data) r'
  = if r =? r' then combine cols data else [].
Proof.
  revert cols. induction data as [|v data IH]; intros [|c cols]; cbn [length repeat combine].
  - now destruct (r =? r').
  - now destruct (r =? r').
  - now destruct (r =? r').
  - unfold row_of in *. cbn [filter fst snd]. specialize (IH cols).
    destruct (r =? r'); cbn [map fst snd]; rewrite IH; reflexivity.
Qed.

Lemma row_of_bulk_from (coefs : list Q) st s a k row :
  Forall (fun r => length r = length coefs) st ->
  nth_error st k = Some row ->
  row_of (combine (combine (map (fun i => s + i)
                                (repeat_each (length coefs)
                                             (arange a (a + len st))))
                           (concat st))
                  (concat (repeat coefs (length st))))
         (s + a + Z.of_nat k)
  = combine row coefs.
Proof.
  intros Hst. revert a k. induction Hst as [|r0 st Hr0 Hst IH]; intros a k Hk.
  - destruct k; discriminate.
  - unfold len in *. cbn [length] in *.
    rewrite arange_cons by lia.
    replace (a + Z.of_nat (S (length st))) with (a + 1 + Z.of_nat (length st)) by lia.
    rewrite repeat_each_cons, map_app. cbn [concat repeat].
    rewrite !combine_app
      by (rewrite ?length_combine, ?length_map, ?repeat_length; lia).
    change (combine (combine ?x ?y) ?z ++ ?m) with (add (combine (combine x y) z) m).
    rewrite row_of_app, map_repeat, row_of_const_row.
    destruct k as [|k].
    + cbn in Hk. injection Hk as ->.
      rewrite Z.add_0_r, Z.eqb_refl.
      rewrite row_of_none; [apply app_nil_r|].
      intros t Ht. apply In_coo_row, in_map_iff in Ht.
      destruct Ht as (i & <- & Hi). apply In_repeat_each, In_arange in Hi. lia.
    + cbn in Hk.
      replace (s + a + Z.of_nat (S k)) with (s + (a + 1) + Z.of_nat k) by lia.
      rewrite (IH (a + 1) k Hk).
      destruct (Z.eqb_spec (s + a) (s + (a + 1) + Z.of_nat k)); [lia|].
      reflexivity.
Qed.

Lemma row_of_bulk start st coefs k row :
  Forall (fun r => length r = length coefs) st ->
  nth_error st (Z.to_nat k) = Some row -> 0 <= k ->
  row_of (bulk_coo start st coefs) (start + k) = combine row coefs.
Proof.
  intros Hst Hrow Hk. unfold bulk_coo, bulk_rows, hstack, tile, len.
  rewrite Nat2Z.id.
  replace (start + k) with (start + 0 + Z.of_nat (Z.to_nat k)) by lia.
  change (Z.of_nat (length st)) with (0 + len st).
  now apply row_of_bulk_from.
Qed.

Lemma row_of_bulk_out start st coefs r :
  r < start \/ start + len st <= r ->
  row_of (bulk_coo start st coefs) r = [].
Proof.
  intros H. apply row_of_none. intros t Ht.
  apply In_coo_row, in_map_iff in Ht. destruct Ht as (i & <- & Hi).
  apply In_repeat_each, In_arange in Hi. lia.
Qed.

Lemma length_repeat_each {A} w (l : list A) :
  length (repeat_each w l) = (length l * w)%nat.
Proof.
  unfold repeat_each. rewrite (length_concat_const w).
  - now rewrite length_map.
  - apply Forall_map, Forall_forall. intros x _. apply repeat_length.
Qed.

Lemma length_tile {A} (a : list A) n : length (tile a n) = (Z.to_nat n * length a)%nat.
Proof.
  unfold tile. rewrite (length_concat_const (length a)).
  - now rewrite repeat_length.
  - apply Forall_forall. intros x Hx. apply repeat_spec in Hx. now subst.
Qed.

(** The stencil block is accepted when its rows and columns fit. *)
Lemma csr_bulk_ok start st coefs n :
  Forall (fun r => length r = length coefs) st ->
  Forall (Forall (fun c => 0 <= c < n)) st ->
  0 <= start -> start + len st <= n ->
  csr_matrix (tile coefs (len st))
             (bulk_rows start (len st) (length coefs)) (hstack st) (n, n)
  = Some (bulk_coo start st coefs).
Proof.
  intros Hst Hcols Hs Hn. apply csr_matrix_ok.
  - unfold bulk_rows, len.
    rewrite length_map, length_repeat_each, arange_length, length_tile. lia.
  - unfold hstack. rewrite (length_concat_const (length coefs)) by exact Hst.
    rewrite length_tile. unfold len. lia.
  - apply Forall_map, Forall_forall. intros i Hi.
    apply In_repeat_each, In_arange in Hi. lia.
  - apply Forall_concat, Hcols.
Qed.

Lemma csr_identity_ok bcs n :
  Forall (fun c => 0 <= c < n) bcs -> len bcs <= n ->
  csr_matrix (ones (arange 0 (len bcs))) (arange 0 (len bcs)) bcs (n, n)
  = Some (identity_coo bcs).
Proof.
  intros Hb Hn. apply csr_matrix_ok.
  - unfold ones. now rewrite length_map.
  - unfold ones, len. rewrite length_map, arange_length. lia.
  - apply Forall_forall. intros r Hr. apply In_arange in Hr. lia.
  - exact Hb.
Qed.

End SparseFacts.

Import SparseFacts.

(** ** Coordinates *)

Module GridFacts.

Local Open Scope Q_scope.

Lemma cumsum_from_length acc l : length (cumsum_from acc l) = length l.
Proof. revert acc. induction l; intros acc; cbn; auto. Qed.

Lemma cumsum_from_diff l acc i :
  (S i < length l)%nat ->
  nth (S i) (cumsum_from acc l) 0 - nth i (cumsum_from acc l) 0 == nth (S i) l 0.
Proof.
  revert acc i. induction l as [|x l IH]; intros acc i H; [cbn in H; lia|].
  destruct i as [|i].
  - destruct l as [|y l]; [cbn in H; lia|]. cbn. ring.
  - cbn [cumsum_from nth]. apply IH. cbn in H. lia.
Qed.

Lemma cumsum_from_nonneg l acc :
  0 <= acc -> Forall (fun v => 0 <= v) l ->
  Forall (fun v => 0 <= v) (cumsum_from acc l).
Proof.
  intros Ha Hl. revert acc Ha. induction Hl as [|x l Hx _ IH]; intros acc Ha.
  - constructor.
  - cbn. assert (0 <= acc + x) by lra. constructor; auto.
Qed.

Lemma fold_max_ge l acc : acc <= fold_left Qmax l acc.
Proof.
  revert acc. induction l as [|x l IH]; intros acc; cbn; [lra|].
  apply Qle_trans with (Qmax acc x); [apply Q.le_max_l | apply IH].
Qed.

Lemma fold_max_ge_in l acc x : In x l -> x <= fold_left Qmax l acc.
Proof.
  revert acc. induction l as [|y l IH]; intros acc; [intros []|].
  intros [->|H]; cbn.
  - apply Qle_trans with (Qmax acc x); [apply Q.le_max_r | apply fold_max_ge].
  - apply IH, H.
Qed.

Lemma fold_max_attained l acc :
  fold_left Qmax l acc == acc \/ exists y, In y l /\ fold_left Qmax l acc == y.
Proof.
  revert acc. induction l as [|x l IH]; intros acc; cbn.
  - left. reflexivity.
  - destruct (IH (Qmax acc x)) as [E|(y & Hy & E)].
    + destruct (Q.max_dec acc x) as [E'|E'].
      * left. now rewrite E.
      * right. exists x. split; [now left | now rewrite E].
    + right. exists y. split; [now right | exact E].
Qed.

Lemma amax_ge l x : In x l -> x <= amax l.
Proof.
  destruct l as [|y l]; [intros []|]. cbn [amax]. intros [->|H].
  - apply fold_max_ge.
  - apply fold_max_ge_in, H.
Qed.

Lemma amax_attained l : l <> [] -> exists y, In y l /\ amax l == y.
Proof.
  destruct l as [|x l]; [congruence|]. intros _. cbn [amax].
  destruct (fold_max_attained l x) as [E|(y & Hy & E)].
  - exists x. split; [now left | exact E].
  - exists y. split; [now right | exact E].
Qed.

(** Dividing non-negative values, not all zero, by their maximum. *)
Lemma normalise_spec (a : list (list Q)) :
  Forall (fun v => 0 <= v) (hstack a) ->
  attains 0 (hstack a) ->
  (exists v, In v (hstack a) /\ 0 < v) ->
  Forall unit_interval (normalise a)
  /\ attains 0 (normalise a) /\ attains 1 (normalise a)
  /\ amax (normalise a) == 1.
Proof.
  intros Hpos (z & Hz & Ez) (p & Hp & Hp0). unfold normalise.
  set (flat := hstack a) in *.
  assert (Hm : 0 < amax flat).
  { apply Qlt_le_trans with p; [exact Hp0 | apply amax_ge, Hp]. }
  assert (Hall : Forall unit_interval (map (fun v => v / amax flat) flat)).
  { apply Forall_map, Forall_forall. intros v Hv.
    rewrite Forall_forall in Hpos. specialize (Hpos v Hv).
    pose proof (amax_ge flat v Hv). split.
    - apply Qle_shift_div_l; lra.
    - apply Qle_shift_div_r; lra. }
  assert (Hone : attains 1 (map (fun v => v / amax flat) flat)).
  { destruct (amax_attained flat) as (y & Hy & Ey).
    { intros E. rewrite E in Hz. destruct Hz. }
    exists (y / amax flat). split.
    - apply in_map_iff. exists y. auto.
    - rewrite <- Ey. field. lra. }
  repeat split; auto.
  - exists (z / amax flat). split.
    + apply in_map_iff. exists z. auto.
    + rewrite Ez. field. lra.
  - destruct Hone as (v & Hv & Ev). apply Qle_antisym.
    + destruct (amax_attained (map (fun v => v / amax flat) flat))
        as (y & Hy & Ey).
      { intros E. rewrite E in Hv. destruct Hv. }
      rewrite Ey. rewrite Forall_forall in Hall. apply (Hall y Hy).
    + rewrite <- Ev. apply amax_ge, Hv.
Qed.

Lemma hstack2_map {A I} (f g : I -> list A) l :
  hstack2 (map f l) (map g l) = map (fun x => f x ++ g x) l.
Proof. induction l; cbn; congruence. Qed.

Lemma hex_x_raw_eq N :
  hex_x_raw N
  = map (fun j => cumsum (start_x N j :: map (fun i => step_x N i j)
                                             (arange 0 (N - 1))))
        (arange 0 N).
Proof.
  unfold hex_x_raw, initoff, hex_dx, shortoff, on_grid.
  rewrite !map_map, hstack2_map, map_map.
  apply map_ext. intros j. cbn [map app]. now rewrite map_map.
Qed.

Lemma hhat_pos N : (0 < N)%Z -> 0 < hhat N.
Proof.
  intros H. unfold hhat. apply Qlt_shift_div_l.
  - change 0 with (inject_Z 0). rewrite <- Zlt_Qlt. exact H.
  - lra.
Qed.

Lemma step_x_cases N i j :
  step_x N i j == if ((i + 1) mod 2 =? j mod 2)%Z then short_x N else long_x N.
Proof. unfold step_x. destruct (_ =? _)%Z; ring. Qed.

Lemma step_x_pos N i j : (0 < N)%Z -> 0 < step_x N i j.
Proof.
  intros H. pose proof (hhat_pos N H). rewrite step_x_cases.
  unfold short_x, long_x. destruct (_ =? _)%Z; lra.
Qed.

Lemma start_x_nonneg N j : (0 < N)%Z -> 0 <= start_x N j.
Proof.
  intros H. pose proof (hhat_pos N H). unfold start_x, off_x.
  destruct (_ =? _)%Z; lra.
Qed.

End GridFacts.

Import GridFacts.

Lemma nth_map_arange {A} (F : Z -> A) a b k d :
  0 <= k < b - a -> nth (Z.to_nat k) (map F (arange a b)) d = F (a + k).
Proof.
  intros H.
  rewrite nth_indep with (d' := F 0)
    by (rewrite length_map, arange_length; lia).
  rewrite map_nth, nth_arange by lia. f_equal. lia.
Qed.

Lemma hex_dx_eq N :
  hex_dx N
  = map (fun j => map (fun i => step_x N i j) (arange 0 (N - 1))) (arange 0 N).
Proof.
  unfold hex_dx, shortoff, on_grid. rewrite map_map.
  apply map_ext. intros j. now rewrite map_map.
Qed.

(** ** The parity rule of the hexagonal grid *)

(** C6: in the hexagonal mesh generator, before normalisation, the step from
    node [i] to node [i+1] of row [j] is the short unit exactly when
    [(i+1) % 2 == j % 2] and the long unit, twice the short one, otherwise;
    the first node of an odd row sits at half a short unit and the first node
    of an even row at 0. *)
Theorem C6_hex_spacing (N j i : Z) :
  0 < N -> 0 <= j < N -> 0 <= i < N - 1 ->
  let row := nth (Z.to_nat j) (hex_x_raw N) [] in
  let gap := (nth (Z.to_nat (i + 1)) row 0 - nth (Z.to_nat i) row 0)%Q in
  (gap == if (i + 1) mod 2 =? j mod 2 then short_x N else long_x N)%Q
  /\ (gap == nth (Z.to_nat i) (nth (Z.to_nat j) (hex_dx N) []) 0)%Q
  /\ ((gap == short_x N)%Q <-> (i + 1) mod 2 = j mod 2)
  /\ ((gap == long_x N)%Q <-> (i + 1) mod 2 <> j mod 2)
  /\ (long_x N == 2 * short_x N)%Q
  /\ (nth 0 row 0 == if j mod 2 =? 1 then (1 # 2) * short_x N else 0)%Q.
Proof.
  intros HN Hj Hi row gap.
  assert (Hrow : row = cumsum (start_x N j :: map (fun i => step_x N i j)
                                                  (arange 0 (N - 1)))).
  { unfold row. rewrite hex_x_raw_eq. rewrite nth_map_arange by lia.
    now rewrite Z.add_0_l. }
  assert (Hstep : nth (Z.to_nat i) (map (fun i => step_x N i j)
                                        (arange 0 (N - 1))) 0%Q
                  = step_x N i j).
  { rewrite nth_map_arange by lia. now rewrite Z.add_0_l. }
  assert (Hgap : (gap == step_x N i j)%Q).
  { unfold gap. rewrite Hrow. unfold cumsum.
    replace (Z.to_nat (i + 1)) with (S (Z.to_nat i)) by lia.
    rewrite cumsum_from_diff.
    - cbn [nth]. rewrite Hstep. reflexivity.
    - cbn [length]. rewrite length_map, arange_length. lia. }
  pose proof (hhat_pos N HN) as Hh.
  assert (Hcases := step_x_cases N i j).
  repeat split.
  - now rewrite Hgap.
  - rewrite Hgap, hex_dx_eq, nth_map_arange by lia.
    rewrite Z.add_0_l, Hstep. reflexivity.
  - rewrite Hgap, Hcases. destruct (Z.eqb_spec ((i + 1) mod 2) (j mod 2)); auto.
    unfold short_x, long_x. intros E. exfalso. lra.
  - intros He. rewrite Hgap, Hcases.
    destruct (Z.eqb_spec ((i + 1) mod 2) (j mod 2)); [reflexivity|contradiction].
  - rewrite Hgap, Hcases. destruct (Z.eqb_spec ((i + 1) mod 2) (j mod 2)); auto.
    unfold short_x, long_x. intros E. exfalso. lra.
  - intros Hne. rewrite Hgap, Hcases.
    destruct (Z.eqb_spec ((i + 1) mod 2) (j mod 2)); [contradiction|reflexivity].
  - rewrite Hrow. cbn [cumsum cumsum_from nth]. unfold start_x, off_x, short_x.
    destruct (j mod 2 =? 1); ring.
Qed.

Lemma C6_hex_spacing_witness :
  let row := nth 1 (hex_x_raw 6) [] in
  let gap := (nth 3 row 0 - nth 2 row 0)%Q in
  (gap == short_x 6)%Q
  /\ (gap == nth 2 (nth 1 (hex_dx 6) []) 0)%Q
  /\ ((gap == short_x 6)%Q <-> 1 = 1)
  /\ ((gap == long_x 6)%Q <-> 1 <> 1)
  /\ (long_x 6 == 2 * short_x 6)%Q
  /\ (nth 0 row 0 == (1 # 2) * short_x 6)%Q.
Proof. apply (C6_hex_spacing 6 1 2); lia. Defined.

(** ** The coordinates fill the unit square *)

Module Square.

Local Open Scope Q_scope.

Lemma amax_unit l : Forall unit_interval l -> attains 1 l -> amax l == 1.
Proof.
  intros Hall (v & Hv & Ev). apply Qle_antisym.
  - destruct (amax_attained l) as (y & Hy & Ey).
    { intros E. rewrite E in Hv. destruct Hv. }
    rewrite Ey. rewrite Forall_forall in Hall. apply (Hall y Hy).
  - rewrite <- Ev. apply amax_ge, Hv.
Qed.

Lemma In_on_grid {A B C} (f : A -> B -> C) xs ys i j :
  In i xs -> In j ys -> In (f i j) (hstack (on_grid f xs ys)).
Proof.
  intros Hi Hj. unfold hstack, on_grid. apply in_concat.
  exists (map (fun i => f i j) xs). split.
  - apply in_map_iff. exists j. auto.
  - apply in_map_iff. exists i. auto.
Qed.

Lemma Forall_on_grid {A B C} (P : C -> Prop) (f : A -> B -> C) xs ys :
  (forall i j, In i xs -> In j ys -> P (f i j)) ->
  Forall P (hstack (on_grid f xs ys)).
Proof.
  intros H. unfold hstack, on_grid.
  apply Forall_concat, Forall_map, Forall_forall. intros j Hj.
  apply Forall_map, Forall_forall. intros i Hi. auto.
Qed.

Lemma length_on_grid {A B C} (f : A -> B -> C) xs ys :
  length (hstack (on_grid f xs ys)) = (length ys * length xs)%nat.
Proof.
  unfold hstack, on_grid. rewrite (length_concat_const (length xs)).
  - now rewrite length_map.
  - apply Forall_map, Forall_forall. intros j _. apply length_map.
Qed.

Lemma length_normalise a : length (normalise a) = length (hstack a).
Proof. unfold normalise. apply length_map. Qed.

Lemma length_hex_x N : (0 < N)%Z -> len (hex_x N) = (N * N)%Z.
Proof.
  intros H. unfold len, hex_x. rewrite length_normalise, hex_x_raw_eq.
  unfold hstack. rewrite (length_concat_const (Z.to_nat N)).
  - rewrite length_map, arange_length. nia.
  - apply Forall_map, Forall_forall. intros j _.
    unfold cumsum. rewrite cumsum_from_length. cbn [length].
    rewrite length_map, arange_length. lia.
Qed.

Lemma length_hex_y N sqrt3 : (0 < N)%Z -> len (hex_y N sqrt3) = (N * N)%Z.
Proof.
  intros H. unfold len, hex_y, hex_y_raw.
  rewrite length_normalise, length_on_grid, arange_length. nia.
Qed.

Lemma length_linspace a b n : length (linspace a b n) = Z.to_nat n.
Proof.
  unfold linspace. rewrite length_map, arange_length. f_equal. lia.
Qed.

Lemma rect_x_eq N :
  rect_x N = hstack (on_grid (fun x (_ : Q) => x) (linspace 0 1 N) (linspace 0 1 N)).
Proof.
  unfold rect_x, meshgrid, on_grid. cbn [fst]. f_equal.
  apply map_ext. intros _. symmetry. apply map_id.
Qed.

Lemma rect_y_eq N :
  rect_y N = hstack (on_grid (fun (_ : Q) y => y) (linspace 0 1 N) (linspace 0 1 N)).
Proof. reflexivity. Qed.

Lemma length_rect_x N : (0 < N)%Z -> len (rect_x N) = (N * N)%Z.
Proof.
  intros H. unfold len. rewrite rect_x_eq, length_on_grid, length_linspace. nia.
Qed.

Lemma length_rect_y N : (0 < N)%Z -> len (rect_y N) = (N * N)%Z.
Proof.
  intros H. unfold len. rewrite rect_y_eq, length_on_grid, length_linspace. nia.
Qed.

Lemma hex_x_raw_nonneg N :
  (0 < N)%Z -> Forall (fun v => 0 <= v) (hstack (hex_x_raw N)).
Proof.
  intros H. rewrite hex_x_raw_eq. unfold hstack.
  apply Forall_concat, Forall_map, Forall_forall. intros j _.
  apply cumsum_from_nonneg; [lra|]. constructor.
  - now apply start_x_nonneg.
  - apply Forall_map, Forall_forall. intros i _.
    apply Qlt_le_weak. now apply step_x_pos.
Qed.

Lemma hex_x_spec N :
  (1 < N)%Z ->
  Forall unit_interval (hex_x N) /\ attains 0 (hex_x N)
  /\ attains 1 (hex_x N) /\ amax (hex_x N) == 1.
Proof.
  intros H. apply normalise_spec.
  - apply hex_x_raw_nonneg. lia.
  - rewrite hex_x_raw_eq, (arange_cons 0 N) by lia.
    exists (0 + start_x N 0). split; [left; reflexivity|].
    unfold start_x. cbn. ring.
  - rewrite hex_x_raw_eq, (arange_cons 0 N), (arange_cons 0 (N - 1)) by lia.
    exists (0 + start_x N 0 + step_x N 0 0). split; [right; left; reflexivity|].
    pose proof (start_x_nonneg N 0). pose proof (step_x_pos N 0 0).
    assert (0 < N)%Z by lia. intuition lra.
Qed.

Lemma off_y_pos N sqrt3 : (0 < N)%Z -> 0 < sqrt3 -> 0 < off_y N sqrt3.
Proof.
  intros H Hs. pose proof (hhat_pos N H). unfold off_y.
  apply Qlt_shift_div_l; [lra|]. rewrite Qmult_0_l.
  apply Qmult_lt_0_compat; assumption.
Qed.

Lemma hex_y_spec N sqrt3 :
  (1 < N)%Z -> 0 < sqrt3 ->
  Forall unit_interval (hex_y N sqrt3) /\ attains 0 (hex_y N sqrt3)
  /\ attains 1 (hex_y N sqrt3) /\ amax (hex_y N sqrt3) == 1.
Proof.
  intros H Hs. assert (Hy : 0 < off_y N sqrt3) by (apply off_y_pos; [lia|exact Hs]).
  apply normalise_spec; unfold hex_y_raw.
  - apply Forall_on_grid. intros i j _ Hj. apply In_arange in Hj.
    apply Qmult_le_0_compat; [lra|].
    change 0 with (inject_Z 0). rewrite <- Zle_Qle. lia.
  - exists (off_y N sqrt3 * inject_Z 0). split.
    + apply (In_on_grid (fun (i j : Z) => off_y N sqrt3 * inject_Z j)
                        _ _ 0%Z 0%Z); apply In_arange; lia.
    + change (inject_Z 0) with 0. ring.
  - exists (off_y N sqrt3 * inject_Z 1). split.
    + apply (In_on_grid (fun (i j : Z) => off_y N sqrt3 * inject_Z j)
                        _ _ 0%Z 1%Z); apply In_arange; lia.
    + change (inject_Z 1) with 1. lra.
Qed.

Lemma linspace_unit N :
  (1 < N)%Z ->
  Forall unit_interval (linspace 0 1 N) /\ attains 0 (linspace 0 1 N)
  /\ attains 1 (linspace 0 1 N).
Proof.
  intros H. unfold linspace.
  assert (Hd : 0 < inject_Z (N - 1)).
  { change 0 with (inject_Z 0). rewrite <- Zlt_Qlt. lia. }
  assert (E : forall k, inject_Z k * ((1 - 0) / inject_Z (N - 1)) + 0
                        == inject_Z k / inject_Z (N - 1)).
  { intros k. field. lra. }
  repeat split.
  - apply Forall_map, Forall_forall. intros k Hk. apply In_arange in Hk.
    assert (0 <= inject_Z k) by (change 0 with (inject_Z 0); rewrite <- Zle_Qle; lia).
    assert (inject_Z k <= inject_Z (N - 1)) by (rewrite <- Zle_Qle; lia).
    unfold unit_interval. rewrite E. split.
    + apply Qle_shift_div_l; lra.
    + apply Qle_shift_div_r; lra.
  - exists (inject_Z 0 * ((1 - 0) / inject_Z (N - 1)) + 0). split.
    + apply in_map_iff. exists 0%Z. split; [reflexivity|]. apply In_arange. lia.
    + rewrite E. change (inject_Z 0) with 0. field. lra.
  - exists (inject_Z (N - 1) * ((1 - 0) / inject_Z (N - 1)) + 0). split.
    + apply in_map_iff. exists (N - 1)%Z. split; [reflexivity|].
      apply In_arange. lia.
    + rewrite E. field. lra.
Qed.

Lemma linspace_nonempty N : (1 < N)%Z -> exists v, In v (linspace 0 1 N).
Proof.
  intros H. destruct (linspace_unit N H) as (_ & (v & Hv & _) & _). eauto.
Qed.

Lemma rect_x_spec N :
  (1 < N)%Z ->
  Forall unit_interval (rect_x N) /\ attains 0 (rect_x N)
  /\ attains 1 (rect_x N) /\ amax (rect_x N) == 1.
Proof.
  intros H. destruct (linspace_unit N H) as (Hall & (z & Hz & Ez) & (o & Ho & Eo)).
  destruct (linspace_nonempty N H) as (w & Hw).
  assert (Hu : Forall unit_interval (rect_x N)).
  { rewrite rect_x_eq. apply Forall_on_grid. intros i j Hi _.
    rewrite Forall_forall in Hall. auto. }
  assert (H1 : attains 1 (rect_x N)).
  { exists o. split; [|exact Eo]. rewrite rect_x_eq.
    now apply (In_on_grid (fun x (_ : Q) => x)) with (j := w). }
  repeat split; auto.
  - exists z. split; [|exact Ez]. rewrite rect_x_eq.
    now apply (In_on_grid (fun x (_ : Q) => x)) with (j := w).
  - now apply amax_unit.
Qed.

Lemma rect_y_spec N :
  (1 < N)%Z ->
  Forall unit_interval (rect_y N) /\ attains 0 (rect_y N)
  /\ attains 1 (rect_y N) /\ amax (rect_y N) == 1.
Proof.
  intros H. destruct (linspace_unit N H) as (Hall & (z & Hz & Ez) & (o & Ho & Eo)).
  destruct (linspace_nonempty N H) as (w & Hw).
  assert (Hu : Forall unit_interval (rect_y N)).
  { rewrite rect_y_eq. apply Forall_on_grid. intros i j _ Hj.
    rewrite Forall_forall in Hall. auto. }
  assert (H1 : attains 1 (rect_y N)).
  { exists o. split; [|exact Eo]. rewrite rect_y_eq.
    now apply (In_on_grid (fun (_ : Q) y => y)) with (i := w). }
  repeat split; auto.
  - exists z. split; [|exact Ez]. rewrite rect_y_eq.
    now apply (In_on_grid (fun (_ : Q) y => y)) with (i := w).
  - now apply amax_unit.
Qed.

End Square.

Import Square.

(** C8: for every valid N and each mesh, the coordinate arrays have one
    entry per node, every coordinate lies in [0,1], and on each axis some
    node sits at 0 and some node at 1; the largest coordinate of each axis
    is 1. *)
Theorem C8_coordinates_in_unit_square (N : Z) (sqrt3 : Q) :
  valid_N N -> (0 < sqrt3)%Q ->
  Forall (fun coords =>
            len coords = N * N
            /\ Forall unit_interval coords
            /\ attains 0 coords /\ attains 1 coords
            /\ (amax coords == 1)%Q)
         [hex_x N; hex_y N sqrt3; rect_x N; rect_y N].
Proof.
  intros [_ HN] Hs.
  repeat constructor; try (apply length_hex_x || apply length_hex_y
                           || apply length_rect_x || apply length_rect_y; lia).
  all: first [ apply hex_x_spec | apply hex_y_spec
             | apply rect_x_spec | apply rect_y_spec ]; first [lia | exact Hs].
Qed.

Lemma C8_coordinates_in_unit_square_witness :
  Forall (fun coords =>
            len coords = 6 * 6
            /\ Forall unit_interval coords
            /\ attains 0 coords /\ attains 1 coords
            /\ (amax coords == 1)%Q)
         [hex_x 6; hex_y 6 sqrt3_float; rect_x 6; rect_y 6].
Proof.
  apply (C8_coordinates_in_unit_square 6 sqrt3_float).
  - split; [reflexivity | lia].
  - reflexivity.
Defined.

(** ** The assembled systems in closed form *)

Module AssemblyFacts.

Lemma item_last {A} (l : list A) x : item (l ++ [x]) (-1) = Some x.
Proof.
  unfold item, norm_index. rewrite length_app. cbn [length].
  replace (0 <=? -1) with false by reflexivity. cbn [andb].
  replace (- Z.of_nat (length l + 1) <=? -1) with true
    by (symmetry; apply Z.leb_le; lia).
  cbn [andb Z.ltb Z.compare].
  replace (Z.to_nat (-1 + Z.of_nat (length l + 1))) with (length l) by lia.
  rewrite nth_error_app2 by lia. now rewrite Nat.sub_diag.
Qed.

Lemma repeat_each_app {A} w (l l' : list A) :
  repeat_each w (l ++ l') = repeat_each w l ++ repeat_each w l'.
Proof. unfold repeat_each. now rewrite map_app, concat_app. Qed.

Lemma item_last_bulk_rows start n w :
  0 < n -> item (bulk_rows start n (S w)) (-1) = Some (start + (n - 1)).
Proof.
  intros H. unfold bulk_rows.
  rewrite (arange_snoc 0 n) by lia.
  rewrite repeat_each_app, map_app. unfold repeat_each at 2.
  cbn [map concat]. rewrite app_nil_r.
  replace (repeat (n - 1) (S w)) with (repeat (n - 1) w ++ [n - 1])
    by (symmetry; apply repeat_cons).
  rewrite map_app, app_assoc. cbn [map]. apply item_last.
Qed.

Lemma length_boundary_values e t x y bcs :
  length (boundary_values e t x y bcs) = length bcs.
Proof.
  unfold boundary_values. rewrite length_map2; now rewrite !length_map.
Qed.

Lemma nth_boundary_values e t x y bcs k :
  (k < length bcs)%nat ->
  nth k (boundary_values e t x y bcs) 0%Q
  = e t (nth (Z.to_nat (nth k bcs 0)) x 0%Q) (nth (Z.to_nat (nth k bcs 0)) y 0%Q).
Proof.
  intros H. unfold boundary_values.
  rewrite (nth_map2 _ _ _ _ 0%Q 0%Q) by (rewrite ?length_map; auto).
  f_equal.
  - rewrite nth_indep with (d' := nth (Z.to_nat 0) x 0%Q)
      by (now rewrite length_map).
    apply (map_nth (fun i => nth (Z.to_nat i) x 0%Q)).
  - rewrite nth_indep with (d' := nth (Z.to_nat 0) y 0%Q)
      by (now rewrite length_map).
    apply (map_nth (fun i => nth (Z.to_nat i) y 0%Q)).
Qed.

(** The boundary rows of a right-hand side are rewritten as a slice. *)
Lemma put_boundary rhs vals n :
  len vals = n -> n <= len rhs ->
  put rhs (arange 0 n) vals = Some (vals ++ skipn (length vals) rhs).
Proof.
  intros Hv Hn. subst n.
  change (arange 0 (len vals)) with (arange 0 (0 + len vals)).
  rewrite put_arange_Z by lia. reflexivity.
Qed.

Lemma Forall_in_range_len {A} N (arr : list A) idxs :
  len arr = N * N -> Forall (in_range N) idxs ->
  Forall (fun i => 0 <= i < len arr) idxs.
Proof. intros ->. exact (fun H => H). Qed.

Lemma len_zeros n : 0 <= n -> len (zeros n) = n.
Proof. intros H. unfold len, zeros. rewrite repeat_length. lia. Qed.

Section Closed.

Variable N : Z.
Variable sqrt3 : Q.
Variable exact_u : Q -> Q -> Q -> Q.
Hypothesis HN : valid_N N.

Lemma N_pos : 0 < N.
Proof. destruct HN. lia. Qed.

Lemma rect_stencil_rows : Forall (fun r => length r = 5%nat) (rect_stencil N).
Proof.
  unfold rect_stencil. apply Forall_map, Forall_forall. reflexivity.
Qed.

Lemma Forall_length_blocks (f : Z -> list (list Z)) a b c :
  (forall j, Forall (fun r => length r = c) (f j)) ->
  Forall (fun r : list Z => length r = c) (concat (map f (arange a b))).
Proof.
  intros H. apply Forall_concat, Forall_map, Forall_forall. intros j _. apply H.
Qed.

Lemma Forall_length_block row c idx n :
  (forall a, length (row a) = n) ->
  Forall (fun r : list Z => length r = n) (block row c idx).
Proof.
  intros H. unfold block. apply Forall_map, Forall_forall. intros a _.
  rewrite length_map. apply H.
Qed.

Lemma hex_stencil_r_rows : Forall (fun r => length r = 4%nat) (hex_stencil_r N).
Proof.
  rewrite hex_stencil_r_eq. apply Forall_length_blocks. intros j.
  apply Forall_app; split; apply Forall_length_block; reflexivity.
Qed.

Lemma hex_stencil_l_rows : Forall (fun r => length r = 4%nat) (hex_stencil_l N).
Proof.
  rewrite hex_stencil_l_eq. apply Forall_length_blocks. intros j.
  apply Forall_app; split; apply Forall_length_block; reflexivity.
Qed.

Lemma rect_nb_pos : 0 < rect_nb N.
Proof. unfold rect_nb. rewrite len_rect_bcs_all by exact HN. destruct HN. lia. Qed.

Lemma hex_nb_pos : 0 < hex_nb N.
Proof. unfold hex_nb. rewrite len_hex_bcs_all by exact HN. destruct HN. lia. Qed.

Ltac sizes := unfold rect_nb, hex_nb, N2, len in *; lia.

Lemma rect_assemble_eq :
  rect_assemble N exact_u = Some (rect_system N exact_u).
Proof.
  pose proof N_pos as HN0. pose proof rect_nb_pos as Hnb.
  pose proof (rect_rows_total N HN) as Htot.
  pose proof (len_rect_centr N HN) as Hc.
  assert (Hst : len (rect_stencil N) = len (rect_centr N)) by apply len_map.
  unfold rect_assemble.
  rewrite csr_identity_ok;
    [| apply rect_bcs_all_in_range, HN | sizes].
  fold (rect_nb N). cbn [obind]. rewrite item_last_arange by exact Hnb. cbn [obind].
  replace (1 + (rect_nb N - 1)) with (rect_nb N) by lia.
  rewrite <- Hc, <- Hst.
  rewrite (csr_bulk_ok (rect_nb N) (rect_stencil N) (rect_elmt_row N));
    [| apply rect_stencil_rows | apply rect_stencil_in_range, HN | sizes
     | sizes ].
  cbn [obind].
  rewrite (take_in_range (rect_x N) _ 0%Q)
    by (apply (Forall_in_range_len N);
        [apply length_rect_x, HN0 | apply rect_bcs_all_in_range, HN]).
  rewrite (take_in_range (rect_y N) _ 0%Q)
    by (apply (Forall_in_range_len N);
        [apply length_rect_y, HN0 | apply rect_bcs_all_in_range, HN]).
  cbn [obind]. fold (boundary_values exact_u 0 (rect_x N) (rect_y N) (rect_bcs_all N)).
  rewrite put_boundary.
  - cbn [obind]. rewrite arange_shift, Z.add_0_r, Hst. reflexivity.
  - unfold len. rewrite length_boundary_values. reflexivity.
  - rewrite len_zeros by (unfold N2; nia). sizes.
Qed.

Lemma hex_assemble_eq :
  hex_assemble N sqrt3 exact_u = Some (hex_system N sqrt3 exact_u).
Proof.
  pose proof N_pos as HN0. pose proof hex_nb_pos as Hnb.
  pose proof (hex_rows_total N HN) as Htot.
  pose proof (len_hex_stencil_r N HN) as Hr.
  pose proof (len_hex_stencil_l N HN) as Hl.
  assert (Hrpos : 0 < len (hex_stencil_r N)).
  { rewrite Hr. destruct (half_valid N HN) as (m & -> & Hm & _).
    replace (2 * m / 2) with m by (rewrite Z.mul_comm, Z.div_mul; lia). nia. }
  assert (Hlpos : 0 <= len (hex_stencil_l N)) by (unfold len; lia).
  unfold hex_assemble.
  rewrite csr_identity_ok;
    [| apply hex_bcs_all_in_range, HN | sizes].
  fold (hex_nb N). cbn [obind]. rewrite item_last_arange by exact Hnb. cbn [obind].
  replace (1 + (hex_nb N - 1)) with (hex_nb N) by lia.
  rewrite (csr_bulk_ok (hex_nb N) (hex_stencil_r N) (hex_elmt_r_row N));
    [| apply hex_stencil_r_rows | apply hex_stencil_r_in_range, HN | sizes
     | sizes ].
  cbn [obind]. rewrite item_last_bulk_rows by exact Hrpos. cbn [obind].
  replace (1 + (hex_nb N + (len (hex_stencil_r N) - 1)))
    with (hex_nb N + len (hex_stencil_r N)) by lia.
  rewrite (csr_bulk_ok (hex_nb N + len (hex_stencil_r N)) (hex_stencil_l N)
                       (hex_elmt_l_row N));
    [| apply hex_stencil_l_rows | apply hex_stencil_l_in_range, HN | sizes
     | sizes ].
  cbn [obind].
  rewrite (take_in_range (hex_x N) _ 0%Q)
    by (apply (Forall_in_range_len N);
        [apply length_hex_x, HN0 | apply hex_bcs_all_in_range, HN]).
  rewrite (take_in_range (hex_y N sqrt3) _ 0%Q)
    by (apply (Forall_in_range_len N);
        [apply length_hex_y, HN0 | apply hex_bcs_all_in_range, HN]).
  cbn [obind].
  fold (boundary_values exact_u 0 (hex_x N) (hex_y N sqrt3) (hex_bcs_all N)).
  rewrite put_boundary.
  - cbn [obind]. rewrite arange_shift, Z.add_0_r. reflexivity.
  - unfold len. rewrite length_boundary_values. reflexivity.
  - rewrite len_zeros by (unfold N2; nia). sizes.
Qed.

End Closed.

End AssemblyFacts.

Import AssemblyFacts.

(** ** The configuration check *)

Lemma check_N_valid N : check_N N = true <-> valid_N N.
Proof.
  unfold check_N, valid_N. rewrite andb_true_iff, Z.eqb_eq, Z.ltb_lt. tauto.
Qed.

(** C9: an odd N or an N not above 4 stops the notebook at the assertion of
    cell 5, before any cell has built anything; a valid N (6 is the smallest)
    passes the assertion and all cells up to the assembly complete. *)
Theorem C9_configuration_check (N : Z) (sqrt3 : Q) (exact_u : Q -> Q -> Q -> Q) :
  (N mod 2 <> 0 \/ N <= 4 ->
   notebook N sqrt3 exact_u = ([], Raised AssertionError))
  /\ (valid_N N ->
      notebook N sqrt3 exact_u
      = ([10; 9; 8; 7; 6; 5],
         Returned (cells_6_to_9 N sqrt3,
                   (rect_system N exact_u, hex_system N sqrt3 exact_u)))).
Proof.
  split.
  - intros H. unfold notebook, cell_5.
    replace (check_N N) with false; [reflexivity|].
    symmetry. apply not_true_is_false. rewrite check_N_valid.
    unfold valid_N. lia.
  - intros H. unfold notebook, cell_5, cell_10.
    rewrite (proj2 (check_N_valid N) H).
    now rewrite rect_assemble_eq, hex_assemble_eq.
Qed.

Lemma C9_configuration_check_witness :
  notebook 5 sqrt3_float heat_poly = ([], Raised AssertionError)
  /\ notebook 4 sqrt3_float heat_poly = ([], Raised AssertionError)
  /\ notebook 6 sqrt3_float heat_poly
     = ([10; 9; 8; 7; 6; 5],
        Returned (cells_6_to_9 6 sqrt3_float,
                  (rect_system 6 heat_poly, hex_system 6 sqrt3_float heat_poly))).
Proof.
  split; [|split].
  - apply (proj1 (C9_configuration_check 5 sqrt3_float heat_poly)). left.
    vm_compute. discriminate.
  - apply (proj1 (C9_configuration_check 4 sqrt3_float heat_poly)). right. lia.
  - apply (proj2 (C9_configuration_check 6 sqrt3_float heat_poly)).
    split; [reflexivity | lia].
Defined.

(** ** Dirichlet rows *)

Lemma nth_in_range N (bcs : list Z) k :
  Forall (in_range N) bcs -> (k < length bcs)%nat -> in_range N (nth k bcs 0).
Proof.
  intros H Hk. rewrite Forall_forall in H. apply H, nth_In, Hk.
Qed.

Lemma dirichlet_rows_closed N M bcs x y e t rest bulk :
  Forall (in_range N) bcs -> len x = N * N -> len y = N * N ->
  (forall k, 0 <= k < len bcs ->
             row_of M k = [(nth (Z.to_nat k) bcs 0, 1%Q)]) ->
  dirichlet_rows (mk_system M (boundary_values e t x y bcs ++ rest) bulk)
                 bcs x y e t.
Proof.
  intros Hb Hx Hy HM k Hk.
  assert (Hk' : (Z.to_nat k < length bcs)%nat) by (unfold len in Hk; lia).
  pose proof (nth_in_range N bcs _ Hb Hk') as Hnode. unfold in_range in Hnode.
  exists (nth (Z.to_nat k) bcs 0),
         (nth (Z.to_nat (nth (Z.to_nat k) bcs 0)) x 0%Q),
         (nth (Z.to_nat (nth (Z.to_nat k) bcs 0)) y 0%Q).
  repeat split.
  - apply item_nonneg, Hk.
  - apply item_nonneg. lia.
  - apply item_nonneg. lia.
  - apply HM, Hk.
  - cbn [sys_rhs]. rewrite (item_nonneg _ _ 0%Q).
    + rewrite app_nth1 by (rewrite length_boundary_values; exact Hk').
      now rewrite nth_boundary_values.
    + rewrite len_app. unfold len at 1. rewrite length_boundary_values.
      unfold len in *. lia.
Qed.

Lemma rect_M_boundary_row N k :
  0 <= k < len (rect_bcs_all N) ->
  row_of (rect_M N) k = [(nth (Z.to_nat k) (rect_bcs_all N) 0, 1%Q)].
Proof.
  intros H. unfold rect_M. rewrite row_of_app, row_of_identity by exact H.
  rewrite row_of_bulk_out by (unfold rect_nb; lia). reflexivity.
Qed.

Lemma hex_M_boundary_row N k :
  0 <= k < len (hex_bcs_all N) ->
  row_of (hex_M N) k = [(nth (Z.to_nat k) (hex_bcs_all N) 0, 1%Q)].
Proof.
  intros H. unfold hex_M. rewrite !row_of_app, row_of_identity by exact H.
  rewrite !row_of_bulk_out by (unfold hex_nb, len in *; lia). reflexivity.
Qed.

(** C7: for each mesh the assembly succeeds, row [k] of the matrix has a
    single stored entry, a one in the column of the [k]-th boundary node,
    and the initial right-hand side holds [exact_u] at [t = 0] at the
    coordinates of that node. *)
Theorem C7_dirichlet_rows (N : Z) (sqrt3 : Q) (exact_u : Q -> Q -> Q -> Q) :
  valid_N N ->
  (exists sys, rect_assemble N exact_u = Some sys
               /\ dirichlet_rows sys (rect_bcs_all N) (rect_x N) (rect_y N)
                                 exact_u 0)
  /\ (exists sys, hex_assemble N sqrt3 exact_u = Some sys
                  /\ dirichlet_rows sys (hex_bcs_all N) (hex_x N)
                                    (hex_y N sqrt3) exact_u 0).
Proof.
  intros H. assert (HN : 0 < N) by (destruct H; lia). split.
  - exists (rect_system N exact_u). split; [apply rect_assemble_eq, H|].
    apply (dirichlet_rows_closed N).
    + apply rect_bcs_all_in_range, H.
    + apply length_rect_x, HN.
    + apply length_rect_y, HN.
    + apply rect_M_boundary_row.
  - exists (hex_system N sqrt3 exact_u). split; [apply hex_assemble_eq, H|].
    apply (dirichlet_rows_closed N).
    + apply hex_bcs_all_in_range, H.
    + apply length_hex_x, HN.
    + apply length_hex_y, HN.
    + apply hex_M_boundary_row.
Qed.

Lemma C7_dirichlet_rows_witness :
  (exists sys, rect_assemble 6 heat_poly = Some sys
               /\ dirichlet_rows sys (rect_bcs_all 6) (rect_x 6) (rect_y 6)
                                 heat_poly 0)
  /\ (exists sys, hex_assemble 6 sqrt3_float heat_poly = Some sys
                  /\ dirichlet_rows sys (hex_bcs_all 6) (hex_x 6)
                                    (hex_y 6 sqrt3_float) heat_poly 0).
Proof.
  apply (C7_dirichlet_rows 6 sqrt3_float heat_poly).
  split; [reflexivity | lia].
Defined.

(** ** Stencil rows *)

Module Coefficients.

Local Open Scope Q_scope.

Lemma h_pos N : (0 < N)%Z -> 0 < h N.
Proof. exact (hhat_pos N). Qed.

Lemma h2_pos N : (0 < N)%Z -> 0 < h N ^ 2.
Proof.
  intros H. pose proof (h_pos N H). change (h N ^ 2) with (h N * h N).
  now apply Qmult_lt_0_compat.
Qed.

Lemma hex_elmt_r_row_is N c0 c1 c2 c3 :
  (0 < N)%Z ->
  row_is (combine [c0; c1; c2; c3] (hex_elmt_r_row N))
         [(c0, hex_off N); (c1, hex_diag N); (c2, hex_off N); (c3, hex_off N)].
Proof.
  intros H. pose proof (h2_pos N H).
  unfold row_is, hex_elmt_r_row, hex_off, hex_diag. cbn [combine].
  pose proof (h_pos N H). assert (0 < dt) by reflexivity.
  repeat (apply Forall2_cons;
          [split; [reflexivity | cbn [snd]; field; repeat split; lra] | ]).
  apply Forall2_nil.
Qed.

Lemma hex_elmt_l_row_is N c0 c1 c2 c3 :
  (0 < N)%Z ->
  row_is (combine [c0; c1; c2; c3] (hex_elmt_l_row N))
         [(c0, hex_off N); (c1, hex_off N); (c2, hex_diag N); (c3, hex_off N)].
Proof.
  intros H. pose proof (h2_pos N H).
  unfold row_is, hex_elmt_l_row, hex_off, hex_diag. cbn [combine].
  pose proof (h_pos N H). assert (0 < dt) by reflexivity.
  repeat (apply Forall2_cons;
          [split; [reflexivity | cbn [snd]; field; repeat split; lra] | ]).
  apply Forall2_nil.
Qed.

Lemma rect_elmt_row_is N c0 c1 c2 c3 c4 :
  (0 < N)%Z ->
  row_is (combine [c0; c1; c2; c3; c4] (rect_elmt_row N))
         [(c0, rect_off N); (c1, rect_off N); (c2, rect_diag N);
          (c3, rect_off N); (c4, rect_off N)].
Proof.
  intros H. pose proof (h2_pos N H).
  unfold row_is, rect_elmt_row, rect_off, rect_diag. cbn [combine].
  pose proof (h_pos N H). assert (0 < dt) by reflexivity.
  repeat (apply Forall2_cons;
          [split; [reflexivity | cbn [snd]; field; repeat split; lra] | ]).
  apply Forall2_nil.
Qed.

Lemma hex_off_pos N : (0 < N)%Z -> 0 < hex_off N.
Proof.
  intros H. pose proof (h2_pos N H). unfold hex_off.
  apply Qlt_shift_div_l; [lra|]. unfold mu. lra.
Qed.

Lemma hex_diag_neg N : (0 < N)%Z -> hex_diag N < 0.
Proof.
  intros H. pose proof (h2_pos N H). unfold hex_diag.
  assert (0 < 4 * mu / h N ^ 2).
  { apply Qlt_shift_div_l; [lra|]. unfold mu. lra. }
  assert (0 < 1 / dt) by (unfold dt; reflexivity).
  lra.
Qed.

Lemma rect_off_pos N : (0 < N)%Z -> 0 < rect_off N.
Proof.
  intros H. pose proof (h2_pos N H). unfold rect_off.
  apply Qlt_shift_div_l; [lra|]. unfold mu. lra.
Qed.

Lemma rect_diag_neg N : (0 < N)%Z -> rect_diag N < 0.
Proof.
  intros H. pose proof (h2_pos N H). unfold rect_diag.
  assert (0 < 4 * mu / h N ^ 2).
  { apply Qlt_shift_div_l; [lra|]. unfold mu. lra. }
  assert (0 < 1 / dt) by (unfold dt; reflexivity).
  lra.
Qed.

End Coefficients.

Import Coefficients.

Module Shapes.

Lemma shifted_r_row N a c : map (fun x => x + c) (r_row N a) = r_row N (a + c).
Proof.
  unfold r_row. cbn [map]. repeat (apply f_equal2; [lia|]). reflexivity.
Qed.

Lemma shifted_l_row N a c : map (fun x => x + c) (l_row N a) = l_row N (a + c).
Proof.
  unfold l_row. cbn [map]. repeat (apply f_equal2; [lia|]). reflexivity.
Qed.

Lemma Forall_shape_blocks (P : list Z -> Prop) (f : Z -> list (list Z)) a b :
  (forall j, Forall P (f j)) -> Forall P (concat (map f (arange a b))).
Proof.
  intros H. apply Forall_concat, Forall_map, Forall_forall. intros j _. apply H.
Qed.

Lemma hex_stencil_r_shape N :
  Forall (fun row => exists b, row = r_row N b) (hex_stencil_r N).
Proof.
  rewrite hex_stencil_r_eq. apply Forall_shape_blocks. intros j.
  apply Forall_app; split; apply Forall_map, Forall_forall; intros a _;
    rewrite shifted_r_row; eauto.
Qed.

Lemma hex_stencil_l_shape N :
  Forall (fun row => exists b, row = l_row N b) (hex_stencil_l N).
Proof.
  rewrite hex_stencil_l_eq. apply Forall_shape_blocks. intros j.
  apply Forall_app; split; apply Forall_map, Forall_forall; intros a _;
    rewrite shifted_l_row; eauto.
Qed.

Lemma NoDup_r_row N b : 1 < N -> NoDup (r_row N b).
Proof.
  intros H. unfold r_row.
  repeat constructor; cbn [In]; intros E; repeat destruct E as [E|E]; lia.
Qed.

Lemma NoDup_l_row N b : 1 < N -> NoDup (l_row N b).
Proof.
  intros H. unfold l_row.
  repeat constructor; cbn [In]; intros E; repeat destruct E as [E|E]; lia.
Qed.

Lemma nth_error_nth_Z {A} (l : list A) k d :
  0 <= k < len l -> nth_error l (Z.to_nat k) = Some (nth (Z.to_nat k) l d).
Proof. intros H. apply nth_error_nth'. unfold len in H. lia. Qed.

Lemma nth_In_Z {A} (l : list A) k d :
  0 <= k < len l -> In (nth (Z.to_nat k) l d) l.
Proof. intros H. apply nth_In. unfold len in H. lia. Qed.

End Shapes.

Import Shapes.

Lemma hex_M_r_row N k :
  valid_N N -> 0 <= k < len (hex_stencil_r N) ->
  row_of (hex_M N) (len (hex_bcs_all N) + k)
  = combine (nth (Z.to_nat k) (hex_stencil_r N) []) (hex_elmt_r_row N).
Proof.
  intros HN Hk. unfold hex_M, hex_nb.
  rewrite !row_of_app, row_of_identity_out by lia.
  rewrite (row_of_bulk _ _ _ k (nth (Z.to_nat k) (hex_stencil_r N) []));
    [| apply hex_stencil_r_rows | now apply nth_error_nth_Z | lia].
  rewrite row_of_bulk_out by lia. now rewrite app_nil_r.
Qed.

Lemma hex_M_l_row N k :
  valid_N N -> 0 <= k < len (hex_stencil_l N) ->
  row_of (hex_M N) (len (hex_bcs_all N) + len (hex_stencil_r N) + k)
  = combine (nth (Z.to_nat k) (hex_stencil_l N) []) (hex_elmt_l_row N).
Proof.
  intros HN Hk. unfold hex_M, hex_nb.
  rewrite !row_of_app, row_of_identity_out by (unfold len; lia).
  rewrite row_of_bulk_out by lia.
  rewrite (row_of_bulk _ _ _ k (nth (Z.to_nat k) (hex_stencil_l N) []));
    [| apply hex_stencil_l_rows | now apply nth_error_nth_Z | lia].
  reflexivity.
Qed.

(** C4: in the assembled hexagonal matrix every stencil row stores four
    coefficients in four different columns, three equal to 4 mu / (3 h^2)
    and one equal to -4 mu / h^2 - 1/dt; the latter is at position 1 of the
    stencil in every right-family row and at position 2 in every
    left-family row. *)
Theorem C4_hex_stencil_rows (N : Z) (sqrt3 : Q) (exact_u : Q -> Q -> Q -> Q) :
  valid_N N ->
  exists sys,
    hex_assemble N sqrt3 exact_u = Some sys
    /\ (forall k, 0 <= k < len (hex_stencil_r N) ->
          exists c0 c1 c2 c3,
            nth (Z.to_nat k) (hex_stencil_r N) [] = [c0; c1; c2; c3]
            /\ NoDup [c0; c1; c2; c3]
            /\ row_is (row_of (sys_M sys) (len (hex_bcs_all N) + k))
                      [(c0, hex_off N); (c1, hex_diag N);
                       (c2, hex_off N); (c3, hex_off N)])
    /\ (forall k, 0 <= k < len (hex_stencil_l N) ->
          exists c0 c1 c2 c3,
            nth (Z.to_nat k) (hex_stencil_l N) [] = [c0; c1; c2; c3]
            /\ NoDup [c0; c1; c2; c3]
            /\ row_is (row_of (sys_M sys)
                              (len (hex_bcs_all N) + len (hex_stencil_r N) + k))
                      [(c0, hex_off N); (c1, hex_off N);
                       (c2, hex_diag N); (c3, hex_off N)])
    /\ ~ (hex_off N == hex_diag N)%Q.
Proof.
  intros HN. assert (H0 : 0 < N) by (destruct HN; lia).
  assert (H4 : 4 < N) by (destruct HN; lia).
  exists (hex_system N sqrt3 exact_u).
  split; [apply hex_assemble_eq, HN|]. cbn [sys_M hex_system].
  split; [|split].
  - intros k Hk.
    pose proof (hex_stencil_r_shape N) as Hs. rewrite Forall_forall in Hs.
    destruct (Hs _ (nth_In_Z (hex_stencil_r N) k [] Hk)) as (b & Hb).
    exists (1 + N + b), (1 + 2 * N + b), (2 + 2 * N + b), (3 * N + 1 + b).
    split; [exact Hb|]. split; [apply (NoDup_r_row N b); lia|].
    rewrite hex_M_r_row, Hb by assumption.
    apply hex_elmt_r_row_is, H0.
  - intros k Hk.
    pose proof (hex_stencil_l_shape N) as Hs. rewrite Forall_forall in Hs.
    destruct (Hs _ (nth_In_Z (hex_stencil_l N) k [] Hk)) as (b & Hb).
    exists (N + b), (-1 + 2 * N + b), (2 * N + b), (3 * N + b).
    split; [exact Hb|]. split; [apply (NoDup_l_row N b); lia|].
    rewrite hex_M_l_row, Hb by assumption.
    apply hex_elmt_l_row_is, H0.
  - pose proof (hex_off_pos N H0). pose proof (hex_diag_neg N H0).
    intros E. rewrite E in H. apply (Qlt_irrefl (hex_diag N)).
    now apply Qlt_trans with 0%Q.
Qed.

Lemma C4_hex_stencil_rows_witness :
  exists sys,
    hex_assemble 6 sqrt3_float heat_poly = Some sys
    /\ row_is (row_of (sys_M sys) 30)
              [(14, hex_off 6); (20, hex_diag 6); (21, hex_off 6); (26, hex_off 6)]
    /\ row_is (row_of (sys_M sys) 34)
              [(13, hex_off 6); (18, hex_off 6); (19, hex_diag 6); (25, hex_off 6)].
Proof.
  destruct (C4_hex_stencil_rows 6 sqrt3_float heat_poly)
    as (sys & Hsys & Hr & Hl & _); [split; [reflexivity | lia]|].
  exists sys. split; [exact Hsys|]. split.
  - destruct (Hr 2) as (c0 & c1 & c2 & c3 & Hrow & _ & Hcoef).
    + assert (E : len (hex_stencil_r 6) = 4) by reflexivity. rewrite E. lia.
    + vm_compute in Hrow. injection Hrow as <- <- <- <-. exact Hcoef.
  - destruct (Hl 2) as (c0 & c1 & c2 & c3 & Hrow & _ & Hcoef).
    + assert (E : len (hex_stencil_l 6) = 4) by reflexivity. rewrite E. lia.
    + vm_compute in Hrow. injection Hrow as <- <- <- <-. exact Hcoef.
Defined.

(** ** The rectangular stencil of a given interior node *)

Lemma nth_blocks {A} (f : Z -> list A) (w : nat) a b i j d :
  (forall x, length (f x) = w) -> 0 <= i < b - a -> (j < w)%nat ->
  nth (Z.to_nat i * w + j) (concat (map f (arange a b))) d = nth j (f (a + i)) d.
Proof.
  intros Hw Hi Hj. remember (Z.to_nat i) as n eqn:En.
  revert a i En Hi. induction n as [|n IH]; intros a i En Hi.
  - rewrite arange_cons by lia. cbn [map concat].
    rewrite app_nth1 by (rewrite Hw; lia).
    f_equal. f_equal. lia.
  - rewrite arange_cons by lia. cbn [map concat].
    rewrite app_nth2 by (rewrite Hw; lia). rewrite Hw.
    replace (S n * w + j - w)%nat with (n * w + j)%nat by lia.
    rewrite (IH (a + 1) (i - 1)) by lia. f_equal. f_equal. lia.
Qed.

Lemma nth_rect_centr N a b :
  0 <= a < N - 2 -> 0 <= b < N - 2 ->
  nth (Z.to_nat (a * (N - 2) + b)) (rect_centr N) 0 = (a + 1) * N + (b + 1).
Proof.
  intros Ha Hb. unfold rect_centr, hstack, on_grid.
  replace (Z.to_nat (a * (N - 2) + b))
    with (Z.to_nat a * Z.to_nat (N - 2) + Z.to_nat b)%nat by nia.
  rewrite (nth_blocks _ (Z.to_nat (N - 2)));
    [| intros x; rewrite length_map, arange_length; f_equal; lia | lia | lia].
  rewrite nth_map_arange by lia. lia.
Qed.

Lemma nth_map_in {A B} (f : A -> B) l k d d' :
  (k < length l)%nat -> nth k (map f l) d = f (nth k l d').
Proof.
  intros H. rewrite nth_indep with (d' := f d') by (now rewrite length_map).
  apply map_nth.
Qed.

Lemma nth_rect_stencil N k :
  0 <= k < len (rect_centr N) ->
  nth (Z.to_nat k) (rect_stencil N) []
  = let c := nth (Z.to_nat k) (rect_centr N) 0 in [c - N; c - 1; c; c + 1; c + N].
Proof.
  intros H. unfold rect_stencil.
  apply (nth_map_in (fun c => [c - N; c - 1; c; c + 1; c + N])).
  unfold len in H. lia.
Qed.

Lemma rect_M_stencil_row N k :
  valid_N N -> 0 <= k < len (rect_stencil N) ->
  row_of (rect_M N) (len (rect_bcs_all N) + k)
  = combine (nth (Z.to_nat k) (rect_stencil N) []) (rect_elmt_row N).
Proof.
  intros HN Hk. unfold rect_M, rect_nb.
  rewrite !row_of_app, row_of_identity_out by lia.
  rewrite (row_of_bulk _ _ _ k (nth (Z.to_nat k) (rect_stencil N) []));
    [| apply rect_stencil_rows | now apply nth_error_nth_Z | lia].
  reflexivity.
Qed.

(** C5: in the assembled rectangular matrix every interior node
    [c = j*N + i], [1 <= i, j <= N-2], has exactly one stencil row; its
    columns are [c-N, c-1, c, c+1, c+N], with mu/h^2 at the four neighbours
    and -1/dt - 4 mu/h^2 at [c], where [h = 1/N]. *)
Theorem C5_rect_stencil_rows (N : Z) (exact_u : Q -> Q -> Q -> Q) :
  valid_N N ->
  exists sys,
    rect_assemble N exact_u = Some sys
    /\ (h N == 1 / inject_Z N)%Q
    /\ forall i j, 1 <= i <= N - 2 -> 1 <= j <= N - 2 ->
         let c := j * N + i in
         exists k,
           0 <= k < len (rect_stencil N)
           /\ nth (Z.to_nat k) (rect_stencil N) []
              = [c - N; c - 1; c; c + 1; c + N]
           /\ (forall k', 0 <= k' < len (rect_stencil N) ->
                 nth (Z.to_nat k') (rect_stencil N) []
                 = [c - N; c - 1; c; c + 1; c + N] -> k' = k)
           /\ NoDup [c - N; c - 1; c; c + 1; c + N]
           /\ row_is (row_of (sys_M sys) (len (rect_bcs_all N) + k))
                     [(c - N, rect_off N); (c - 1, rect_off N);
                      (c, rect_diag N);
                      (c + 1, rect_off N); (c + N, rect_off N)].
Proof.
  intros HN. assert (H4 : 4 < N) by (destruct HN; lia).
  pose proof (len_rect_centr N HN) as Hc.
  assert (Hst : len (rect_stencil N) = len (rect_centr N)) by apply len_map.
  exists (rect_system N exact_u).
  split; [apply rect_assemble_eq, HN|]. split; [reflexivity|].
  intros i j Hi Hj c.
  change (sys_M (rect_system N exact_u)) with (rect_M N).
  assert (Hk : 0 <= (j - 1) * (N - 2) + (i - 1) < len (rect_stencil N)).
  { rewrite Hst, Hc. nia. }
  assert (Hrow : nth (Z.to_nat ((j - 1) * (N - 2) + (i - 1))) (rect_stencil N) []
                 = [c - N; c - 1; c; c + 1; c + N]).
  { rewrite nth_rect_stencil by (rewrite <- Hst; exact Hk). cbn zeta.
    rewrite nth_rect_centr by lia.
    replace ((j - 1 + 1) * N + (i - 1 + 1)) with c by (unfold c; lia).
    reflexivity. }
  exists ((j - 1) * (N - 2) + (i - 1)).
  split; [exact Hk|]. split; [exact Hrow|]. split; [|split].
  - intros k' Hk' Hrow'.
    rewrite nth_rect_stencil in Hrow' by (rewrite <- Hst; exact Hk').
    cbn zeta in Hrow'.
    assert (Ek : k' = (k' / (N - 2)) * (N - 2) + k' mod (N - 2)).
    { rewrite (Z.div_mod k' (N - 2)) at 1 by lia. lia. }
    assert (Hq : 0 <= k' / (N - 2) < N - 2).
    { split; [apply Z.div_pos; lia|].
      apply Z.div_lt_upper_bound; [lia|]. rewrite Hst, Hc in Hk'. lia. }
    assert (Hm : 0 <= k' mod (N - 2) < N - 2) by (apply Z.mod_pos_bound; lia).
    rewrite Ek, nth_rect_centr in Hrow' by assumption.
    injection Hrow' as _ _ E _ _. unfold c in E.
    assert (k' / (N - 2) + 1 = j) by nia.
    rewrite Ek. nia.
  - unfold c. repeat constructor; cbn [In]; intros E;
      repeat destruct E as [E|E]; nia.
  - rewrite rect_M_stencil_row, Hrow by assumption.
    apply rect_elmt_row_is. lia.
Qed.

Lemma C5_rect_stencil_rows_witness :
  exists sys,
    rect_assemble 6 heat_poly = Some sys
    /\ row_is (row_of (sys_M sys) 26)
              [(9, rect_off 6); (14, rect_off 6); (15, rect_diag 6);
               (16, rect_off 6); (21, rect_off 6)].
Proof.
  destruct (C5_rect_stencil_rows 6 heat_poly) as (sys & Hsys & _ & Hrows);
    [split; [reflexivity | lia]|].
  exists sys. split; [exact Hsys|].
  destruct (Hrows 3 2) as (k & Hk & Hrow & Huniq & _ & Hcoef); [lia | lia |].
  assert (E : k = 6).
  { symmetry. apply Huniq; [|reflexivity].
    assert (E : len (rect_stencil 6) = 16) by reflexivity. rewrite E. lia. }
  rewrite E in Hcoef. exact Hcoef.
Defined.

(** ** Index safety *)

Module Safety.

Lemma Forall_column (P : Z -> Prop) p rows :
  Forall (Forall P) rows -> Forall (fun r => (p < length r)%nat) rows ->
  Forall P (column p rows).
Proof.
  intros HP Hl. unfold column. apply Forall_map.
  rewrite Forall_forall in *. intros r Hr.
  specialize (HP r Hr). rewrite Forall_forall in HP.
  apply HP, nth_In, Hl, Hr.
Qed.

Lemma hex_centr_in_range N : valid_N N -> Forall (in_range N) (hex_centr N).
Proof.
  intros H. unfold hex_centr. apply Forall_app. split; apply Forall_column.
  - apply hex_stencil_r_in_range, H.
  - eapply Forall_impl; [|apply hex_stencil_r_rows]. cbn. intros r ->. lia.
  - apply hex_stencil_l_in_range, H.
  - eapply Forall_impl; [|apply hex_stencil_l_rows]. cbn. intros r ->. lia.
Qed.

Lemma rect_centr_in_range N : valid_N N -> Forall (in_range N) (rect_centr N).
Proof.
  intros [_ H]. apply Forall_forall. intros c Hc. apply In_rect_centr in Hc.
  destruct Hc as (i & j & Hi & Hj & ->). unfold in_range. nia.
Qed.

Lemma Forall_sides (P : Z -> Prop) a b c d :
  Forall P (a ++ b ++ rev c ++ rev d) ->
  Forall P a /\ Forall P b /\ Forall P c /\ Forall P d.
Proof.
  rewrite !Forall_forall. intros H.
  repeat split; intros x Hx; apply H; rewrite !in_app_iff, <- !in_rev; auto.
Qed.

Lemma artifacts_in_range N :
  valid_N N -> Forall (Forall (in_range N)) (artifacts N).
Proof.
  intros H. unfold artifacts.
  destruct (Forall_sides _ _ _ _ _ (hex_bcs_all_in_range N H)) as (? & ? & ? & ?).
  destruct (Forall_sides _ _ _ _ _ (rect_bcs_all_in_range N H)) as (? & ? & ? & ?).
  repeat (apply Forall_app; split).
  - repeat constructor; auto.
    + apply hex_bcs_all_in_range, H.
    + apply hex_centr_in_range, H.
    + apply rect_bcs_all_in_range, H.
    + apply rect_centr_in_range, H.
  - apply rect_stencil_in_range, H.
  - apply hex_stencil_r_in_range, H.
  - apply hex_stencil_l_in_range, H.
  - apply hex_polys_in_range, H.
  - apply rect_polys_in_range, H.
Qed.

End Safety.

Import Safety.

(** C10: for every valid N every index stored in a connectivity array (the
    boundary lists, the centre lists, the rectangular stencils, both
    hexagonal stencil families and the polygon lists) lies in [0, N^2), so
    indexing an array with one entry per node by any of them raises no
    [IndexError]. *)
Theorem C10_indices_in_range (N : Z) :
  valid_N N ->
  Forall (Forall (in_range N)) (artifacts N)
  /\ forall (A : Type) (arr : list A),
       len arr = N * N ->
       Forall (fun idxs => exists vs, take arr idxs = Some vs
                                      /\ length vs = length idxs)
              (artifacts N).
Proof.
  intros H. pose proof (artifacts_in_range N H) as Hr. split; [exact Hr|].
  intros A arr Hlen. eapply Forall_impl; [|exact Hr].
  intros idxs Hi. destruct arr as [|d arr].
  - exfalso. unfold len in Hlen. cbn in Hlen. destruct H. nia.
  - exists (map (fun i => nth (Z.to_nat i) (d :: arr) d) idxs). split.
    + apply take_in_range. now apply (Forall_in_range_len N).
    + apply length_map.
Qed.

Lemma C10_indices_in_range_witness :
  Forall (Forall (in_range 6)) (artifacts 6)
  /\ forall (A : Type) (arr : list A),
       len arr = 6 * 6 ->
       Forall (fun idxs => exists vs, take arr idxs = Some vs
                                      /\ length vs = length idxs)
              (artifacts 6).
Proof. apply (C10_indices_in_range 6). split; [reflexivity | lia]. Defined.

(** ** Boundary nodes and stencil centres *)

Module Partition.

Lemma memb_In x l : memb x l = true <-> In x l.
Proof.
  unfold memb. rewrite existsb_exists. split.
  - intros (y & Hy & E). apply Z.eqb_eq in E. now subst.
  - intros H. exists x. split; [exact H | apply Z.eqb_refl].
Qed.

Lemma not_memb_In x l : memb x l = false <-> ~ In x l.
Proof.
  rewrite <- memb_In. destruct (memb x l); split; congruence.
Qed.

(** A list that covers [0, n) with [n] entries has no repetition. *)
Lemma cover_NoDup (l : list Z) n :
  len l = n -> (forall x, 0 <= x < n -> In x l) -> NoDup l.
Proof.
  intros Hl Hc. apply NoDup_incl_NoDup with (l := arange 0 n).
  - apply NoDup_arange.
  - rewrite arange_length. unfold len in Hl. lia.
  - intros x Hx. apply In_arange in Hx. auto.
Qed.

Lemma NoDup_app_disjoint {A} (l1 l2 : list A) x :
  NoDup (l1 ++ l2) -> In x l1 -> In x l2 -> False.
Proof.
  induction l1 as [|y l1 IH]; cbn; [tauto|].
  intros Hnd [->|H1] H2; inversion Hnd as [|? ? Hy Hnd']; subst.
  - apply Hy, in_or_app. now right.
  - now apply IH.
Qed.

(** The rectangular mesh: boundary list and centres partition the nodes. *)
Lemma rect_partition N : valid_N N -> partitions N (rect_bcs_all N) (rect_centr N).
Proof.
  intros HN. assert (H4 : 4 < N) by (destruct HN; lia).
  assert (Hcover : forall x, 0 <= x < N * N ->
                             In x (rect_bcs_all N ++ rect_centr N)).
  { intros x Hx.
    assert (Ex : x = (x / N) * N + x mod N).
    { rewrite (Z.div_mod x N) at 1 by lia. lia. }
    assert (Hq : 0 <= x / N < N).
    { split; [apply Z.div_pos; lia | apply Z.div_lt_upper_bound; lia]. }
    assert (Hm : 0 <= x mod N < N) by (apply Z.mod_pos_bound; lia).
    unfold rect_bcs_all, rect_bcs_bottom, rect_bcs_right, rect_bcs_top,
      rect_bcs_left.
    rewrite !in_app_iff, <- !in_rev, !in_map_iff, In_rect_centr.
    destruct (Z.eq_dec (x / N) 0) as [E0|E0].
    { left. left. apply In_arange. nia. }
    destruct (Z.eq_dec (x / N) (N - 1)) as [E1|E1].
    { left. right. right. left. exists (x mod N).
      split; [nia | apply In_arange; lia]. }
    destruct (Z.eq_dec (x mod N) 0) as [E2|E2].
    { left. right. right. right. exists (x / N).
      split; [nia | apply In_arange; lia]. }
    destruct (Z.eq_dec (x mod N) (N - 1)) as [E3|E3].
    { left. right. left. exists (x / N). split; [nia | apply In_arange; lia]. }
    right. exists (x mod N), (x / N).
    repeat split; lia. }
  split.
  - apply (cover_NoDup _ (N * N)); [|exact Hcover].
    rewrite len_app. apply rect_rows_total, HN.
  - intros x. split; [|apply Hcover].
    pose proof (rect_bcs_all_in_range N HN) as Hb.
    pose proof (rect_centr_in_range N HN) as Hc.
    rewrite Forall_forall in Hb, Hc. rewrite in_app_iff. intros [H|H]; auto.
Qed.

(** The hexagonal mesh: for every valid N the centre list of the notebook
    contains the right-edge node of row 3, which the boundary list contains
    as well. *)
Lemma hex_centr_meets_boundary N :
  valid_N N -> In (4 * N - 1) (hex_bcs_all N) /\ In (4 * N - 1) (hex_centr N).
Proof.
  intros HN. split.
  - unfold hex_bcs_all, hex_bcs_right. rewrite !in_app_iff. right. left.
    apply in_map_iff. exists 3. split; [lia|]. apply In_arange.
    destruct HN. lia.
  - unfold hex_centr, column. apply in_or_app. left.
    apply in_map_iff.
    exists (map (fun x => x + ((2 * 0 + 1) * N - 1)) (r_row N (N - 2))).
    split; [unfold r_row; cbn [map nth]; lia|].
    rewrite hex_stencil_r_eq.
    destruct (half_valid N HN) as (m & -> & Hm & ->).
    apply in_concat.
    exists (block (r_row (2 * m)) (2 * 0 * (2 * m)) (removelast (evens (2 * m)))
            ++ block (r_row (2 * m)) ((2 * 0 + 1) * (2 * m) - 1)
                     (tl (evens (2 * m)))).
    split.
    + apply in_map_iff. exists 0. split; [reflexivity|]. apply In_arange. lia.
    + apply in_or_app. right. unfold block. apply in_map_iff.
      exists (2 * m - 2). split; [reflexivity|].
      rewrite evens_eq, tl_map, tl_arange by lia.
      apply in_map_iff. exists (m - 1). split; [lia|]. apply In_arange. lia.
Qed.

(** So for no valid N do the two lists of the hexagonal mesh partition the
    nodes: one node is in both, and, the lengths adding up to N^2, some node
    is in neither. *)
Lemma hex_partition_broken N :
  valid_N N ->
  ~ NoDup (hex_bcs_all N ++ hex_centr N)
  /\ ~ (forall x, in_range N x -> In x (hex_bcs_all N ++ hex_centr N)).
Proof.
  intros HN. destruct (hex_centr_meets_boundary N HN) as [Hb Hc].
  assert (Hnd : ~ NoDup (hex_bcs_all N ++ hex_centr N)).
  { intros Hnd. exact (NoDup_app_disjoint _ _ _ Hnd Hb Hc). }
  split; [exact Hnd|]. intros Hcover. apply Hnd.
  apply (cover_NoDup _ (N * N)); [|exact Hcover].
  rewrite len_app, len_hex_centr, len_hex_bcs_all by exact HN.
  destruct (half_valid N HN) as (m & -> & Hm & _).
  replace (2 * m / 2) with m by (rewrite Z.mul_comm, Z.div_mul; lia). lia.
Qed.

End Partition.

Import Partition.

(** C1, at N = 6 and at the N = 24 of the notebook: the boundary list and
    the centre list of the hexagonal mesh do not partition the node
    indices.  Node 23 (for N = 24, node 95) is in both lists, and node 19
    (for N = 24, node 73), an index below N^2, is in neither. *)
Theorem C1_hex_partition_fails :
  (In 23 (hex_bcs_all 6) /\ In 23 (hex_centr 6)
   /\ in_range 6 19 /\ ~ In 19 (hex_bcs_all 6 ++ hex_centr 6))
  /\ (In 95 (hex_bcs_all 24) /\ In 95 (hex_centr 24)
      /\ in_range 24 73 /\ ~ In 73 (hex_bcs_all 24 ++ hex_centr 24))
  /\ ~ partitions 6 (hex_bcs_all 6) (hex_centr 6)
  /\ ~ partitions 24 (hex_bcs_all 24) (hex_centr 24).
Proof.
  assert (H6 : In 23 (hex_bcs_all 6) /\ In 23 (hex_centr 6)
               /\ in_range 6 19 /\ ~ In 19 (hex_bcs_all 6 ++ hex_centr 6)).
  { rewrite <- not_memb_In, <- !memb_In. unfold in_range.
    repeat split; try reflexivity; lia. }
  assert (H24 : In 95 (hex_bcs_all 24) /\ In 95 (hex_centr 24)
                /\ in_range 24 73 /\ ~ In 73 (hex_bcs_all 24 ++ hex_centr 24)).
  { rewrite <- not_memb_In, <- !memb_In. unfold in_range.
    repeat split; try (vm_compute; reflexivity); lia. }
  split; [exact H6|]. split; [exact H24|]. split.
  - intros [_ Hc]. destruct H6 as (_ & _ & Hr & Hn). apply Hn, Hc, Hr.
  - intros [_ Hc]. destruct H24 as (_ & _ & Hr & Hn). apply Hn, Hc, Hr.
Qed.

(** ** Counting the hexagonal stencils *)

(** For every valid N both families have (N/2 - 2) * (N - 2) stencils. *)
Lemma hex_stencil_counts N :
  valid_N N ->
  len (hex_stencil_r N) = len (hex_stencil_l N)
  /\ len (hex_stencil_r N) = (N / 2 - 2) * (N - 2).
Proof.
  intros H. rewrite len_hex_stencil_r, len_hex_stencil_l by exact H. auto.
Qed.

(** C2 as stated fails: for N = 8 the families have 12 stencils each, and
    (N/2 - 2) * (N - 1) is 14. *)
Lemma C2_counterexample :
  ~ (len (hex_stencil_r 8) = len (hex_stencil_l 8)
     /\ len (hex_stencil_r 8) = (8 / 2 - 2) * (8 - 1)
     /\ union_size (column 2 (hex_stencil_r 8)) (column 1 (hex_stencil_l 8))
        + len (hex_bcs_all 8) = 64).
Proof. intros (_ & H & _). vm_compute in H. discriminate H. Qed.

(** C2, amended: for N = 8 the right family and the left family have as
    many stencils, (N/2 - 2) * (N - 2) = 12 each; the centres that cell 8
    takes from them ([hex_centr]: position 2 of the right stencils, position
    1 of the left ones) are 24 different nodes, and with the 40 entries of
    the boundary list this makes 64.  The same count holds for the nodes
    that carry the diagonal coefficient (position 1 right, position 2
    left). *)
Theorem C2_hex_counts_N8 :
  len (hex_stencil_r 8) = len (hex_stencil_l 8)
  /\ len (hex_stencil_r 8) = (8 / 2 - 2) * (8 - 2)
  /\ len (hex_stencil_r 8) = 12
  /\ hex_centr 8 = column 2 (hex_stencil_r 8) ++ column 1 (hex_stencil_l 8)
  /\ union_size (column 2 (hex_stencil_r 8)) (column 1 (hex_stencil_l 8)) = 24
  /\ len (hex_bcs_all 8) = 40
  /\ union_size (column 2 (hex_stencil_r 8)) (column 1 (hex_stencil_l 8))
     + len (hex_bcs_all 8) = 64
  /\ union_size (column 1 (hex_stencil_r 8)) (column 2 (hex_stencil_l 8))
     + len (hex_bcs_all 8) = 64.
Proof.
  assert (H8 : valid_N 8) by (split; [reflexivity | lia]).
  destruct (hex_stencil_counts 8 H8) as [E1 E2].
  split; [exact E1|]. split; [exact E2|].
  repeat split; vm_compute; reflexivity.
Qed.

(** ** One time step *)

Module StepFacts.

Lemma obind_some {A B} (o : option A) (k : A -> option B) b :
  obind o k = Some b -> exists a, o = Some a /\ k a = Some b.
Proof. destruct o as [a|]; cbn; [eauto | discriminate]. Qed.

Lemma norm_index_nonneg_inv n i k :
  0 <= i -> norm_index n i = Some k -> i < Z.of_nat n /\ k = Z.to_nat i.
Proof.
  intros Hi. unfold norm_index.
  destruct (Z.leb_spec 0 i); [|lia].
  destruct (Z.ltb_spec i (Z.of_nat n)); cbn [andb].
  - intros [= <-]. auto.
  - destruct (Z.ltb_spec i 0); [lia|].
    rewrite andb_false_r. discriminate.
Qed.

(** A successful write of consecutive positions replaced that slice. *)
Lemma put_arange_inv arr vals a r :
  put arr (arange (Z.of_nat a) (Z.of_nat a + len vals)) vals = Some r ->
  r = firstn a arr ++ vals ++ skipn (a + length vals) arr.
Proof.
  revert arr a. induction vals as [|v vals IH]; intros arr a.
  - unfold len. cbn [length]. rewrite arange_nil by lia. cbn [put app].
    intros [= <-]. now rewrite Nat.add_0_r, firstn_skipn.
  - unfold len in *. cbn [length].
    rewrite arange_cons by lia. cbn [put].
    destruct (norm_index (length arr) (Z.of_nat a)) as [k|] eqn:Ek;
      [|discriminate].
    apply norm_index_nonneg_inv in Ek; [|lia]. destruct Ek as [Ha ->].
    rewrite Nat2Z.id.
    replace (Z.of_nat a + 1) with (Z.of_nat (S a)) by lia.
    replace (Z.of_nat a + Z.of_nat (S (length vals)))
      with (Z.of_nat (S a) + Z.of_nat (length vals)) by lia.
    intros H. apply IH in H. rewrite H.
    rewrite firstn_update by lia. rewrite skipn_update by lia.
    rewrite <- app_assoc. cbn [app].
    now replace (S a + length vals)%nat with (a + S (length vals))%nat by lia.
Qed.

Lemma take_length {A} (arr : list A) idxs vs :
  take arr idxs = Some vs -> length vs = length idxs.
Proof.
  revert vs. induction idxs as [|i idxs IH]; intros vs; cbn [take].
  - now intros [= <-].
  - destruct (item arr i); [|discriminate].
    destruct (take arr idxs) as [vs'|]; [|discriminate].
    intros [= <-]. cbn. f_equal. now apply IH.
Qed.

Lemma row_dot_single m u r c :
  row_of m r = [(c, 1%Q)] -> (row_dot m u r == nth (Z.to_nat c) u 0)%Q.
Proof. intros H. unfold row_dot. rewrite H. cbn. ring. Qed.

(** What one mesh goes through in a step, and what comes out at its
    boundary nodes: the values that were written into the boundary rows. *)
Lemma boundary_after_step (n : Z) (m : matrix) (bcs centr : list Z)
      (x y : list Q) (e : Q -> Q -> Q -> Q) (t : Q)
      (rhs rhs1 rhs2 u uc u' : list Q) :
  (forall k, 0 <= k < len bcs ->
             row_of m k = [(nth (Z.to_nat k) bcs 0, 1%Q)]) ->
  len bcs <= n ->
  put rhs (arange 0 (len bcs)) (boundary_values e t x y bcs) = Some rhs1 ->
  take u centr = Some uc ->
  put rhs1 (arange (len bcs) (len bcs + len centr))
      (map (fun v => - v / dt)%Q uc) = Some rhs2 ->
  spsolve n m rhs2 u' ->
  len u' = n
  /\ forall k, 0 <= k < len bcs ->
       let node := Z.to_nat (nth (Z.to_nat k) bcs 0) in
       (nth node u' 0 == e t (nth node x 0) (nth node y 0))%Q.
Proof.
  intros Hrows Hn H1 Hu H2 [Hlen Hsolve].
  set (vals := boundary_values e t x y bcs) in *.
  assert (Hvals : length vals = length bcs) by apply length_boundary_values.
  change (arange 0 (len bcs)) with (arange (Z.of_nat 0) (len bcs)) in H1.
  replace (len bcs) with (Z.of_nat 0 + len vals) in H1 at 1
    by (unfold len; rewrite Hvals; lia).
  apply put_arange_inv in H1. cbn [firstn app Nat.add] in H1.
  apply take_length in Hu.
  replace (arange (len bcs) (len bcs + len centr))
    with (arange (Z.of_nat (length bcs))
                 (Z.of_nat (length bcs)
                  + len (map (fun v => (- v / dt)%Q) uc))) in H2
    by (unfold len; now rewrite length_map, Hu).
  apply put_arange_inv in H2.
  split; [unfold len in *; lia|].
  intros k Hk node.
  assert (Hk' : (Z.to_nat k < length bcs)%nat) by (unfold len in Hk; lia).
  apply Qeq_trans with (row_dot m u' k);
    [symmetry; apply row_dot_single, Hrows, Hk|].
  apply Qeq_trans with (nth (Z.to_nat k) rhs2 0%Q); [apply Hsolve; lia|].
  rewrite H2, H1.
  rewrite firstn_app, <- Hvals, firstn_all, Nat.sub_diag, firstn_O, app_nil_r.
  rewrite app_nth1 by lia.
  unfold vals, node. rewrite nth_boundary_values by exact Hk'. reflexivity.
Qed.

End StepFacts.

Import StepFacts.

Lemma drawstep_boundary N sqrt3 e st st' :
  valid_N N ->
  drawstep N sqrt3 e (rect_system N e) (hex_system N sqrt3 e) st st' ->
  time st' = (time st + dt)%Q
  /\ len (rect_u st') = N * N /\ len (hex_u st') = N * N
  /\ (forall k, 0 <= k < len (rect_bcs_all N) ->
        let node := Z.to_nat (nth (Z.to_nat k) (rect_bcs_all N) 0) in
        (nth node (rect_u st') 0
         == e (time st) (nth node (rect_x N) 0) (nth node (rect_y N) 0))%Q)
  /\ (forall k, 0 <= k < len (hex_bcs_all N) ->
        let node := Z.to_nat (nth (Z.to_nat k) (hex_bcs_all N) 0) in
        (nth node (hex_u st') 0
         == e (time st) (nth node (hex_x N) 0) (nth node (hex_y N sqrt3) 0))%Q).
Proof.
  intros HN Hstep. assert (H0 : 0 < N) by (destruct HN; lia).
  destruct Hstep as [r2 h2 ru hu Hrhs Hsr Hsh]. unfold step_rhs in Hrhs.
  rewrite (take_in_range (rect_x N) _ 0%Q), (take_in_range (rect_y N) _ 0%Q)
    in Hrhs
    by (apply (Forall_in_range_len N);
        [apply length_rect_x, H0 || apply length_rect_y, H0
        | apply rect_bcs_all_in_range, HN]).
  cbn [obind] in Hrhs.
  apply obind_some in Hrhs. destruct Hrhs as (r1 & Hr1 & Hrhs).
  rewrite (take_in_range (hex_x N) _ 0%Q), (take_in_range (hex_y N sqrt3) _ 0%Q)
    in Hrhs
    by (apply (Forall_in_range_len N);
        [apply length_hex_x, H0 || apply length_hex_y, H0
        | apply hex_bcs_all_in_range, HN]).
  cbn [obind] in Hrhs.
  apply obind_some in Hrhs. destruct Hrhs as (h1 & Hh1 & Hrhs).
  apply obind_some in Hrhs. destruct Hrhs as (ruc & Hruc & Hrhs).
  apply obind_some in Hrhs. destruct Hrhs as (r2' & Hr2 & Hrhs).
  apply obind_some in Hrhs. destruct Hrhs as (huc & Hhuc & Hrhs).
  apply obind_some in Hrhs. destruct Hrhs as (h2' & Hh2 & Hrhs).
  injection Hrhs as -> ->.
  cbn [sys_bulk_rhs_rows sys_M rect_system hex_system] in *.
  unfold N2 in *.
  destruct (boundary_after_step (N * N) (rect_M N) (rect_bcs_all N)
              (rect_centr N) (rect_x N) (rect_y N) e (time st)
              (rect_rhs st) r1 r2 (rect_u st) ruc ru) as [Lr Br];
    [ apply rect_M_boundary_row
    | pose proof (rect_rows_total N HN); unfold len in *; lia
    | exact Hr1 | exact Hruc | exact Hr2 | exact Hsr | ].
  destruct (boundary_after_step (N * N) (hex_M N) (hex_bcs_all N)
              (hex_centr N) (hex_x N) (hex_y N sqrt3) e (time st)
              (hex_rhs st) h1 h2 (hex_u st) huc hu) as [Lh Bh];
    [ apply hex_M_boundary_row
    | pose proof (hex_rows_total N HN); unfold len in *; lia
    | exact Hh1 | exact Hhuc | exact Hh2 | exact Hsh | ].
  cbn [time rect_u hex_u]. auto.
Qed.

(** For a valid N and a state whose four vectors have one entry per node,
    rewriting the right-hand sides raises nothing: a step can only fail in
    the two solves. *)
Lemma step_rhs_total N sqrt3 e st :
  valid_N N ->
  len (rect_u st) = N * N -> len (hex_u st) = N * N ->
  len (rect_rhs st) = N * N -> len (hex_rhs st) = N * N ->
  exists r2 h2,
    step_rhs N sqrt3 e (rect_system N e) (hex_system N sqrt3 e) st
    = Some (r2, h2)
    /\ len r2 = N * N /\ len h2 = N * N.
Proof.
  intros HN Lru Lhu Lrr Lhr. assert (H0 : 0 < N) by (destruct HN; lia).
  pose proof (rect_rows_total N HN) as Tr.
  pose proof (hex_rows_total N HN) as Th.
  pose proof (len_hex_centr N HN) as Lc.
  pose proof (len_hex_stencil_r N HN) as Lsr.
  pose proof (len_hex_stencil_l N HN) as Lsl.
  unfold step_rhs.
  rewrite (take_in_range (rect_x N) _ 0%Q), (take_in_range (rect_y N) _ 0%Q)
    by (apply (Forall_in_range_len N);
        [apply length_rect_x, H0 || apply length_rect_y, H0
        | apply rect_bcs_all_in_range, HN]).
  cbn [obind].
  fold (boundary_values e (time st) (rect_x N) (rect_y N) (rect_bcs_all N)).
  set (rv := boundary_values e (time st) (rect_x N) (rect_y N) (rect_bcs_all N)).
  assert (Lrv : length rv = length (rect_bcs_all N))
    by apply length_boundary_values.
  rewrite (put_boundary (rect_rhs st) rv)
    by (unfold len in *; lia).
  cbn [obind].
  rewrite (take_in_range (hex_x N) _ 0%Q), (take_in_range (hex_y N sqrt3) _ 0%Q)
    by (apply (Forall_in_range_len N);
        [apply length_hex_x, H0 || apply length_hex_y, H0
        | apply hex_bcs_all_in_range, HN]).
  cbn [obind].
  fold (boundary_values e (time st) (hex_x N) (hex_y N sqrt3) (hex_bcs_all N)).
  set (hv := boundary_values e (time st) (hex_x N) (hex_y N sqrt3)
                             (hex_bcs_all N)).
  assert (Lhv : length hv = length (hex_bcs_all N))
    by apply length_boundary_values.
  rewrite (put_boundary (hex_rhs st) hv)
    by (unfold len in *; lia).
  cbn [obind].
  rewrite (take_in_range (rect_u st) _ 0%Q)
    by (apply (Forall_in_range_len N);
        [exact Lru | apply rect_centr_in_range, HN]).
  cbn [obind sys_bulk_rhs_rows rect_system].
  set (rc := map (fun v => (- v / dt)%Q) _).
  assert (Lrc : len rc = len (rect_centr N))
    by (unfold rc, len; now rewrite !length_map).
  set (r1 := rv ++ skipn (length rv) (rect_rhs st)).
  assert (Lr1 : len r1 = N * N).
  { unfold r1. rewrite len_app. unfold len in *. rewrite length_skipn. lia. }
  unfold rect_nb. rewrite <- Lrc.
  rewrite (put_arange_Z r1 rc) by (unfold len in *; lia).
  cbn [obind].
  rewrite (take_in_range (hex_u st) _ 0%Q)
    by (apply (Forall_in_range_len N);
        [exact Lhu | apply hex_centr_in_range, HN]).
  cbn [obind sys_bulk_rhs_rows hex_system].
  set (hc := map (fun v => (- v / dt)%Q) _).
  assert (Lhc : len hc = len (hex_centr N))
    by (unfold hc, len; now rewrite !length_map).
  set (h1 := hv ++ skipn (length hv) (hex_rhs st)).
  assert (Lh1 : len h1 = N * N).
  { unfold h1. rewrite len_app. unfold len in *. rewrite length_skipn. lia. }
  unfold hex_nb. rewrite <- Lhc.
  rewrite (put_arange_Z h1 hc) by (unfold len in *; lia).
  cbn [obind].
  eexists _, _. split; [reflexivity|].
  unfold len in *.
  rewrite !length_app, !length_firstn, !length_skipn. lia.
Qed.

(** C3: what [drawstep] does where the claim expects the boundary values
    of the new time.  After one call of [drawstep] on the assembled systems
    [time] has advanced by [dt], both new solution vectors have one entry
    per node index of [0, N^2), and the entry of every boundary node equals
    [exact_u] at that node's coordinates at the time at which the step
    started, that is, at the new time minus [dt]: the boundary rows are
    filled before [time += dt], so the solution is one [dt] behind the
    [time] it is drawn and initialised with. *)
Theorem C3_step_boundary_values (N : Z) (sqrt3 : Q) (exact_u : Q -> Q -> Q -> Q)
        (rect_sys hex_sys : system) (st st' : state) :
  valid_N N ->
  rect_assemble N exact_u = Some rect_sys ->
  hex_assemble N sqrt3 exact_u = Some hex_sys ->
  drawstep N sqrt3 exact_u rect_sys hex_sys st st' ->
  time st' = (time st + dt)%Q
  /\ len (rect_u st') = N * N /\ len (hex_u st') = N * N
  /\ (forall k, 0 <= k < len (rect_bcs_all N) ->
        let node := Z.to_nat (nth (Z.to_nat k) (rect_bcs_all N) 0) in
        (nth node (rect_u st') 0
         == exact_u (time st) (nth node (rect_x N) 0) (nth node (rect_y N) 0))%Q)
  /\ (forall k, 0 <= k < len (hex_bcs_all N) ->
        let node := Z.to_nat (nth (Z.to_nat k) (hex_bcs_all N) 0) in
        (nth node (hex_u st') 0
         == exact_u (time st) (nth node (hex_x N) 0)
                    (nth node (hex_y N sqrt3) 0))%Q).
Proof.
  intros HN Hr Hh Hstep.
  rewrite rect_assemble_eq in Hr by exact HN. injection Hr as <-.
  rewrite hex_assemble_eq in Hh by exact HN. injection Hh as <-.
  now apply drawstep_boundary.
Qed.

(** ** A first step, worked out for N = 6 *)

Lemma solves_spsolve n m b u : Gauss.solves n m b u = true -> spsolve n m b u.
Proof.
  unfold Gauss.solves, spsolve.
  rewrite andb_true_iff, Nat.eqb_eq, forallb_forall.
  intros [Hl Hr]. split; [exact Hl|]. intros r Hrange.
  apply Qeq_bool_eq, Hr, In_arange, Hrange.
Qed.

Lemma first_step :
  drawstep 6 sqrt3_float heat_poly
           (rect_system 6 heat_poly) (hex_system 6 sqrt3_float heat_poly)
           state0 state1.
Proof.
  apply drawstep_intro.
  - vm_compute. reflexivity.
  - apply solves_spsolve. vm_compute. reflexivity.
  - apply solves_spsolve. vm_compute. reflexivity.
Qed.

Lemma C3_step_boundary_values_witness :
  time state1 = (time state0 + dt)%Q
  /\ len (rect_u state1) = 6 * 6 /\ len (hex_u state1) = 6 * 6
  /\ (forall k, 0 <= k < len (rect_bcs_all 6) ->
        let node := Z.to_nat (nth (Z.to_nat k) (rect_bcs_all 6) 0) in
        (nth node (rect_u state1) 0
         == heat_poly (time state0) (nth node (rect_x 6) 0)
                      (nth node (rect_y 6) 0))%Q)
  /\ (forall k, 0 <= k < len (hex_bcs_all 6) ->
        let node := Z.to_nat (nth (Z.to_nat k) (hex_bcs_all 6) 0) in
        (nth node (hex_u state1) 0
         == heat_poly (time state0) (nth node (hex_x 6) 0)
                      (nth node (hex_y 6 sqrt3_float) 0))%Q).
Proof.
  apply (C3_step_boundary_values 6 sqrt3_float heat_poly
           (rect_system 6 heat_poly) (hex_system 6 sqrt3_float heat_poly)
           state0 state1).
  - split; [reflexivity | lia].
  - vm_compute. reflexivity.
  - vm_compute. reflexivity.
  - exact first_step.
Defined.

(** C3 as stated fails: in the first step for N = 6, with the heat
    polynomial as [exact_u], the new solutions at the boundary nodes 0
    (rectangular mesh) and 7 (hexagonal mesh) differ from [exact_u] at the
    new time. *)
Lemma C3_counterexample :
  drawstep 6 sqrt3_float heat_poly
           (rect_system 6 heat_poly) (hex_system 6 sqrt3_float heat_poly)
           state0 state1
  /\ In 0 (rect_bcs_all 6) /\ In 7 (hex_bcs_all 6)
  /\ ~ (nth 0 (rect_u state1) 0
        == heat_poly (time state1) (nth 0 (rect_x 6) 0) (nth 0 (rect_y 6) 0))%Q
  /\ ~ (nth 7 (hex_u state1) 0
        == heat_poly (time state1) (nth 7 (hex_x 6) 0)
                     (nth 7 (hex_y 6 sqrt3_float) 0))%Q.
Proof.
  split; [exact first_step|].
  split; [apply memb_In; reflexivity|].
  split; [apply memb_In; reflexivity|].
  split; intros H; vm_compute in H; discriminate H.
Qed.

(** ** The nodes that carry the diagonal coefficient *)

(** The matrix puts the diagonal coefficient at position 1 of the right
    stencils and at position 2 of the left ones; [hex_centr] takes the
    positions 2 and 1.  With the positions of the matrix the partition
    holds, for every valid N. *)
Module Diagonal.

Lemma In_blocks {A} (f : Z -> list A) a b j x :
  a <= j < b -> In x (f j) -> In x (concat (map f (arange a b))).
Proof.
  intros Hj Hx. apply in_concat. exists (f j). split; [|exact Hx].
  apply in_map_iff. exists j. split; [reflexivity | now apply In_arange].
Qed.

Lemma In_block row c idx a :
  In a idx -> In (map (fun x => x + c) (row a)) (block row c idx).
Proof. intros H. unfold block. apply in_map_iff. eauto. Qed.

Lemma In_column p rows row x :
  In row rows -> nth p row 0 = x -> In x (column p rows).
Proof. intros H E. unfold column. apply in_map_iff. eauto. Qed.

Lemma In_odds_intro m k : 0 <= k < m - 1 -> In (1 + 2 * k) (odds (2 * m)).
Proof.
  intros H. rewrite odds_eq by lia. apply in_map_iff.
  exists k. split; [reflexivity | now apply In_arange].
Qed.

Lemma In_evens_front m k :
  0 <= k < m - 1 -> In (2 * k) (removelast (evens (2 * m))).
Proof.
  intros H. rewrite evens_eq, removelast_map, removelast_arange by lia.
  apply in_map_iff. exists k. split; [reflexivity | now apply In_arange].
Qed.

Lemma In_evens_back m k : 1 <= k < m -> In (2 * k) (tl (evens (2 * m))).
Proof.
  intros H. rewrite evens_eq, tl_map, tl_arange by lia.
  apply in_map_iff. exists k. split; [reflexivity | now apply In_arange].
Qed.

Lemma In_removelast_intro {A} (l : list A) x d :
  In x l -> x <> last l d -> In x (removelast l).
Proof.
  intros Hx Hne. destruct l as [|y l]; [destruct Hx|].
  rewrite (app_removelast_last d (l := y :: l)) in Hx by discriminate.
  apply in_app_or in Hx. destruct Hx as [Hx|[Hx|[]]]; [exact Hx|].
  congruence.
Qed.

Lemma parity c : exists k, c = 2 * k \/ c = 2 * k + 1.
Proof.
  exists (c / 2). pose proof (Z.div_mod c 2). pose proof (Z.mod_pos_bound c 2).
  lia.
Qed.

Lemma last_four {A} (x : A) front a b c d e :
  last (x :: front ++ [a; b; c; d]) e = d.
Proof.
  replace (x :: front ++ [a; b; c; d]) with ((x :: front ++ [a; b; c]) ++ [d])
    by (cbn [app]; now rewrite <- app_assoc).
  apply last_last.
Qed.

Lemma last_bottom m :
  3 <= m ->
  last ((2 * m + 1) :: concat (map (bottom_row (2 * m)) (odds (2 * m)))) 0
  = 2 * (2 * m) - 1.
Proof.
  intros H. rewrite odds_eq by lia.
  rewrite (arange_snoc 0 (m - 1)) by lia.
  rewrite !map_app, concat_app. cbn [map concat bottom_row app].
  rewrite last_four. lia.
Qed.

(** Rows 0 and 1, without their ends, are in the bottom list. *)
Lemma bottom_cover m r c :
  3 <= m -> 0 <= r <= 1 -> 1 <= c <= 2 * m - 2 ->
  In (r * (2 * m) + c) (hex_bcs_bottom (2 * m)).
Proof.
  intros Hm Hr Hc. rewrite hex_bcs_bottom_eq.
  apply In_removelast_intro with (d := 0); [|rewrite last_bottom by lia; nia].
  destruct (parity c) as (k & [Ek|Ek]);
    assert (Er : r = 0 \/ r = 1) by lia; destruct Er as [-> | ->].
  - (* row 0, even column *)
    right. apply in_concat. exists (bottom_row (2 * m) (1 + 2 * (k - 1))).
    split; [apply in_map, In_odds_intro; lia|].
    unfold bottom_row. right. left. lia.
  - (* row 1, even column *)
    right. apply in_concat. exists (bottom_row (2 * m) (1 + 2 * (k - 1))).
    split; [apply in_map, In_odds_intro; lia|].
    unfold bottom_row. right. right. left. lia.
  - (* row 0, odd column *)
    right. apply in_concat. exists (bottom_row (2 * m) (1 + 2 * k)).
    split; [apply in_map, In_odds_intro; lia|].
    unfold bottom_row. left. lia.
  - (* row 1, odd column *)
    destruct (Z.eq_dec k 0) as [->|Hk]; [left; lia|].
    right. apply in_concat. exists (bottom_row (2 * m) (1 + 2 * (k - 1))).
    split; [apply in_map, In_odds_intro; lia|].
    unfold bottom_row. right. right. right. left. lia.
Qed.

(** Rows N-2 and N-1, without their ends, are in the top list. *)
Lemma top_cover m r c :
  3 <= m -> 2 * m - 2 <= r <= 2 * m - 1 -> 1 <= c <= 2 * m - 2 ->
  In (r * (2 * m) + c) (hex_bcs_top (2 * m)).
Proof.
  intros Hm Hr Hc. rewrite hex_bcs_top_eq.
  destruct (parity c) as (k & [Ek|Ek]);
    assert (Er : r = 2 * m - 2 \/ r = 2 * m - 1) by lia;
    destruct Er as [-> | ->]; apply in_concat.
  - exists (top_row (2 * m) (1 + 2 * (k - 1))).
    split; [apply in_map, In_odds_intro; lia|].
    unfold top_row. right. right. left. lia.
  - exists (top_row (2 * m) (1 + 2 * (k - 1))).
    split; [apply in_map, In_odds_intro; lia|].
    unfold top_row. right. right. right. left. lia.
  - exists (top_row (2 * m) (1 + 2 * k)).
    split; [apply in_map, In_odds_intro; lia|].
    unfold top_row. right. left. lia.
  - exists (top_row (2 * m) (1 + 2 * k)).
    split; [apply in_map, In_odds_intro; lia|].
    unfold top_row. left. lia.
Qed.

(** Every node of the rows 2 to N-3, without their ends, carries the
    diagonal coefficient of one stencil. *)
Lemma interior_cover m r c :
  3 <= m -> 2 <= r <= 2 * m - 3 -> 1 <= c <= 2 * m - 2 ->
  In (r * (2 * m) + c) (hex_diag_nodes (2 * m)).
Proof.
  intros Hm Hr Hc. unfold hex_diag_nodes.
  rewrite hex_stencil_r_eq, hex_stencil_l_eq.
  replace (Z.shiftr (2 * m) 1) with m
    by (rewrite Z.shiftr_div_pow2 by lia; change (2 ^ 1) with 2;
        rewrite Z.mul_comm, Z.div_mul; lia).
  apply in_or_app.
  destruct (parity c) as (k & [Ek|Ek]); destruct (parity r) as (q & [Eq|Eq]).
  - (* even row, even column: a left stencil of the first block *)
    right. apply (In_column 2) with
      (row := map (fun x => x + 2 * (q - 1) * (2 * m)) (l_row (2 * m) (2 * k)));
      [|unfold l_row; cbn [map nth]; lia].
    apply (In_blocks _ 0 (m - 2) (q - 1)); [lia|].
    apply in_or_app. left. apply In_block, In_evens_back. lia.
  - (* odd row, even column: a right stencil of the second block *)
    left. apply (In_column 1) with
      (row := map (fun x => x + ((2 * (q - 1) + 1) * (2 * m) - 1))
                  (r_row (2 * m) (2 * k)));
      [|unfold r_row; cbn [map nth]; lia].
    apply (In_blocks _ 0 (m - 2) (q - 1)); [lia|].
    apply in_or_app. right. apply In_block, In_evens_back. lia.
  - (* even row, odd column: a right stencil of the first block *)
    left. apply (In_column 1) with
      (row := map (fun x => x + 2 * (q - 1) * (2 * m)) (r_row (2 * m) (2 * k)));
      [|unfold r_row; cbn [map nth]; lia].
    apply (In_blocks _ 0 (m - 2) (q - 1)); [lia|].
    apply in_or_app. left. apply In_block, In_evens_front. lia.
  - (* odd row, odd column: a left stencil of the second block *)
    right. apply (In_column 2) with
      (row := map (fun x => x + ((2 * (q - 1) + 1) * (2 * m) - 1))
                  (l_row (2 * m) (2 * (k + 1))));
      [|unfold l_row; cbn [map nth]; lia].
    apply (In_blocks _ 0 (m - 2) (q - 1)); [lia|].
    apply in_or_app. right. apply In_block, In_evens_back. lia.
Qed.

Lemma len_hex_diag_nodes N :
  valid_N N -> len (hex_diag_nodes N) = (N / 2 - 2) * (N - 2) * 2.
Proof.
  intros H. unfold hex_diag_nodes.
  rewrite len_app, !len_column, len_hex_stencil_r, len_hex_stencil_l by assumption.
  lia.
Qed.

Lemma hex_diag_nodes_in_range N :
  valid_N N -> Forall (in_range N) (hex_diag_nodes N).
Proof.
  intros H. unfold hex_diag_nodes. apply Forall_app. split; apply Forall_column.
  - apply hex_stencil_r_in_range, H.
  - eapply Forall_impl; [|apply hex_stencil_r_rows]. cbn. intros r ->. lia.
  - apply hex_stencil_l_in_range, H.
  - eapply Forall_impl; [|apply hex_stencil_l_rows]. cbn. intros r ->. lia.
Qed.

Lemma hex_diag_partition N :
  valid_N N -> partitions N (hex_bcs_all N) (hex_diag_nodes N).
Proof.
  intros HN.
  assert (Hcover : forall x, 0 <= x < N * N ->
                             In x (hex_bcs_all N ++ hex_diag_nodes N)).
  { destruct (half_valid N HN) as (m & -> & Hm & _). intros x Hx.
    assert (Ex : x = (x / (2 * m)) * (2 * m) + x mod (2 * m)).
    { rewrite (Z.div_mod x (2 * m)) at 1 by lia. lia. }
    assert (Hq : 0 <= x / (2 * m) < 2 * m).
    { split; [apply Z.div_pos; lia | apply Z.div_lt_upper_bound; lia]. }
    assert (Hr : 0 <= x mod (2 * m) < 2 * m) by (apply Z.mod_pos_bound; lia).
    rewrite Ex. set (r := x / (2 * m)) in *. set (c := x mod (2 * m)) in *.
    unfold hex_bcs_all. rewrite !in_app_iff, <- !in_rev.
    destruct (Z.eq_dec c 0) as [E0|E0].
    { left. right. right. right. unfold hex_bcs_left. apply in_map_iff.
      exists r. split; [lia | apply In_arange; lia]. }
    destruct (Z.eq_dec c (2 * m - 1)) as [E1|E1].
    { left. right. left. unfold hex_bcs_right. apply in_map_iff.
      exists r. split; [lia | apply In_arange; lia]. }
    destruct (Z_le_gt_dec r 1) as [Hlo|Hlo].
    { left. left. apply bottom_cover; lia. }
    destruct (Z_le_gt_dec (2 * m - 2) r) as [Hhi|Hhi].
    { left. right. right. left. apply top_cover; lia. }
    right. apply interior_cover; lia. }
  split.
  - apply (cover_NoDup _ (N * N)); [|exact Hcover].
    rewrite len_app, len_hex_diag_nodes, len_hex_bcs_all by exact HN.
    destruct (half_valid N HN) as (m & -> & Hm & _).
    replace (2 * m / 2) with m by (rewrite Z.mul_comm, Z.div_mul; lia). lia.
  - intros x. split; [|apply Hcover].
    pose proof (hex_bcs_all_in_range N HN) as Hb.
    pose proof (hex_diag_nodes_in_range N HN) as Hc.
    rewrite Forall_forall in Hb, Hc. rewrite in_app_iff. intros [H|H]; auto.
Qed.

End Diagonal.

Import Diagonal.

(** * Further properties *)

(** ** Rows and columns *)

Module RowCol.

Lemma div_rc N r c : 0 <= c < N -> (r * N + c) / N = r.
Proof.
  intros H. rewrite Z.div_add_l by lia. rewrite Z.div_small by lia. lia.
Qed.

Lemma mod_rc N r c : 0 <= c < N -> (r * N + c) mod N = c.
Proof.
  intros H. rewrite Z.add_comm, Z.mod_add by lia. apply Z.mod_small, H.
Qed.

Lemma rc_of N x :
  0 < N -> 0 <= x < N * N ->
  x = (x / N) * N + x mod N /\ 0 <= x / N < N /\ 0 <= x mod N < N.
Proof.
  intros HN Hx. repeat split.
  - rewrite (Z.div_mod x N) at 1 by lia. lia.
  - apply Z.div_pos; lia.
  - apply Z.div_lt_upper_bound; lia.
  - apply Z.mod_pos_bound; lia.
  - apply Z.mod_pos_bound; lia.
Qed.

Lemma In_blocks_inv {A} (f : Z -> list A) a b x :
  In x (concat (map f (arange a b))) -> exists j, a <= j < b /\ In x (f j).
Proof.
  intros H. apply in_concat in H. destruct H as (l & Hl & Hx).
  apply in_map_iff in Hl. destruct Hl as (j & <- & Hj).
  apply In_arange in Hj. eauto.
Qed.

Lemma In_block_inv row c idx x :
  In x (block row c idx) ->
  exists a, In a idx /\ x = map (fun v => v + c) (row a).
Proof.
  unfold block. intros H. apply in_map_iff in H.
  destruct H as (a & <- & Ha). eauto.
Qed.

Lemma In_evens_iff m a :
  0 <= m -> In a (evens (2 * m)) <-> exists k, 0 <= k < m /\ a = 2 * k.
Proof.
  intros Hm. rewrite evens_eq by lia. rewrite in_map_iff. split.
  - intros (k & <- & Hk). apply In_arange in Hk. eauto.
  - intros (k & Hk & ->). exists k. split; [reflexivity | now apply In_arange].
Qed.

Lemma In_evens_front_iff m a :
  0 <= m ->
  In a (removelast (evens (2 * m))) <-> exists k, 0 <= k < m - 1 /\ a = 2 * k.
Proof.
  intros Hm. rewrite evens_eq, removelast_map, removelast_arange by lia.
  rewrite in_map_iff. split.
  - intros (k & <- & Hk). apply In_arange in Hk. eauto.
  - intros (k & Hk & ->). exists k. split; [reflexivity | now apply In_arange].
Qed.

Lemma In_evens_back_iff m a :
  0 <= m ->
  In a (tl (evens (2 * m))) <-> exists k, 1 <= k < m /\ a = 2 * k.
Proof.
  intros Hm. rewrite evens_eq, tl_map, tl_arange by lia.
  rewrite in_map_iff. split.
  - intros (k & <- & Hk). apply In_arange in Hk. eauto.
  - intros (k & Hk & ->). exists k. split; [reflexivity | now apply In_arange].
Qed.

Lemma shiftr_half m : Z.shiftr (2 * m) 1 = m.
Proof.
  rewrite Z.shiftr_div_pow2 by lia. change (2 ^ 1) with 2.
  rewrite Z.mul_comm. apply Z.div_mul. lia.
Qed.

Lemma list4_eq (a b c d a' b' c' d' : Z) :
  a = a' -> b = b' -> c = c' -> d = d' -> [a; b; c; d] = [a'; b'; c'; d'].
Proof. now intros -> -> -> ->. Qed.

Lemma list6_eq (a b c d e f a' b' c' d' e' f' : Z) :
  a = a' -> b = b' -> c = c' -> d = d' -> e = e' -> f = f' ->
  [a; b; c; d; e; f] = [a'; b'; c'; d'; e'; f'].
Proof. now intros -> -> -> -> -> ->. Qed.

(** Parity of a row or column given by its half. *)
Lemma even_mod k : (2 * k) mod 2 = 0.
Proof. rewrite Z.mul_comm. apply Z.mod_mul. lia. Qed.

Lemma odd_mod k : (2 * k + 1) mod 2 = 1.
Proof. rewrite Z.add_comm, Z.mul_comm, Z.mod_add by lia. reflexivity. Qed.

Lemma mod2_cases x : x mod 2 = 0 \/ x mod 2 = 1.
Proof. pose proof (Z.mod_pos_bound x 2). lia. Qed.

Lemma half_of x : x = 2 * (x / 2) + x mod 2.
Proof. apply Z.div_mod. lia. Qed.

End RowCol.

Import RowCol.

(** ** The two stencil families and the hexagons, node by node *)

Module Families.

Ltac dlia := Z.to_euclidean_division_equations; lia.

Lemma right_stencil_block1 m j k :
  map (fun v => v + 2 * j * (2 * m)) (r_row (2 * m) (2 * k))
  = right_stencil_at (2 * m) (2 * j + 2) (2 * k + 1).
Proof. unfold r_row, right_stencil_at. cbn [map]. apply list4_eq; lia. Qed.

Lemma right_stencil_block2 m j k :
  map (fun v => v + ((2 * j + 1) * (2 * m) - 1)) (r_row (2 * m) (2 * k))
  = right_stencil_at (2 * m) (2 * j + 3) (2 * k).
Proof. unfold r_row, right_stencil_at. cbn [map]. apply list4_eq; lia. Qed.

Lemma left_stencil_block1 m j k :
  map (fun v => v + 2 * j * (2 * m)) (l_row (2 * m) (2 * k))
  = left_stencil_at (2 * m) (2 * j + 2) (2 * k).
Proof. unfold l_row, left_stencil_at. cbn [map]. apply list4_eq; lia. Qed.

Lemma left_stencil_block2 m j k :
  map (fun v => v + ((2 * j + 1) * (2 * m) - 1)) (l_row (2 * m) (2 * k))
  = left_stencil_at (2 * m) (2 * j + 3) (2 * k - 1).
Proof. unfold l_row, left_stencil_at. cbn [map]. apply list4_eq; lia. Qed.

Lemma hexagon_block1 m j k :
  map (fun v => v + 2 * j * (2 * m)) (poly_row (2 * m) (2 * k))
  = hexagon_at (2 * m) (2 * j) (2 * k + 1).
Proof. unfold poly_row, hexagon_at. cbn [map]. apply list6_eq; lia. Qed.

Lemma hexagon_block2 m j k :
  map (fun v => v + ((2 * j + 1) * (2 * m) - 1)) (poly_row (2 * m) (2 * k))
  = hexagon_at (2 * m) (2 * j + 1) (2 * k).
Proof. unfold poly_row, hexagon_at. cbn [map]. apply list6_eq; lia. Qed.

Lemma In_hex_stencil_r m row :
  3 <= m ->
  In row (hex_stencil_r (2 * m)) <->
  exists r c, 2 <= r <= 2 * m - 3 /\ 1 <= c <= 2 * m - 2
              /\ (c + 1) mod 2 = r mod 2
              /\ row = right_stencil_at (2 * m) r c.
Proof.
  intros Hm. rewrite hex_stencil_r_eq, shiftr_half. split.
  - intros H. apply In_blocks_inv in H. destruct H as (j & Hj & H).
    apply in_app_or in H. destruct H as [H|H];
      apply In_block_inv in H; destruct H as (a & Ha & ->).
    + apply In_evens_front_iff in Ha; [|lia]. destruct Ha as (k & Hk & ->).
      exists (2 * j + 2), (2 * k + 1).
      rewrite right_stencil_block1. repeat split; try lia. dlia.
    + apply In_evens_back_iff in Ha; [|lia]. destruct Ha as (k & Hk & ->).
      exists (2 * j + 3), (2 * k).
      rewrite right_stencil_block2. repeat split; try lia. dlia.
  - intros (r & c & Hr & Hc & Hp & ->).
    destruct (mod2_cases r) as [Er|Er].
    + apply (In_blocks _ 0 (m - 2) (r / 2 - 1)); [dlia|].
      apply in_or_app. left.
      replace (right_stencil_at (2 * m) r c)
        with (map (fun v => v + 2 * (r / 2 - 1) * (2 * m))
                  (r_row (2 * m) (2 * (c / 2))))
        by (rewrite right_stencil_block1; f_equal; dlia).
      apply In_block, In_evens_front_iff; [lia|].
      exists (c / 2). split; [dlia | reflexivity].
    + apply (In_blocks _ 0 (m - 2) ((r - 3) / 2)); [dlia|].
      apply in_or_app. right.
      replace (right_stencil_at (2 * m) r c)
        with (map (fun v => v + ((2 * ((r - 3) / 2) + 1) * (2 * m) - 1))
                  (r_row (2 * m) (2 * (c / 2))))
        by (rewrite right_stencil_block2; f_equal; dlia).
      apply In_block, In_evens_back_iff; [lia|].
      exists (c / 2). split; [dlia | reflexivity].
Qed.

Lemma In_hex_stencil_l m row :
  3 <= m ->
  In row (hex_stencil_l (2 * m)) <->
  exists r c, 2 <= r <= 2 * m - 3 /\ 1 <= c <= 2 * m - 2
              /\ c mod 2 = r mod 2
              /\ row = left_stencil_at (2 * m) r c.
Proof.
  intros Hm. rewrite hex_stencil_l_eq, shiftr_half. split.
  - intros H. apply In_blocks_inv in H. destruct H as (j & Hj & H).
    apply in_app_or in H. destruct H as [H|H];
      apply In_block_inv in H; destruct H as (a & Ha & ->);
      apply In_evens_back_iff in Ha; try lia; destruct Ha as (k & Hk & ->).
    + exists (2 * j + 2), (2 * k).
      rewrite left_stencil_block1. repeat split; try lia. dlia.
    + exists (2 * j + 3), (2 * k - 1).
      rewrite left_stencil_block2. repeat split; try lia. dlia.
  - intros (r & c & Hr & Hc & Hp & ->).
    destruct (mod2_cases r) as [Er|Er].
    + apply (In_blocks _ 0 (m - 2) (r / 2 - 1)); [dlia|].
      apply in_or_app. left.
      replace (left_stencil_at (2 * m) r c)
        with (map (fun v => v + 2 * (r / 2 - 1) * (2 * m))
                  (l_row (2 * m) (2 * (c / 2))))
        by (rewrite left_stencil_block1; f_equal; dlia).
      apply In_block, In_evens_back_iff; [lia|].
      exists (c / 2). split; [dlia | reflexivity].
    + apply (In_blocks _ 0 (m - 2) ((r - 3) / 2)); [dlia|].
      apply in_or_app. right.
      replace (left_stencil_at (2 * m) r c)
        with (map (fun v => v + ((2 * ((r - 3) / 2) + 1) * (2 * m) - 1))
                  (l_row (2 * m) (2 * ((c + 1) / 2))))
        by (rewrite left_stencil_block2; f_equal; dlia).
      apply In_block, In_evens_back_iff; [lia|].
      exists ((c + 1) / 2). split; [dlia | reflexivity].
Qed.

Lemma In_hex_polys m p :
  3 <= m ->
  In p (hex_polys (2 * m)) <->
  exists r c, 0 <= r <= 2 * m - 3 /\ 0 <= c <= 2 * m - 2
              /\ (c + 1) mod 2 = r mod 2
              /\ p = hexagon_at (2 * m) r c.
Proof.
  intros Hm. rewrite hex_polys_eq, shiftr_half. split.
  - intros H. apply In_blocks_inv in H. destruct H as (j & Hj & H).
    apply in_app_or in H. destruct H as [H|H];
      apply In_block_inv in H; destruct H as (a & Ha & ->).
    + apply In_evens_front_iff in Ha; [|lia]. destruct Ha as (k & Hk & ->).
      exists (2 * j), (2 * k + 1).
      rewrite hexagon_block1. repeat split; try lia. dlia.
    + apply In_evens_iff in Ha; [|lia]. destruct Ha as (k & Hk & ->).
      exists (2 * j + 1), (2 * k).
      rewrite hexagon_block2. repeat split; try lia. dlia.
  - intros (r & c & Hr & Hc & Hp & ->).
    destruct (mod2_cases r) as [Er|Er].
    + apply (In_blocks _ 0 (m - 1) (r / 2)); [dlia|].
      apply in_or_app. left.
      replace (hexagon_at (2 * m) r c)
        with (map (fun v => v + 2 * (r / 2) * (2 * m))
                  (poly_row (2 * m) (2 * (c / 2))))
        by (rewrite hexagon_block1; f_equal; dlia).
      apply In_block, In_evens_front_iff; [lia|].
      exists (c / 2). split; [dlia | reflexivity].
    + apply (In_blocks _ 0 (m - 1) ((r - 1) / 2)); [dlia|].
      apply in_or_app. right.
      replace (hexagon_at (2 * m) r c)
        with (map (fun v => v + ((2 * ((r - 1) / 2) + 1) * (2 * m) - 1))
                  (poly_row (2 * m) (2 * (c / 2))))
        by (rewrite hexagon_block2; f_equal; dlia).
      apply In_block, In_evens_iff; [lia|].
      exists (c / 2). split; [dlia | reflexivity].
Qed.

(** The step of row [r] at column [c], read from [hex_dx]. *)
Lemma gap_cases N r c :
  0 <= r < N -> 0 <= c < N - 1 ->
  (gap N r c == if (c + 1) mod 2 =? r mod 2 then short_x N else long_x N)%Q.
Proof.
  intros Hr Hc. unfold gap. rewrite hex_dx_eq.
  rewrite nth_map_arange by lia. rewrite nth_map_arange by lia.
  rewrite !Z.add_0_l. apply step_x_cases.
Qed.

End Families.

Import Families.

(** ** Boundary lists *)

Module Frames.

Lemma NoDup_app_l {A} (l1 l2 : list A) : NoDup (l1 ++ l2) -> NoDup l1.
Proof.
  induction l1 as [|x l1 IH]; cbn; intros H; [constructor|].
  inversion H as [|? ? Hx Hnd]; subst. constructor.
  - intros Hin. apply Hx, in_or_app. now left.
  - now apply IH.
Qed.

Lemma In_column_inv p rows x :
  In x (column p rows) -> exists row, In row rows /\ nth p row 0 = x.
Proof.
  unfold column. intros H. apply in_map_iff in H.
  destruct H as (row & E & Hr). eauto.
Qed.

(** A node that carries a diagonal coefficient lies off the hexagonal
    boundary. *)
Lemma hex_diag_nodes_interior N x :
  valid_N N -> In x (hex_diag_nodes N) ->
  exists r c, 2 <= r <= N - 3 /\ 1 <= c <= N - 2 /\ x = r * N + c.
Proof.
  intros HN H. destruct (half_valid N HN) as (m & -> & Hm & _).
  unfold hex_diag_nodes in H. apply in_app_or in H.
  destruct H as [H|H]; apply In_column_inv in H; destruct H as (row & Hrow & <-).
  - apply In_hex_stencil_r in Hrow; [|lia].
    destruct Hrow as (r & c & Hr & Hc & _ & ->). exists r, c. cbn. auto.
  - apply In_hex_stencil_l in Hrow; [|lia].
    destruct Hrow as (r & c & Hr & Hc & _ & ->). exists r, c. cbn. auto.
Qed.

Lemma hex_bcs_all_frame N x :
  valid_N N -> In x (hex_bcs_all N) <-> on_hex_boundary N x.
Proof.
  intros HN. assert (H4 : 4 < N) by (destruct HN; lia).
  destruct (hex_diag_partition N HN) as [Hnd Hcov].
  pose proof (hex_bcs_all_in_range N HN) as Hb. rewrite Forall_forall in Hb.
  split.
  - intros Hx. split; [apply Hb, Hx|].
    pose proof (Hb x Hx) as Hr. unfold in_range in Hr.
    destruct (rc_of N x) as (Ex & Hq & Hc); [lia | lia |].
    assert (D : (x / N <= 1 \/ N - 2 <= x / N \/ x mod N = 0 \/ x mod N = N - 1)
                \/ (2 <= x / N <= N - 3 /\ 1 <= x mod N <= N - 2)) by lia.
    destruct D as [D|[D1 D2]]; [exact D|]. exfalso.
    apply (NoDup_app_disjoint _ _ x Hnd Hx).
    destruct (half_valid N HN) as (m & -> & Hm & _).
    rewrite Ex. apply interior_cover; lia.
  - intros [Hr Hf]. apply Hcov in Hr. apply in_app_or in Hr.
    destruct Hr as [Hr|Hr]; [exact Hr|]. exfalso.
    apply hex_diag_nodes_interior in Hr; [|exact HN].
    destruct Hr as (r & c & Hr & Hc & ->).
    rewrite div_rc, mod_rc in Hf by lia. lia.
Qed.

Lemma rect_bcs_all_frame N x :
  valid_N N -> In x (rect_bcs_all N) <-> on_rect_boundary N x.
Proof.
  intros HN. assert (H4 : 4 < N) by (destruct HN; lia).
  destruct (rect_partition N HN) as [Hnd Hcov].
  pose proof (rect_bcs_all_in_range N HN) as Hb. rewrite Forall_forall in Hb.
  split.
  - intros Hx. split; [apply Hb, Hx|].
    pose proof (Hb x Hx) as Hr. unfold in_range in Hr.
    destruct (rc_of N x) as (Ex & Hq & Hc); [lia | lia |].
    assert (D : (x / N = 0 \/ x / N = N - 1 \/ x mod N = 0 \/ x mod N = N - 1)
                \/ (1 <= x / N < N - 1 /\ 1 <= x mod N < N - 1)) by lia.
    destruct D as [D|[D1 D2]]; [exact D|]. exfalso.
    apply (NoDup_app_disjoint _ _ x Hnd Hx).
    apply In_rect_centr. exists (x mod N), (x / N). auto.
  - intros [Hr Hf]. apply Hcov in Hr. apply in_app_or in Hr.
    destruct Hr as [Hr|Hr]; [exact Hr|]. exfalso.
    apply In_rect_centr in Hr. destruct Hr as (i & j & Hi & Hj & ->).
    rewrite div_rc, mod_rc in Hf by lia. lia.
Qed.

End Frames.

Import Frames.

(** X1: for every valid N the boundary list and the centre list of the
    rectangular mesh partition the node indices; the boundary list has
    4N - 4 entries, none twice, and holds exactly the nodes of the first and
    last row and of the first and last column; the centre list holds exactly
    the other nodes. *)
Theorem X1_rect_boundary_and_centres (N : Z) :
  valid_N N ->
  partitions N (rect_bcs_all N) (rect_centr N)
  /\ NoDup (rect_bcs_all N)
  /\ len (rect_bcs_all N) = 4 * N - 4
  /\ len (rect_centr N) = (N - 2) * (N - 2)
  /\ (forall x, In x (rect_bcs_all N) <-> on_rect_boundary N x)
  /\ (forall x, In x (rect_centr N) <->
                in_range N x /\ ~ on_rect_boundary N x).
Proof.
  intros HN. pose proof (rect_partition N HN) as Hp.
  split; [exact Hp|]. destruct Hp as [Hnd Hcov].
  split; [exact (NoDup_app_l _ _ Hnd)|].
  split; [apply len_rect_bcs_all, HN|].
  split; [apply len_rect_centr, HN|].
  split; [intros x; apply rect_bcs_all_frame, HN|].
  intros x. split.
  - intros Hx. split.
    + apply Hcov, in_or_app. now right.
    + intros Hf. apply rect_bcs_all_frame in Hf; [|exact HN].
      exact (NoDup_app_disjoint _ _ x Hnd Hf Hx).
  - intros [Hr Hf]. apply Hcov in Hr. apply in_app_or in Hr.
    destruct Hr as [Hr|Hr]; [|exact Hr].
    exfalso. apply Hf. now apply rect_bcs_all_frame.
Qed.

Lemma X1_rect_boundary_and_centres_witness :
  partitions 6 (rect_bcs_all 6) (rect_centr 6)
  /\ NoDup (rect_bcs_all 6)
  /\ len (rect_bcs_all 6) = 4 * 6 - 4
  /\ len (rect_centr 6) = (6 - 2) * (6 - 2)
  /\ (forall x, In x (rect_bcs_all 6) <-> on_rect_boundary 6 x)
  /\ (forall x, In x (rect_centr 6) <->
                in_range 6 x /\ ~ on_rect_boundary 6 x).
Proof.
  apply (X1_rect_boundary_and_centres 6). split; [reflexivity | lia].
Defined.

(** X2: for every valid N the boundary list of the hexagonal mesh has
    6N - 8 entries, none twice, and holds exactly the nodes of the rows 0, 1,
    N-2 and N-1 and of the columns 0 and N-1; together with the nodes at
    which the assembly puts the diagonal coefficient (position 1 of the
    right stencils, position 2 of the left ones) it partitions the node
    indices. *)
Theorem X2_hex_boundary_and_diagonal_nodes (N : Z) :
  valid_N N ->
  partitions N (hex_bcs_all N) (hex_diag_nodes N)
  /\ NoDup (hex_bcs_all N)
  /\ len (hex_bcs_all N) = 6 * N - 8
  /\ (forall x, In x (hex_bcs_all N) <-> on_hex_boundary N x)
  /\ (forall x, In x (hex_diag_nodes N) <->
                in_range N x /\ ~ on_hex_boundary N x).
Proof.
  intros HN. pose proof (hex_diag_partition N HN) as Hp.
  split; [exact Hp|]. destruct Hp as [Hnd Hcov].
  split; [exact (NoDup_app_l _ _ Hnd)|].
  split; [apply len_hex_bcs_all, HN|].
  split; [intros x; apply hex_bcs_all_frame, HN|].
  intros x. split.
  - intros Hx. split.
    + apply Hcov, in_or_app. now right.
    + intros Hf. apply hex_bcs_all_frame in Hf; [|exact HN].
      exact (NoDup_app_disjoint _ _ x Hnd Hf Hx).
  - intros [Hr Hf]. apply Hcov in Hr. apply in_app_or in Hr.
    destruct Hr as [Hr|Hr]; [|exact Hr].
    exfalso. apply Hf. now apply hex_bcs_all_frame.
Qed.

Lemma X2_hex_boundary_and_diagonal_nodes_witness :
  partitions 6 (hex_bcs_all 6) (hex_diag_nodes 6)
  /\ NoDup (hex_bcs_all 6)
  /\ len (hex_bcs_all 6) = 6 * 6 - 8
  /\ (forall x, In x (hex_bcs_all 6) <-> on_hex_boundary 6 x)
  /\ (forall x, In x (hex_diag_nodes 6) <->
                in_range 6 x /\ ~ on_hex_boundary 6 x).
Proof.
  apply (X2_hex_boundary_and_diagonal_nodes 6). split; [reflexivity | lia].
Defined.

(** ** The centre list of the hexagonal mesh *)

Module Centres.

Lemma column_shape (p q : nat) (d : Z) rows :
  Forall (fun row => nth p row 0 = nth q row 0 + d) rows ->
  column p rows = map (fun x => x + d) (column q rows).
Proof.
  intros H. unfold column. rewrite map_map. apply map_ext_in.
  intros row Hrow. rewrite Forall_forall in H. apply H, Hrow.
Qed.

Lemma In_hex_centr m x :
  3 <= m ->
  In x (hex_centr (2 * m)) <->
  exists r c, 2 <= r <= 2 * m - 3
              /\ ((r mod 2 = 0 /\ 1 <= c <= 2 * m - 2)
                  \/ (r mod 2 = 1 /\ 0 <= c <= 2 * m - 1
                      /\ c <> 1 /\ c <> 2 * m - 2))
              /\ x = r * (2 * m) + c.
Proof.
  intros Hm. unfold hex_centr. rewrite in_app_iff. split.
  - intros [H|H]; apply In_column_inv in H; destruct H as (row & Hrow & <-).
    + apply In_hex_stencil_r in Hrow; [|lia].
      destruct Hrow as (r & c & Hr & Hc & Hp & ->).
      exists r, (c + 1). cbn [right_stencil_at nth].
      split; [lia|]. split; [dlia | lia].
    + apply In_hex_stencil_l in Hrow; [|lia].
      destruct Hrow as (r & c & Hr & Hc & Hp & ->).
      exists r, (c - 1). cbn [left_stencil_at nth].
      split; [lia|]. split; [dlia | lia].
  - intros (r & c & Hr & Hc & ->).
    assert (D : (c + 1) mod 2 = r mod 2 \/ c mod 2 = r mod 2) by dlia.
    destruct D as [D|D].
    + right. apply (In_column 1) with (row := left_stencil_at (2 * m) r (c + 1));
        [|cbn; lia].
      apply In_hex_stencil_l; [lia|]. exists r, (c + 1).
      repeat split; try lia; dlia.
    + left. apply (In_column 2) with (row := right_stencil_at (2 * m) r (c - 1));
        [|cbn; lia].
      apply In_hex_stencil_r; [lia|]. exists r, (c - 1).
      repeat split; try lia; dlia.
Qed.

End Centres.

Import Centres.

(** X3: for every valid N, entry [k] of [hex_centr] is not the node that
    carries the diagonal coefficient of stencil [k] but its horizontal
    neighbour: the node to its right for the right stencils, the node to its
    left for the left stencils. *)
Theorem X3_hex_centr_is_the_neighbour (N : Z) :
  valid_N N ->
  hex_centr N
  = map (fun x => x + 1) (column 1 (hex_stencil_r N))
    ++ map (fun x => x - 1) (column 2 (hex_stencil_l N))
  /\ len (hex_centr N) = len (hex_diag_nodes N)
  /\ forall k, 0 <= k < len (hex_centr N) ->
       nth (Z.to_nat k) (hex_centr N) 0
       = nth (Z.to_nat k) (hex_diag_nodes N) 0
         + (if k <? len (hex_stencil_r N) then 1 else -1).
Proof.
  intros HN.
  assert (E : hex_centr N
              = map (fun x => x + 1) (column 1 (hex_stencil_r N))
                ++ map (fun x => x - 1) (column 2 (hex_stencil_l N))).
  { unfold hex_centr. f_equal.
    - apply (column_shape 2 1 1).
      eapply Forall_impl; [|apply hex_stencil_r_shape].
      intros row (b & ->). unfold r_row. cbn [nth]. lia.
    - rewrite (column_shape 1 2 (-1)).
      + apply map_ext. intros x. lia.
      + eapply Forall_impl; [|apply hex_stencil_l_shape].
        intros row (b & ->). unfold l_row. cbn [nth]. lia. }
  split; [exact E|].
  assert (L : len (hex_centr N) = len (hex_diag_nodes N)).
  { now rewrite len_hex_centr, len_hex_diag_nodes. }
  split; [exact L|].
  intros k Hk. rewrite E at 1. unfold hex_diag_nodes.
  assert (Lc : length (column 1 (hex_stencil_r N)) = length (hex_stencil_r N))
    by apply length_map.
  destruct (Z.ltb_spec k (len (hex_stencil_r N))) as [Hlt|Hge].
  - rewrite !app_nth1
      by (rewrite ?length_map; unfold column, len in *;
          rewrite ?length_map; lia).
    apply (nth_map_in (fun x => x + 1)). unfold len in *. lia.
  - rewrite !app_nth2
      by (rewrite ?length_map; unfold column, len in *;
          rewrite ?length_map; lia).
    rewrite length_map.
    rewrite (nth_map_in (fun x => x - 1) _ _ 0 0); [lia|].
    rewrite L in Hk. unfold hex_diag_nodes in Hk. rewrite len_app in Hk.
    unfold column, len in *. rewrite !length_map in *. lia.
Qed.

Lemma X3_hex_centr_is_the_neighbour_witness :
  hex_centr 6
  = map (fun x => x + 1) (column 1 (hex_stencil_r 6))
    ++ map (fun x => x - 1) (column 2 (hex_stencil_l 6))
  /\ len (hex_centr 6) = len (hex_diag_nodes 6)
  /\ forall k, 0 <= k < len (hex_centr 6) ->
       nth (Z.to_nat k) (hex_centr 6) 0
       = nth (Z.to_nat k) (hex_diag_nodes 6) 0
         + (if k <? len (hex_stencil_r 6) then 1 else -1).
Proof.
  apply (X3_hex_centr_is_the_neighbour 6). split; [reflexivity | lia].
Defined.

(** X4: for every valid N, the nodes that are both in the boundary list and
    in [hex_centr] are exactly the first and the last node of the odd rows
    3, 5, ..., N-3, and the nodes that are in neither list are exactly the
    second and the last but one node of the same rows. *)
Theorem X4_hex_centr_misplaced_nodes (N : Z) :
  valid_N N ->
  (forall x, In x (hex_bcs_all N) /\ In x (hex_centr N) <->
             exists r, 2 <= r <= N - 3 /\ r mod 2 = 1
                       /\ (x = r * N \/ x = r * N + (N - 1)))
  /\ (forall x, in_range N x /\ ~ In x (hex_bcs_all N ++ hex_centr N) <->
                exists r, 2 <= r <= N - 3 /\ r mod 2 = 1
                          /\ (x = r * N + 1 \/ x = r * N + (N - 2))).
Proof.
  intros HN. assert (H4 : 4 < N) by (destruct HN; lia).
  assert (Hfr := fun x => hex_bcs_all_frame N x HN).
  destruct (half_valid N HN) as (m & EN & Hm & _).
  assert (Hce : forall x, In x (hex_centr N) <->
            exists r c, 2 <= r <= N - 3
              /\ ((r mod 2 = 0 /\ 1 <= c <= N - 2)
                  \/ (r mod 2 = 1 /\ 0 <= c <= N - 1 /\ c <> 1 /\ c <> N - 2))
              /\ x = r * N + c).
  { intros x. rewrite EN. apply In_hex_centr. exact Hm. }
  split; intros x; split.
  - intros [Hb Hc]. apply Hfr in Hb. destruct Hb as [_ Hb].
    apply Hce in Hc. destruct Hc as (r & c & Hr & Hc & ->).
    rewrite div_rc, mod_rc in Hb by lia.
    exists r. split; [lia|]. split; [lia|]. lia.
  - intros (r & Hr & Ho & Hx). split.
    + apply Hfr. split; [unfold in_range; nia|].
      destruct Hx as [-> | ->].
      * replace (r * N) with (r * N + 0) by lia.
        rewrite mod_rc by lia. auto.
      * rewrite mod_rc by lia. auto.
    + apply Hce. destruct Hx as [-> | ->].
      * exists r, 0. split; [lia|]. split; [right; lia | lia].
      * exists r, (N - 1). split; [lia|]. split; [right; lia | lia].
  - intros [Hr Hn].
    destruct (rc_of N x) as (Ex & Hq & Hc); [lia | exact Hr |].
    assert (Hnb : ~ on_hex_boundary N x).
    { intros Hf. apply Hn, in_or_app. left. now apply Hfr. }
    assert (Hnc : ~ In x (hex_centr N)).
    { intros Hf. apply Hn, in_or_app. now right. }
    assert (Hi : 2 <= x / N <= N - 3 /\ 1 <= x mod N <= N - 2).
    { unfold on_hex_boundary, in_range in *. lia. }
    exists (x / N). split; [lia|].
    assert (D : x / N mod 2 = 1 /\ (x mod N = 1 \/ x mod N = N - 2)).
    { destruct (mod2_cases (x / N)) as [E0|E1].
      - exfalso. apply Hnc, Hce. exists (x / N), (x mod N).
        split; [lia|]. split; [left; lia | exact Ex].
      - split; [exact E1|].
        destruct (Z.eq_dec (x mod N) 1) as [|N1]; [now left|].
        destruct (Z.eq_dec (x mod N) (N - 2)) as [|N2]; [now right|].
        exfalso. apply Hnc, Hce. exists (x / N), (x mod N).
        split; [lia|]. split; [right; lia | exact Ex]. }
    split; [apply D|]. lia.
  - intros (r & Hr & Ho & Hx).
    assert (Hc : exists c, (c = 1 \/ c = N - 2) /\ x = r * N + c).
    { destruct Hx as [-> | ->]; eauto. }
    destruct Hc as (c & Hc & ->). split; [unfold in_range; nia|].
    intros Hin. apply in_app_or in Hin. destruct Hin as [Hin|Hin].
    + apply Hfr in Hin. destruct Hin as [_ Hin].
      rewrite div_rc, mod_rc in Hin by lia. lia.
    + apply Hce in Hin. destruct Hin as (r' & c' & Hr' & Hc' & E).
      assert (Er : r' = r).
      { rewrite <- (div_rc N r c), <- (div_rc N r' c') by lia. now rewrite E. }
      assert (Ec : c' = c) by (subst r'; lia).
      subst. lia.
Qed.

Lemma X4_hex_centr_misplaced_nodes_witness :
  (forall x, In x (hex_bcs_all 6) /\ In x (hex_centr 6) <->
             exists r, 2 <= r <= 6 - 3 /\ r mod 2 = 1
                       /\ (x = r * 6 \/ x = r * 6 + (6 - 1)))
  /\ (forall x, in_range 6 x /\ ~ In x (hex_bcs_all 6 ++ hex_centr 6) <->
                exists r, 2 <= r <= 6 - 3 /\ r mod 2 = 1
                          /\ (x = r * 6 + 1 \/ x = r * 6 + (6 - 2))).
Proof.
  apply (X4_hex_centr_misplaced_nodes 6). split; [reflexivity | lia].
Defined.

(** ** Stencils, hexagons and the short steps *)

Lemma gap_short_iff N r c :
  0 < N -> 0 <= r < N -> 0 <= c < N - 1 ->
  (gap N r c == short_x N)%Q <-> (c + 1) mod 2 = r mod 2.
Proof.
  intros HN Hr Hc. pose proof (hhat_pos N HN) as Hh.
  rewrite (gap_cases N r c Hr Hc).
  destruct (Z.eqb_spec ((c + 1) mod 2) (r mod 2)) as [E|E].
  - split; [auto | reflexivity].
  - split; [|contradiction]. unfold short_x, long_x. intros Hq. exfalso. lra.
Qed.

Lemma gap_long_iff N r c :
  0 < N -> 0 <= r < N -> 0 <= c < N - 1 ->
  (gap N r c == long_x N)%Q <-> (c + 1) mod 2 <> r mod 2.
Proof.
  intros HN Hr Hc. pose proof (hhat_pos N HN) as Hh.
  rewrite (gap_cases N r c Hr Hc).
  destruct (Z.eqb_spec ((c + 1) mod 2) (r mod 2)) as [E|E].
  - split; [|contradiction]. unfold short_x, long_x. intros Hq. exfalso. lra.
  - split; [auto | reflexivity].
Qed.

(** X5: for every valid N the right stencils are exactly the stencils
    (below, centre, right neighbour, above) of the nodes off the boundary
    whose step to the right is a short one, and the left stencils exactly
    the stencils (below, left neighbour, centre, above) of the nodes off the
    boundary whose step to the left is a short one; every node off the
    boundary has a short step on exactly one side. *)
Theorem X5_hex_stencil_families (N : Z) :
  valid_N N ->
  (forall row, In row (hex_stencil_r N) <->
     exists r c, 2 <= r <= N - 3 /\ 1 <= c <= N - 2
                 /\ (gap N r c == short_x N)%Q
                 /\ row = right_stencil_at N r c)
  /\ (forall row, In row (hex_stencil_l N) <->
        exists r c, 2 <= r <= N - 3 /\ 1 <= c <= N - 2
                    /\ (gap N r (c - 1) == short_x N)%Q
                    /\ row = left_stencil_at N r c)
  /\ (forall r c, 2 <= r <= N - 3 -> 1 <= c <= N - 2 ->
        (gap N r c == short_x N)%Q <-> ~ (gap N r (c - 1) == short_x N)%Q).
Proof.
  intros HN. assert (H4 : 4 < N) by (destruct HN; lia).
  destruct (half_valid N HN) as (m & EN & Hm & _).
  split; [|split].
  - intros row. rewrite EN at 1. rewrite In_hex_stencil_r by exact Hm.
    rewrite <- EN. split; intros (r & c & Hr & Hc & Hp & E); exists r, c;
      (split; [exact Hr|]; split; [exact Hc|]; split; [|exact E]).
    + apply gap_short_iff; [lia | lia | lia | exact Hp].
    + apply gap_short_iff in Hp; [exact Hp | lia | lia | lia].
  - intros row. rewrite EN at 1. rewrite In_hex_stencil_l by exact Hm.
    rewrite <- EN. split; intros (r & c & Hr & Hc & Hp & E); exists r, c;
      (split; [exact Hr|]; split; [exact Hc|]; split; [|exact E]).
    + apply gap_short_iff; [lia | lia | lia |].
      replace (c - 1 + 1) with c by lia. exact Hp.
    + apply gap_short_iff in Hp; [|lia | lia | lia].
      replace (c - 1 + 1) with c in Hp by lia. exact Hp.
  - intros r c Hr Hc. rewrite !gap_short_iff by lia.
    replace (c - 1 + 1) with c by lia. dlia.
Qed.

Lemma X5_hex_stencil_families_witness :
  (forall row, In row (hex_stencil_r 6) <->
     exists r c, 2 <= r <= 6 - 3 /\ 1 <= c <= 6 - 2
                 /\ (gap 6 r c == short_x 6)%Q
                 /\ row = right_stencil_at 6 r c)
  /\ (forall row, In row (hex_stencil_l 6) <->
        exists r c, 2 <= r <= 6 - 3 /\ 1 <= c <= 6 - 2
                    /\ (gap 6 r (c - 1) == short_x 6)%Q
                    /\ row = left_stencil_at 6 r c)
  /\ (forall r c, 2 <= r <= 6 - 3 -> 1 <= c <= 6 - 2 ->
        (gap 6 r c == short_x 6)%Q <-> ~ (gap 6 r (c - 1) == short_x 6)%Q).
Proof. apply (X5_hex_stencil_families 6). split; [reflexivity | lia]. Defined.

Lemma len_hex_polys N :
  valid_N N -> len (hex_polys N) = (N / 2 - 1) * (N - 1).
Proof.
  intros H. rewrite hex_polys_eq.
  destruct (half_valid N H) as (m & -> & Hm & ->).
  replace (2 * m / 2) with m by (rewrite Z.mul_comm, Z.div_mul; lia).
  rewrite (len_blocks _ 0 (m - 1) (2 * m - 1)); try lia.
  intros j Hj.
  rewrite len_app, !len_block, len_removelast, len_evens; try lia;
    rewrite len_evens; lia.
Qed.

(** X6: for every valid N the polygon list of the hexagonal mesh has
    (N/2 - 1) * (N - 1) polygons of six different nodes each, and they are
    exactly the hexagons whose lower edge is a short step: the lower edge
    from (r, c) to (r, c+1), the upper edge two rows above it, also a short
    step, and between them the two nodes of row r+1, a long step apart. *)
Theorem X6_hex_polys_are_hexagons (N : Z) :
  valid_N N ->
  len (hex_polys N) = (N / 2 - 1) * (N - 1)
  /\ (forall p, In p (hex_polys N) <->
        exists r c, 0 <= r <= N - 3 /\ 0 <= c <= N - 2
                    /\ (gap N r c == short_x N)%Q
                    /\ p = hexagon_at N r c)
  /\ (forall r c, 0 <= r <= N - 3 -> 0 <= c <= N - 2 ->
        (gap N r c == short_x N)%Q ->
        (gap N (r + 1) c == long_x N)%Q /\ (gap N (r + 2) c == short_x N)%Q)
  /\ Forall (fun p => NoDup p /\ length p = 6%nat) (hex_polys N).
Proof.
  intros HN. assert (H4 : 4 < N) by (destruct HN; lia).
  destruct (half_valid N HN) as (m & EN & Hm & _).
  assert (Hin : forall p, In p (hex_polys N) <->
        exists r c, 0 <= r <= N - 3 /\ 0 <= c <= N - 2
                    /\ (c + 1) mod 2 = r mod 2 /\ p = hexagon_at N r c).
  { intros p. rewrite EN. apply In_hex_polys, Hm. }
  split; [apply len_hex_polys, HN|]. split; [|split].
  - intros p. rewrite Hin.
    split; intros (r & c & Hr & Hc & Hp & E); exists r, c;
      (split; [exact Hr|]; split; [exact Hc|]; split; [|exact E]).
    + apply gap_short_iff; [lia | lia | lia | exact Hp].
    + apply gap_short_iff in Hp; [exact Hp | lia | lia | lia].
  - intros r c Hr Hc Hp. apply gap_short_iff in Hp; [|lia | lia | lia]. split.
    + apply gap_long_iff; [lia | lia | lia | dlia].
    + apply gap_short_iff; [lia | lia | lia | dlia].
  - apply Forall_forall. intros p Hp. apply Hin in Hp.
    destruct Hp as (r & c & Hr & Hc & _ & ->). split; [|reflexivity].
    unfold hexagon_at.
    repeat constructor; cbn [In]; intros E; repeat destruct E as [E|E]; nia.
Qed.

Lemma X6_hex_polys_are_hexagons_witness :
  len (hex_polys 6) = (6 / 2 - 1) * (6 - 1)
  /\ (forall p, In p (hex_polys 6) <->
        exists r c, 0 <= r <= 6 - 3 /\ 0 <= c <= 6 - 2
                    /\ (gap 6 r c == short_x 6)%Q
                    /\ p = hexagon_at 6 r c)
  /\ (forall r c, 0 <= r <= 6 - 3 -> 0 <= c <= 6 - 2 ->
        (gap 6 r c == short_x 6)%Q ->
        (gap 6 (r + 1) c == long_x 6)%Q /\ (gap 6 (r + 2) c == short_x 6)%Q)
  /\ Forall (fun p => NoDup p /\ length p = 6%nat) (hex_polys 6).
Proof. apply (X6_hex_polys_are_hexagons 6). split; [reflexivity | lia]. Defined.

(** ** Coordinates, node by node *)

Module Coordinates.

Local Open Scope Q_scope.

Lemma nth_concat_rows {A} (rows : list (list A)) (w j i : nat) (d : A) :
  Forall (fun r => length r = w) rows -> (i < w)%nat -> (j < length rows)%nat ->
  nth (j * w + i) (concat rows) d = nth i (nth j rows []) d.
Proof.
  intros Hrows Hi. revert j.
  induction Hrows as [|r rows Hr _ IH]; intros j Hj; [cbn in Hj; lia|].
  destruct j as [|j]; cbn [concat nth].
  - rewrite app_nth1 by lia. reflexivity.
  - rewrite app_nth2 by (rewrite Hr; cbn; lia).
    replace (S j * w + i - length r)%nat with (j * w + i)%nat
      by (rewrite Hr; cbn; lia).
    apply IH. cbn in Hj. lia.
Qed.

Lemma nth_on_grid {A B C} (f : A -> B -> C) xs ys (i j : nat) da db dc :
  (i < length xs)%nat -> (j < length ys)%nat ->
  nth (j * length xs + i) (hstack (on_grid f xs ys)) dc
  = f (nth i xs da) (nth j ys db).
Proof.
  intros Hi Hj. unfold hstack, on_grid.
  rewrite nth_concat_rows; [| |exact Hi|now rewrite length_map].
  - rewrite (nth_map_in (fun y => map (fun x => f x y) xs) ys j [] db) by exact Hj.
    apply (nth_map_in (fun x => f x (nth j ys db))). exact Hi.
  - apply Forall_map, Forall_forall. intros y _. apply length_map.
Qed.

Lemma node_index (N i j : Z) :
  (0 <= i < N)%Z -> (0 <= j < N)%Z ->
  Z.to_nat (j * N + i) = (Z.to_nat j * Z.to_nat N + Z.to_nat i)%nat.
Proof. intros Hi Hj. nia. Qed.

Lemma amax_eq l b x :
  (forall v, In v l -> v <= b) -> In x l -> x == b -> amax l == b.
Proof.
  intros Hle Hx Ex. apply Qle_antisym.
  - destruct (amax_attained l) as (y & Hy & Ey).
    { intros E. rewrite E in Hx. destruct Hx. }
    rewrite Ey. apply Hle, Hy.
  - rewrite <- Ex. apply amax_ge, Hx.
Qed.

Lemma nth_linspace N k :
  (1 < N)%Z -> (0 <= k < N)%Z ->
  nth (Z.to_nat k) (linspace 0 1 N) 0 == inject_Z k / inject_Z (N - 1).
Proof.
  intros HN Hk. unfold linspace.
  rewrite nth_map_arange by lia. rewrite Z.add_0_l.
  assert (0 < inject_Z (N - 1)).
  { change 0 with (inject_Z 0). rewrite <- Zlt_Qlt. lia. }
  field. lra.
Qed.

Lemma nth_rect_x N i j :
  (1 < N)%Z -> (0 <= i < N)%Z -> (0 <= j < N)%Z ->
  nth (Z.to_nat (j * N + i)) (rect_x N) 0 == inject_Z i / inject_Z (N - 1).
Proof.
  intros HN Hi Hj. rewrite rect_x_eq, node_index by lia.
  rewrite <- (length_linspace 0 1 N).
  rewrite (nth_on_grid (fun x (_ : Q) => x) _ _ _ _ 0 0 0)
    by (rewrite length_linspace; lia).
  now apply nth_linspace.
Qed.

Lemma nth_rect_y N i j :
  (1 < N)%Z -> (0 <= i < N)%Z -> (0 <= j < N)%Z ->
  nth (Z.to_nat (j * N + i)) (rect_y N) 0 == inject_Z j / inject_Z (N - 1).
Proof.
  intros HN Hi Hj. rewrite rect_y_eq, node_index by lia.
  rewrite <- (length_linspace 0 1 N).
  rewrite (nth_on_grid (fun (_ : Q) y => y) _ _ _ _ 0 0 0)
    by (rewrite length_linspace; lia).
  now apply nth_linspace.
Qed.

Lemma nth_normalise a k :
  (k < length (hstack a))%nat ->
  nth k (normalise a) 0 = nth k (hstack a) 0 / amax (hstack a).
Proof.
  intros H. unfold normalise.
  apply (nth_map_in (fun v => v / amax (hstack a))). exact H.
Qed.

Lemma amax_hex_y_raw N sqrt3 :
  (1 < N)%Z -> 0 < sqrt3 ->
  amax (hstack (hex_y_raw N sqrt3)) == off_y N sqrt3 * inject_Z (N - 1).
Proof.
  intros HN Hs. pose proof (off_y_pos N sqrt3) as Hy.
  assert (Hy' : 0 < off_y N sqrt3) by (apply Hy; [lia | exact Hs]).
  apply amax_eq with (x := off_y N sqrt3 * inject_Z (N - 1)).
  - intros v Hv. unfold hex_y_raw, hstack, on_grid in Hv.
    apply in_concat in Hv. destruct Hv as (row & Hrow & Hv).
    apply in_map_iff in Hrow. destruct Hrow as (j & <- & Hj).
    apply in_map_iff in Hv. destruct Hv as (i & <- & _).
    apply In_arange in Hj.
    assert (inject_Z j <= inject_Z (N - 1)) by (rewrite <- Zle_Qle; lia).
    apply Qmult_le_l; assumption.
  - unfold hex_y_raw.
    apply (In_on_grid (fun (i j : Z) => off_y N sqrt3 * inject_Z j)
                      _ _ 0%Z (N - 1)%Z); apply In_arange; lia.
  - reflexivity.
Qed.

Lemma nth_hex_y N sqrt3 i j :
  (1 < N)%Z -> 0 < sqrt3 -> (0 <= i < N)%Z -> (0 <= j < N)%Z ->
  nth (Z.to_nat (j * N + i)) (hex_y N sqrt3) 0
  == inject_Z j / inject_Z (N - 1).
Proof.
  intros HN Hs Hi Hj. unfold hex_y.
  assert (Hlen : length (arange 0 N) = Z.to_nat N)
    by (rewrite arange_length; f_equal; lia).
  rewrite nth_normalise.
  2:{ unfold hex_y_raw. rewrite length_on_grid, Hlen. nia. }
  rewrite amax_hex_y_raw by assumption.
  rewrite node_index by lia. unfold hex_y_raw. rewrite <- Hlen at 1.
  rewrite (nth_on_grid (fun (i j : Z) => off_y N sqrt3 * inject_Z j)
                       _ _ _ _ 0%Z 0%Z 0) by (rewrite Hlen; lia).
  rewrite nth_arange by lia. rewrite Z2Nat.id, Z.add_0_l by lia.
  pose proof (off_y_pos N sqrt3) as Hy.
  assert (Hy' : 0 < off_y N sqrt3) by (apply Hy; [lia | exact Hs]).
  assert (0 < inject_Z (N - 1)).
  { change 0 with (inject_Z 0). rewrite <- Zlt_Qlt. lia. }
  field. split; lra.
Qed.

End Coordinates.

Import Coordinates.

(** X7: in exact arithmetic, for every valid N, node [j*N + i] of the
    rectangular mesh has the coordinates (i/(N-1), j/(N-1)), and the node
    with that index in the hexagonal mesh has the y coordinate j/(N-1),
    whatever positive value [np.sqrt(3.0)] has: dividing by the maximum
    cancels the row height.  The rectangular nodes are 1/(N-1) apart, while
    the coefficients use [h = 1/N].  (Rounding is left out: the floats of
    [hex_y] and [rect_y] come from different operations and need not agree
    in the last digit.) *)
Theorem X7_rect_coordinates_and_hex_y (N : Z) (sqrt3 : Q) (i j : Z) :
  valid_N N -> (0 < sqrt3)%Q -> 0 <= i < N -> 0 <= j < N ->
  let node := Z.to_nat (j * N + i) in
  (nth node (rect_x N) 0 == inject_Z i / inject_Z (N - 1))%Q
  /\ (nth node (rect_y N) 0 == inject_Z j / inject_Z (N - 1))%Q
  /\ (nth node (hex_y N sqrt3) 0 == inject_Z j / inject_Z (N - 1))%Q
  /\ (i < N - 1 ->
      (nth (S node) (rect_x N) 0 - nth node (rect_x N) 0
       == 1 / inject_Z (N - 1))%Q)
  /\ ~ (h N == 1 / inject_Z (N - 1))%Q.
Proof.
  intros [_ HN] Hs Hi Hj node.
  assert (Hx := nth_rect_x N i j ltac:(lia) Hi Hj).
  assert (Hy := nth_rect_y N i j ltac:(lia) Hi Hj).
  assert (Hd : (0 < inject_Z (N - 1))%Q).
  { change 0%Q with (inject_Z 0). rewrite <- Zlt_Qlt. lia. }
  assert (HdN : (0 < inject_Z N)%Q).
  { change 0%Q with (inject_Z 0). rewrite <- Zlt_Qlt. lia. }
  split; [exact Hx|]. split; [exact Hy|]. split; [|split].
  - unfold node. apply nth_hex_y; try assumption. lia.
  - intros Hi'. replace (S node) with (Z.to_nat (j * N + (i + 1)))
      by (unfold node; lia).
    rewrite (nth_rect_x N (i + 1) j) by lia. unfold node. rewrite Hx.
    rewrite inject_Z_plus. change (inject_Z 1) with 1%Q. field. lra.
  - unfold h. intros E.
    assert (E' : (inject_Z (N - 1) == inject_Z N)%Q).
    { transitivity (1 / (1 / inject_Z (N - 1)))%Q; [field; lra|].
      rewrite <- E. field. lra. }
    rewrite inject_Z_injective in E'. lia.
Qed.

Lemma X7_rect_coordinates_and_hex_y_witness :
  let node := Z.to_nat (2 * 6 + 3) in
  (nth node (rect_x 6) 0 == inject_Z 3 / inject_Z (6 - 1))%Q
  /\ (nth node (rect_y 6) 0 == inject_Z 2 / inject_Z (6 - 1))%Q
  /\ (nth node (hex_y 6 sqrt3_float) 0 == inject_Z 2 / inject_Z (6 - 1))%Q
  /\ (3 < 6 - 1 ->
      (nth (S node) (rect_x 6) 0 - nth node (rect_x 6) 0
       == 1 / inject_Z (6 - 1))%Q)
  /\ ~ (h 6 == 1 / inject_Z (6 - 1))%Q.
Proof.
  apply (X7_rect_coordinates_and_hex_y 6 sqrt3_float 3 2).
  - split; [reflexivity | lia].
  - reflexivity.
  - lia.
  - lia.
Defined.

(** ** The x coordinates of the hexagonal grid *)

Module HexX.

Local Open Scope Q_scope.

Lemma half_units_succ j i :
  (0 <= i)%Z ->
  half_units j (i + 1)
  = (half_units j i + (if ((i + 1) mod 2 =? j mod 2)%Z then 2 else 4))%Z.
Proof.
  intros Hi. unfold half_units.
  destruct (Z.eqb_spec (j mod 2) 1), (Z.eqb_spec ((i + 1) mod 2) (j mod 2));
    Z.to_euclidean_division_equations; lia.
Qed.

Lemma half_units_bounds N j i :
  (N mod 2 = 0)%Z -> (0 <= i < N)%Z ->
  (0 <= half_units j i <= 3 * N - 2)%Z.
Proof.
  intros HN Hi. unfold half_units.
  destruct (Z.eqb_spec (j mod 2) 1);
    Z.to_euclidean_division_equations; lia.
Qed.

Lemma half_units_last N :
  (N mod 2 = 0)%Z -> (0 < N)%Z -> half_units 0 (N - 1) = (3 * N - 2)%Z.
Proof.
  intros HN H0. unfold half_units. cbn [Z.eqb Z.modulo].
  change (0 mod 2)%Z with 0%Z. cbn [Z.eqb].
  Z.to_euclidean_division_equations; lia.
Qed.

Lemma length_hex_row N j : (0 < N)%Z -> length (hex_row N j) = Z.to_nat N.
Proof.
  intros H. unfold hex_row, cumsum. rewrite cumsum_from_length. cbn [length].
  rewrite length_map, arange_length. lia.
Qed.

Lemma nth_hex_row N j (k : nat) :
  (0 < N)%Z -> (k < Z.to_nat N)%nat ->
  nth k (hex_row N j) 0 == off_x N * inject_Z (half_units j (Z.of_nat k)).
Proof.
  intros HN. induction k as [|k IH]; intros Hk.
  - unfold hex_row, cumsum, start_x, half_units. cbn [cumsum_from nth Z.of_nat].
    change (0 / 2)%Z with 0%Z. change (0 mod 2)%Z with 0%Z.
    destruct (Z.eqb_spec (j mod 2) 1) as [E|E].
    + rewrite E. cbn. ring.
    + replace (j mod 2)%Z with 0%Z
        by (Z.to_euclidean_division_equations; lia).
      cbn. ring.
  - assert (Hd := cumsum_from_diff
                    (start_x N j :: map (fun i => step_x N i j) (arange 0 (N - 1)))
                    0 k).
    fold (cumsum (start_x N j :: map (fun i => step_x N i j) (arange 0 (N - 1))))
      in Hd.
    fold (hex_row N j) in Hd.
    assert (Hlen : (S k < length (start_x N j
                      :: map (fun i => step_x N i j) (arange 0 (N - 1))))%nat).
    { cbn [length]. rewrite length_map, arange_length. lia. }
    specialize (Hd Hlen). cbn [nth] in Hd.
    rewrite <- (Nat2Z.id k) in Hd at 3.
    rewrite nth_map_arange in Hd by lia. rewrite Z.add_0_l in Hd.
    rewrite step_x_cases in Hd.
    specialize (IH ltac:(lia)).
    replace (Z.of_nat (S k)) with (Z.of_nat k + 1)%Z by lia.
    rewrite half_units_succ by lia. rewrite inject_Z_plus.
    assert (Hs : nth (S k) (hex_row N j) 0
                 == nth k (hex_row N j) 0
                    + (if ((Z.of_nat k + 1) mod 2 =? j mod 2)%Z
                       then short_x N else long_x N)) by lra.
    rewrite Hs, IH. unfold short_x, long_x, off_x.
    destruct (_ =? _)%Z.
    + change (inject_Z 2) with 2. ring.
    + change (inject_Z 4) with 4. ring.
Qed.

Lemma hex_x_raw_rows N : hex_x_raw N = map (hex_row N) (arange 0 N).
Proof. apply hex_x_raw_eq. Qed.

Lemma nth_hex_x_raw N i j :
  (0 < N)%Z -> (0 <= i < N)%Z -> (0 <= j < N)%Z ->
  nth (Z.to_nat (j * N + i)) (hstack (hex_x_raw N)) 0
  == off_x N * inject_Z (half_units j i).
Proof.
  intros HN Hi Hj. rewrite hex_x_raw_rows, node_index by lia.
  unfold hstack. rewrite nth_concat_rows.
  - rewrite nth_map_arange by lia. rewrite Z.add_0_l.
    rewrite nth_hex_row by lia. now rewrite Z2Nat.id by lia.
  - apply Forall_map, Forall_forall. intros r _. now apply length_hex_row.
  - lia.
  - rewrite length_map, arange_length. lia.
Qed.

Lemma amax_hex_x_raw N :
  (N mod 2 = 0)%Z -> (0 < N)%Z ->
  amax (hstack (hex_x_raw N)) == off_x N * inject_Z (3 * N - 2).
Proof.
  intros Hev HN.
  assert (Hoff : 0 < off_x N).
  { pose proof (hhat_pos N HN). unfold off_x. lra. }
  apply amax_eq with (x := nth (Z.to_nat (0 * N + (N - 1))) (hstack (hex_x_raw N)) 0).
  - intros v Hv. rewrite hex_x_raw_rows in Hv. unfold hstack in Hv.
    apply in_concat in Hv. destruct Hv as (row & Hrow & Hv).
    apply in_map_iff in Hrow. destruct Hrow as (j & <- & Hj).
    apply (In_nth _ _ 0) in Hv. destruct Hv as (k & Hk & <-).
    rewrite length_hex_row in Hk by exact HN.
    rewrite nth_hex_row by assumption.
    apply Qmult_le_l; [exact Hoff|]. rewrite <- Zle_Qle.
    apply (half_units_bounds N j (Z.of_nat k)); [exact Hev | lia].
  - apply nth_In. rewrite hex_x_raw_rows. unfold hstack.
    rewrite (length_concat_const (Z.to_nat N)).
    + rewrite length_map, arange_length. nia.
    + apply Forall_map, Forall_forall. intros r _. now apply length_hex_row.
  - rewrite nth_hex_x_raw by lia. now rewrite half_units_last.
Qed.

Lemma nth_hex_x N i j :
  (N mod 2 = 0)%Z -> (0 < N)%Z -> (0 <= i < N)%Z -> (0 <= j < N)%Z ->
  nth (Z.to_nat (j * N + i)) (hex_x N) 0
  == inject_Z (half_units j i) / inject_Z (3 * N - 2).
Proof.
  intros Hev HN Hi Hj. unfold hex_x.
  rewrite nth_normalise.
  2:{ pose proof (length_hex_x N HN) as L. unfold len, hex_x in L.
      rewrite length_normalise in L. nia. }
  rewrite amax_hex_x_raw, nth_hex_x_raw by assumption.
  assert (Hoff : 0 < off_x N).
  { pose proof (hhat_pos N HN). unfold off_x. lra. }
  assert (0 < inject_Z (3 * N - 2)).
  { change 0 with (inject_Z 0). rewrite <- Zlt_Qlt. lia. }
  field. split; lra.
Qed.

End HexX.

Import HexX.

(** X8: for every valid N, node [j*N + i] of the hexagonal mesh has the x
    coordinate [half_units j i / (3N - 2)]: along an even row 0, 4, 6, 10,
    12, ... and along an odd row 1, 3, 7, 9, 13, ..., each divided by
    3N - 2.  Along a row the coordinate grows by 2/(3N-2) over a short step
    and by 4/(3N-2) over a long one, and the short step is not the
    [h = 1/N] of the coefficients. *)
Theorem X8_hex_x_closed_form (N i j : Z) :
  valid_N N -> 0 <= i < N -> 0 <= j < N ->
  let node := Z.to_nat (j * N + i) in
  (nth node (hex_x N) 0 == inject_Z (half_units j i) / inject_Z (3 * N - 2))%Q
  /\ (i < N - 1 ->
      (nth (S node) (hex_x N) 0 - nth node (hex_x N) 0
       == (if (i + 1) mod 2 =? j mod 2 then 2 else 4) / inject_Z (3 * N - 2))%Q)
  /\ ~ (h N == 2 / inject_Z (3 * N - 2))%Q.
Proof.
  intros [Hev HN] Hi Hj node.
  assert (Hx := nth_hex_x N i j Hev ltac:(lia) Hi Hj).
  assert (Hd : (0 < inject_Z (3 * N - 2))%Q).
  { change 0%Q with (inject_Z 0). rewrite <- Zlt_Qlt. lia. }
  assert (HdN : (0 < inject_Z N)%Q).
  { change 0%Q with (inject_Z 0). rewrite <- Zlt_Qlt. lia. }
  split; [exact Hx|]. split.
  - intros Hi'. replace (S node) with (Z.to_nat (j * N + (i + 1)))
      by (unfold node; lia).
    rewrite (nth_hex_x N (i + 1) j) by lia. unfold node. rewrite Hx.
    rewrite half_units_succ by lia. rewrite inject_Z_plus.
    destruct (_ =? _).
    + change (inject_Z 2) with 2%Q. field. lra.
    + change (inject_Z 4) with 4%Q. field. lra.
  - unfold h. intros E.
    assert (E' : (inject_Z (3 * N - 2) == inject_Z (2 * N))%Q).
    { rewrite (inject_Z_mult 2 N). change (inject_Z 2) with 2%Q.
      transitivity (2 / (2 / inject_Z (3 * N - 2)))%Q; [field; lra|].
      rewrite <- E. field. lra. }
    rewrite inject_Z_injective in E'. lia.
Qed.

Lemma X8_hex_x_closed_form_witness :
  let node := Z.to_nat (3 * 6 + 2) in
  (nth node (hex_x 6) 0 == inject_Z (half_units 3 2) / inject_Z (3 * 6 - 2))%Q
  /\ (2 < 6 - 1 ->
      (nth (S node) (hex_x 6) 0 - nth node (hex_x 6) 0
       == (if (2 + 1) mod 2 =? 3 mod 2 then 2 else 4) / inject_Z (3 * 6 - 2))%Q)
  /\ ~ (h 6 == 2 / inject_Z (3 * 6 - 2))%Q.
Proof.
  apply (X8_hex_x_closed_form 6 2 3).
  - split; [reflexivity | lia].
  - lia.
  - lia.
Defined.

Lemma half_units_hexagon r c :
  0 <= r -> 0 <= c -> (c + 1) mod 2 = r mod 2 ->
  half_units (r + 1) c = half_units r c - 1
  /\ half_units (r + 2) c = half_units r c
  /\ half_units r (c + 1) = half_units r c + 2
  /\ half_units (r + 1) (c + 1) = half_units r c + 3
  /\ half_units (r + 2) (c + 1) = half_units r c + 2.
Proof.
  intros Hr Hc Hp. unfold half_units.
  destruct (Z.eqb_spec (r mod 2) 1), (Z.eqb_spec ((r + 1) mod 2) 1),
    (Z.eqb_spec ((r + 2) mod 2) 1);
    Z.to_euclidean_division_equations; lia.
Qed.

(** X9: for every valid N, a hexagon of the polygon list with lower left
    node (r, c) at (X, Y) is drawn through (X, Y), (X - u, Y + v),
    (X, Y + 2v), (X + 2u, Y + 2v), (X + 3u, Y + v) and (X + 2u, Y), where
    u = 1/(3N - 2) and v = 1/(N - 1): all hexagons are translates of one
    outline, and after the two normalisations its horizontal side 2u and
    its slanted side, u across and v up, differ in length. *)
Theorem X9_hexagon_outline (N : Z) (sqrt3 : Q) (r c : Z) :
  valid_N N -> (0 < sqrt3)%Q ->
  0 <= r <= N - 3 -> 0 <= c <= N - 2 -> (c + 1) mod 2 = r mod 2 ->
  let u := (1 / inject_Z (3 * N - 2))%Q in
  let v := (1 / inject_Z (N - 1))%Q in
  let X := fst (vertex N sqrt3 (r * N + c)) in
  let Y := snd (vertex N sqrt3 (r * N + c)) in
  In (hexagon_at N r c) (hex_polys N)
  /\ same_points (map (vertex N sqrt3) (hexagon_at N r c))
       [ (X, Y); (X - u, Y + v); (X, Y + 2 * v); (X + 2 * u, Y + 2 * v);
         (X + 3 * u, Y + v); (X + 2 * u, Y) ]%Q
  /\ ~ ((2 * u) * (2 * u) == u * u + v * v)%Q.
Proof.
  intros HN Hs Hr Hc Hp u v X Y.
  destruct (half_valid N HN) as (m & EN & Hm & _).
  destruct HN as [Hev H4].
  assert (Hu : (0 < inject_Z (3 * N - 2))%Q).
  { change 0%Q with (inject_Z 0). rewrite <- Zlt_Qlt. lia. }
  assert (Hv : (0 < inject_Z (N - 1))%Q).
  { change 0%Q with (inject_Z 0). rewrite <- Zlt_Qlt. lia. }
  destruct (half_units_hexagon r c ltac:(lia) ltac:(lia) Hp)
    as (E1 & E2 & E3 & E4 & E5).
  assert (Hx : forall j i, 0 <= i < N -> 0 <= j < N ->
             (fst (vertex N sqrt3 (j * N + i))
              == inject_Z (half_units j i) / inject_Z (3 * N - 2))%Q).
  { intros j i Hi Hj. apply nth_hex_x; assumption || lia. }
  assert (Hy : forall j i, 0 <= i < N -> 0 <= j < N ->
             (snd (vertex N sqrt3 (j * N + i))
              == inject_Z j / inject_Z (N - 1))%Q).
  { intros j i Hi Hj. apply nth_hex_y; assumption || lia. }
  split; [|split].
  - rewrite EN. apply In_hex_polys; [exact Hm|].
    exists r, c. rewrite <- EN. auto.
  - unfold hexagon_at, same_points. cbn [map].
    replace (r * N + c + 1) with (r * N + (c + 1)) by lia.
    replace ((r + 1) * N + c + 1) with ((r + 1) * N + (c + 1)) by lia.
    replace ((r + 2) * N + c + 1) with ((r + 2) * N + (c + 1)) by lia.
    unfold X, Y.
    repeat apply Forall2_cons; try apply Forall2_nil; cbn [fst snd];
      rewrite ?Hx, ?Hy by lia;
      rewrite ?E1, ?E2, ?E3, ?E4, ?E5;
      unfold u, v;
      replace (half_units r c - 1) with (half_units r c + (-1)) by lia;
      rewrite ?inject_Z_plus;
      change (inject_Z 1) with 1%Q; change (inject_Z 2) with 2%Q;
      change (inject_Z 3) with 3%Q; change (inject_Z (-1)) with (-1)%Q;
      (split; field; lra).
  - unfold u, v. intros E.
    assert (E' : (3 * (inject_Z (N - 1) * inject_Z (N - 1))
                  == inject_Z (3 * N - 2) * inject_Z (3 * N - 2))%Q).
    { assert (Ea : (3 * (1 / inject_Z (3 * N - 2)) * (1 / inject_Z (3 * N - 2))
                    == 1 / inject_Z (N - 1) * (1 / inject_Z (N - 1)))%Q) by lra.
      transitivity ((3 * (1 / inject_Z (3 * N - 2)) * (1 / inject_Z (3 * N - 2)))
                    * (inject_Z (N - 1) * inject_Z (N - 1))
                    * (inject_Z (3 * N - 2) * inject_Z (3 * N - 2)))%Q;
        [field; lra|].
      rewrite Ea. field. lra. }
    rewrite <- !inject_Z_mult in E'.
    change 3%Q with (inject_Z 3) in E'. rewrite <- inject_Z_mult in E'.
    rewrite inject_Z_injective in E'. nia.
Qed.

Lemma X9_hexagon_outline_witness :
  let u := (1 / inject_Z (3 * 6 - 2))%Q in
  let v := (1 / inject_Z (6 - 1))%Q in
  let X := fst (vertex 6 sqrt3_float (1 * 6 + 2)) in
  let Y := snd (vertex 6 sqrt3_float (1 * 6 + 2)) in
  In (hexagon_at 6 1 2) (hex_polys 6)
  /\ same_points (map (vertex 6 sqrt3_float) (hexagon_at 6 1 2))
       [ (X, Y); (X - u, Y + v); (X, Y + 2 * v); (X + 2 * u, Y + 2 * v);
         (X + 3 * u, Y + v); (X + 2 * u, Y) ]%Q
  /\ ~ ((2 * u) * (2 * u) == u * u + v * v)%Q.
Proof.
  apply (X9_hexagon_outline 6 sqrt3_float 1 2).
  - split; [reflexivity | lia].
  - reflexivity.
  - lia.
  - lia.
  - reflexivity.
Defined.

(** ** The right-hand sides of a step *)

Module Rows.

Lemma slice_full (rv tail rc : list Q) :
  (length (rv ++ tail) = length rv + length rc)%nat ->
  firstn (length rv) (rv ++ tail) ++ rc
    ++ skipn (length rv + length rc) (rv ++ tail)
  = rv ++ rc.
Proof.
  intros H. rewrite skipn_all2 by lia. rewrite app_nil_r.
  rewrite firstn_app, firstn_all, Nat.sub_diag, firstn_O, app_nil_r.
  reflexivity.
Qed.

Lemma step_rhs_closed N sqrt3 e st :
  valid_N N -> well_formed N st ->
  step_rhs N sqrt3 e (rect_system N e) (hex_system N sqrt3 e) st
  = Some (next_rhs e (time st) (rect_x N) (rect_y N)
                   (rect_bcs_all N) (rect_centr N) (rect_u st),
          next_rhs e (time st) (hex_x N) (hex_y N sqrt3)
                   (hex_bcs_all N) (hex_centr N) (hex_u st)).
Proof.
  intros HN (Lru & Lhu & Lrr & Lhr). assert (H0 : 0 < N) by (destruct HN; lia).
  pose proof (rect_rows_total N HN) as Tr.
  pose proof (hex_rows_total N HN) as Th.
  pose proof (len_hex_centr N HN) as Lc.
  pose proof (len_hex_stencil_r N HN) as Lsr.
  pose proof (len_hex_stencil_l N HN) as Lsl.
  unfold step_rhs.
  rewrite (take_in_range (rect_x N) _ 0%Q), (take_in_range (rect_y N) _ 0%Q)
    by (apply (Forall_in_range_len N);
        [apply length_rect_x, H0 || apply length_rect_y, H0
        | apply rect_bcs_all_in_range, HN]).
  cbn [obind].
  fold (boundary_values e (time st) (rect_x N) (rect_y N) (rect_bcs_all N)).
  set (rv := boundary_values e (time st) (rect_x N) (rect_y N) (rect_bcs_all N)).
  assert (Lrv : length rv = length (rect_bcs_all N))
    by apply length_boundary_values.
  rewrite (put_boundary (rect_rhs st) rv)
    by (unfold len in *; lia).
  cbn [obind].
  rewrite (take_in_range (hex_x N) _ 0%Q), (take_in_range (hex_y N sqrt3) _ 0%Q)
    by (apply (Forall_in_range_len N);
        [apply length_hex_x, H0 || apply length_hex_y, H0
        | apply hex_bcs_all_in_range, HN]).
  cbn [obind].
  fold (boundary_values e (time st) (hex_x N) (hex_y N sqrt3) (hex_bcs_all N)).
  set (hv := boundary_values e (time st) (hex_x N) (hex_y N sqrt3)
                             (hex_bcs_all N)).
  assert (Lhv : length hv = length (hex_bcs_all N))
    by apply length_boundary_values.
  rewrite (put_boundary (hex_rhs st) hv)
    by (unfold len in *; lia).
  cbn [obind].
  rewrite (take_in_range (rect_u st) _ 0%Q)
    by (apply (Forall_in_range_len N);
        [exact Lru | apply rect_centr_in_range, HN]).
  cbn [obind sys_bulk_rhs_rows rect_system].
  rewrite map_map.
  set (rc := map (fun c => (- nth (Z.to_nat c) (rect_u st) 0 / dt)%Q)
                 (rect_centr N)).
  assert (Lrc : len rc = len (rect_centr N))
    by (unfold rc, len; now rewrite !length_map).
  set (r1 := rv ++ skipn (length rv) (rect_rhs st)).
  assert (Lr1 : len r1 = N * N).
  { unfold r1. rewrite len_app. unfold len in *. rewrite length_skipn. lia. }
  unfold rect_nb. rewrite <- Lrc.
  rewrite (put_arange_Z r1 rc) by (unfold len in *; lia).
  cbn [obind].
  rewrite (take_in_range (hex_u st) _ 0%Q)
    by (apply (Forall_in_range_len N);
        [exact Lhu | apply hex_centr_in_range, HN]).
  cbn [obind sys_bulk_rhs_rows hex_system].
  rewrite map_map.
  set (hc := map (fun c => (- nth (Z.to_nat c) (hex_u st) 0 / dt)%Q)
                 (hex_centr N)).
  assert (Lhc : len hc = len (hex_centr N))
    by (unfold hc, len; now rewrite !length_map).
  set (h1 := hv ++ skipn (length hv) (hex_rhs st)).
  assert (Lh1 : len h1 = N * N).
  { unfold h1. rewrite len_app. unfold len in *. rewrite length_skipn. lia. }
  unfold hex_nb. rewrite <- Lhc.
  rewrite (put_arange_Z h1 hc) by (unfold len in *; lia).
  cbn [obind].
  unfold next_rhs. fold rv hv rc hc.
  replace (Z.to_nat (len (rect_bcs_all N))) with (length rv)
    by (unfold len; lia).
  replace (Z.to_nat (len (hex_bcs_all N))) with (length hv)
    by (unfold len; lia).
  unfold r1, h1.
  rewrite !slice_full; [reflexivity | |].
  - fold h1. unfold len in *. lia.
  - fold r1. unfold len in *. lia.
Qed.

End Rows.

Import Rows.

(** X10: for a valid N and a state with one entry per node in each of its
    vectors, the "Step" part of [drawstep] rewrites every row of both
    right-hand sides: the rows of the boundary nodes receive [exact_u] at
    the current time, and row [len(bcs_all) + k] receives
    [- u[centr[k]] / dt]; these are all the N^2 rows, so the new right-hand
    sides do not depend on the old ones. *)
Theorem X10_step_rewrites_every_row (N : Z) (sqrt3 : Q)
        (exact_u : Q -> Q -> Q -> Q) (rect_sys hex_sys : system) (st : state) :
  valid_N N ->
  rect_assemble N exact_u = Some rect_sys ->
  hex_assemble N sqrt3 exact_u = Some hex_sys ->
  well_formed N st ->
  step_rhs N sqrt3 exact_u rect_sys hex_sys st
  = Some (next_rhs exact_u (time st) (rect_x N) (rect_y N)
                   (rect_bcs_all N) (rect_centr N) (rect_u st),
          next_rhs exact_u (time st) (hex_x N) (hex_y N sqrt3)
                   (hex_bcs_all N) (hex_centr N) (hex_u st))
  /\ len (next_rhs exact_u (time st) (rect_x N) (rect_y N)
                   (rect_bcs_all N) (rect_centr N) (rect_u st)) = N * N
  /\ len (next_rhs exact_u (time st) (hex_x N) (hex_y N sqrt3)
                   (hex_bcs_all N) (hex_centr N) (hex_u st)) = N * N
  /\ forall st2, well_formed N st2 ->
       rect_u st2 = rect_u st -> hex_u st2 = hex_u st -> time st2 = time st ->
       step_rhs N sqrt3 exact_u rect_sys hex_sys st2
       = step_rhs N sqrt3 exact_u rect_sys hex_sys st.
Proof.
  intros HN Hr Hh Hwf.
  rewrite rect_assemble_eq in Hr by exact HN. injection Hr as <-.
  rewrite hex_assemble_eq in Hh by exact HN. injection Hh as <-.
  pose proof (rect_rows_total N HN) as Tr.
  pose proof (hex_rows_total N HN) as Th.
  pose proof (len_hex_centr N HN) as Lc.
  pose proof (len_hex_stencil_r N HN) as Lsr.
  pose proof (len_hex_stencil_l N HN) as Lsl.
  split; [now apply step_rhs_closed|]. split; [|split].
  - unfold next_rhs, len in *. rewrite length_app, length_boundary_values, length_map.
    lia.
  - unfold next_rhs, len in *. rewrite length_app, length_boundary_values, length_map.
    lia.
  - intros st2 Hwf2 Eru Ehu Et.
    rewrite !step_rhs_closed by assumption. now rewrite Eru, Ehu, Et.
Qed.

Lemma X10_step_rewrites_every_row_witness :
  step_rhs 6 sqrt3_float heat_poly rect_sys6 hex_sys6 state0
  = Some (next_rhs heat_poly (time state0) (rect_x 6) (rect_y 6)
                   (rect_bcs_all 6) (rect_centr 6) (rect_u state0),
          next_rhs heat_poly (time state0) (hex_x 6) (hex_y 6 sqrt3_float)
                   (hex_bcs_all 6) (hex_centr 6) (hex_u state0))
  /\ len (next_rhs heat_poly (time state0) (rect_x 6) (rect_y 6)
                   (rect_bcs_all 6) (rect_centr 6) (rect_u state0)) = 6 * 6
  /\ len (next_rhs heat_poly (time state0) (hex_x 6) (hex_y 6 sqrt3_float)
                   (hex_bcs_all 6) (hex_centr 6) (hex_u state0)) = 6 * 6
  /\ forall st2, well_formed 6 st2 ->
       rect_u st2 = rect_u state0 -> hex_u st2 = hex_u state0 ->
       time st2 = time state0 ->
       step_rhs 6 sqrt3_float heat_poly rect_sys6 hex_sys6 st2
       = step_rhs 6 sqrt3_float heat_poly rect_sys6 hex_sys6 state0.
Proof.
  apply (X10_step_rewrites_every_row 6 sqrt3_float heat_poly).
  - split; [reflexivity | lia].
  - vm_compute. reflexivity.
  - vm_compute. reflexivity.
  - repeat split; vm_compute; reflexivity.
Defined.

(** ** The systems have at most one solution *)

Module Dominance.

Local Open Scope Q_scope.

Lemma stencil_sum_sub w w' nbrs :
  stencil_sum w nbrs - stencil_sum w' nbrs
  == stencil_sum (fun j => w j - w' j) nbrs.
Proof.
  induction nbrs as [|j nbrs IH]; cbn [stencil_sum fold_right].
  - ring.
  - fold (stencil_sum w nbrs). fold (stencil_sum w' nbrs).
    fold (stencil_sum (fun j => w j - w' j) nbrs). rewrite <- IH. ring.
Qed.

Lemma inject_len_cons {A} (x : A) l :
  inject_Z (len (x :: l)) == inject_Z (len l) + 1.
Proof.
  unfold len. cbn [length]. rewrite Nat2Z.inj_succ, <- Z.add_1_r.
  now rewrite inject_Z_plus.
Qed.

Lemma stencil_sum_bound d nbrs M :
  (forall j, In j nbrs -> Qabs (d j) <= M) ->
  Qabs (stencil_sum d nbrs) <= inject_Z (len nbrs) * M.
Proof.
  induction nbrs as [|j nbrs IH]; intros H.
  - change (Qabs (stencil_sum d [])) with 0.
    change (inject_Z (len (@nil Z))) with 0. lra.
  - cbn [stencil_sum fold_right]. fold (stencil_sum d nbrs).
    rewrite inject_len_cons.
    pose proof (Qabs_triangle (d j) (stencil_sum d nbrs)) as Ht.
    pose proof (H j (or_introl eq_refl)) as Hj.
    assert (Hn : Qabs (stencil_sum d nbrs) <= inject_Z (len nbrs) * M).
    { apply IH. intros i Hi. apply H. now right. }
    lra.
Qed.

Lemma stencil_sum_const c nbrs w :
  (forall j, In j nbrs -> w j == c) ->
  stencil_sum w nbrs == inject_Z (len nbrs) * c.
Proof.
  induction nbrs as [|j nbrs IH]; intros H.
  - change (stencil_sum w []) with 0.
    change (inject_Z (len (@nil Z))) with 0. ring.
  - cbn [stencil_sum fold_right]. fold (stencil_sum w nbrs).
    rewrite inject_len_cons, (H j (or_introl eq_refl)), IH.
    + ring.
    + intros i Hi. apply H. now right.
Qed.

Lemma idt_pos : 0 < 1 / dt.
Proof. reflexivity. Qed.

Section MaximumPrinciple.

Variables (n : Z) (m : matrix) (off : Q).
Hypothesis n_pos : (0 < n)%Z.
Hypothesis off_pos : 0 < off.
Hypothesis rows : dominant n m off.

Variables (b u u' : list Q).
Hypothesis Hu : spsolve n m b u.
Hypothesis Hu' : spsolve n m b u'.

Lemma absd_le c : (0 <= c < n)%Z -> Qabs (diff_at u u' c) <= amax (abs_entries n (diff_at u u')).
Proof.
  intros Hc. apply amax_ge. unfold abs_entries.
  apply (in_map (fun c => Qabs (diff_at u u' c))). now apply In_arange.
Qed.

Lemma amax_absd_nonpos : amax (abs_entries n (diff_at u u')) <= 0.
Proof.
  destruct (amax_attained (abs_entries n (diff_at u u'))) as (y & Hy & Ey).
  { unfold abs_entries. rewrite arange_cons by lia. discriminate. }
  unfold abs_entries in Hy. apply in_map_iff in Hy. destruct Hy as (c & <- & Hc).
  apply In_arange in Hc.
  destruct Hu as [_ Su], Hu' as [_ Su'].
  destruct (rows c Hc) as [(r & Hr & Hd) | (r & nbrs & Hr & Hn & Hs)].
  - assert (E : diff_at u u' c == 0).
    { unfold diff_at. rewrite <- (Hd u), <- (Hd u'), (Su r Hr), (Su' r Hr). ring. }
    rewrite Ey, E. cbn. lra.
  - set (kq := inject_Z (len nbrs)).
    assert (Hk : 0 <= kq).
    { unfold kq. change 0 with (inject_Z 0). rewrite <- Zle_Qle.
      unfold len. lia. }
    pose proof idt_pos as Hi. set (idt := 1 / dt) in *.
    set (Sd := stencil_sum (diff_at u u') nbrs).
    assert (E1 : (kq * off + idt) * diff_at u u' c == off * Sd).
    { assert (E0 : row_dot m u r == row_dot m u' r)
        by (rewrite (Su r Hr), (Su' r Hr); reflexivity).
      rewrite (Hs u), (Hs u') in E0. fold kq idt in E0.
      unfold Sd, diff_at. rewrite <- stencil_sum_sub.
      set (su := stencil_sum (at_node u) nbrs) in *.
      set (su' := stencil_sum (at_node u') nbrs) in *.
      set (uc := at_node u c) in *. set (uc' := at_node u' c) in *.
      assert (E2 : (kq * off + idt) * (uc - uc') - off * (su - su')
                   == - ((- (kq * off) - idt) * uc + off * su
                         - ((- (kq * off) - idt) * uc' + off * su'))) by ring.
      rewrite E0 in E2.
      assert (E3 : (kq * off + idt) * (uc - uc') - off * (su - su') == 0).
      { rewrite E2. ring. }
      lra. }
    assert (HP : 0 <= kq * off + idt).
    { assert (0 <= kq * off) by (apply Qmult_le_0_compat; lra). lra. }
    assert (E4 : (kq * off + idt) * Qabs (diff_at u u' c) == off * Qabs Sd).
    { rewrite <- (Qabs_pos (kq * off + idt)) at 1 by exact HP.
      rewrite <- (Qabs_pos off) at 2 by lra.
      rewrite <- !Qabs_Qmult. now rewrite E1. }
    assert (Hb : Qabs Sd <= kq * amax (abs_entries n (diff_at u u'))).
    { apply stencil_sum_bound. intros j Hj. apply absd_le.
      rewrite Forall_forall in Hn. apply Hn, Hj. }
    set (M := amax (abs_entries n (diff_at u u'))) in *. rewrite <- Ey in E4.
    assert (H1 : off * Qabs Sd <= off * (kq * M))
      by (apply Qmult_le_l; [exact off_pos | exact Hb]).
    assert (E5 : (kq * off + idt) * M == off * (kq * M) + idt * M) by ring.
    assert (H2 : idt * M <= 0) by lra.
    destruct (Qlt_le_dec 0 M) as [HM|HM]; [|exact HM].
    pose proof (Qmult_lt_0_compat idt M Hi HM). lra.
Qed.

Lemma solutions_agree c : (0 <= c < n)%Z -> at_node u c == at_node u' c.
Proof.
  intros Hc. pose proof (absd_le c Hc) as H1.
  pose proof amax_absd_nonpos as H2.
  assert (H3 : Qabs (diff_at u u' c) <= 0) by lra.
  apply Qabs_Qle_condition in H3. unfold diff_at in H3. lra.
Qed.

End MaximumPrinciple.

Lemma dominant_unique n m off b u u' :
  (0 < n)%Z -> 0 < off -> dominant n m off ->
  spsolve n m b u -> spsolve n m b u' -> same_vector n u u'.
Proof.
  intros Hn Ho Hd Hu Hu'. split.
  - destruct Hu as [L _], Hu' as [L' _]. now rewrite L, L'.
  - intros c Hc. now apply (solutions_agree n m off Hn Ho Hd b).
Qed.

End Dominance.

Import Dominance.

Module SystemRows.

Local Open Scope Q_scope.

Lemma nth_column p rows (k : nat) :
  (k < length rows)%nat -> nth k (column p rows) 0%Z = nth p (nth k rows []) 0%Z.
Proof.
  intros H. unfold column.
  apply (nth_map_in (fun r => nth p r 0%Z)). exact H.
Qed.

Lemma rect_dirichlet_row N k :
  (0 <= k < len (rect_bcs_all N))%Z ->
  dirichlet_row (rect_M N) k (nth (Z.to_nat k) (rect_bcs_all N) 0%Z).
Proof. intros H w. now apply row_dot_single, rect_M_boundary_row. Qed.

Lemma hex_dirichlet_row N k :
  (0 <= k < len (hex_bcs_all N))%Z ->
  dirichlet_row (hex_M N) k (nth (Z.to_nat k) (hex_bcs_all N) 0%Z).
Proof. intros H w. now apply row_dot_single, hex_M_boundary_row. Qed.

Lemma rect_stencil_row N k :
  valid_N N -> (0 <= k < len (rect_centr N))%Z ->
  let c := nth (Z.to_nat k) (rect_centr N) 0%Z in
  stencil_row (rect_M N) (rect_off N) (len (rect_bcs_all N) + k) c
              [c - N; c - 1; c + 1; c + N]%Z
  /\ Forall (in_range N) [c - N; c - 1; c; c + 1; c + N]%Z.
Proof.
  intros HN Hk c. assert (H0 : (0 < N)%Z) by (destruct HN; lia).
  split.
  - intros w. unfold row_dot.
    rewrite rect_M_stencil_row
      by (try exact HN; unfold rect_stencil, len in *; rewrite length_map; lia).
    rewrite nth_rect_stencil by exact Hk. fold c.
    unfold rect_elmt_row, rect_off, stencil_sum, at_node.
    cbn [combine map fold_right fst snd].
    change (inject_Z (len [c - N; c - 1; c + 1; c + N]%Z)) with 4.
    pose proof (h_pos N H0). assert (0 < dt) by reflexivity.
    field. split; lra.
  - assert (Hin : In c (rect_centr N)) by (apply nth_In_Z, Hk).
    apply In_rect_centr in Hin. destruct Hin as (i & j & Hi & Hj & E).
    rewrite E. unfold in_range. repeat constructor; nia.
Qed.

Lemma hex_stencil_row_r N k :
  valid_N N -> (0 <= k < len (hex_stencil_r N))%Z ->
  exists r c,
    (2 <= r <= N - 3)%Z /\ (1 <= c <= N - 2)%Z
    /\ nth (Z.to_nat k) (hex_stencil_r N) [] = right_stencil_at N r c
    /\ stencil_row (hex_M N) (hex_off N) (len (hex_bcs_all N) + k)
                   (r * N + c)
                   [(r - 1) * N + c; r * N + c + 1; (r + 1) * N + c]%Z.
Proof.
  intros HN Hk. assert (H0 : (0 < N)%Z) by (destruct HN; lia).
  destruct (half_valid N HN) as (m & EN & Hm & _).
  assert (Hin : In (nth (Z.to_nat k) (hex_stencil_r N) []) (hex_stencil_r N))
    by (apply nth_In_Z, Hk).
  rewrite EN in Hin at 2. apply In_hex_stencil_r in Hin; [|exact Hm].
  rewrite <- EN in Hin. destruct Hin as (r & c & Hr & Hc & _ & E).
  exists r, c. split; [exact Hr|]. split; [exact Hc|]. split; [exact E|].
  intros w. unfold row_dot. rewrite hex_M_r_row by assumption. rewrite E.
  unfold right_stencil_at, hex_elmt_r_row, hex_off, stencil_sum, at_node.
  cbn [combine map fold_right fst snd].
  change (inject_Z (len [(r - 1) * N + c; r * N + c + 1; (r + 1) * N + c]%Z))
    with 3.
  pose proof (h_pos N H0). assert (0 < dt) by reflexivity.
  field. split; lra.
Qed.

Lemma hex_stencil_row_l N k :
  valid_N N -> (0 <= k < len (hex_stencil_l N))%Z ->
  exists r c,
    (2 <= r <= N - 3)%Z /\ (1 <= c <= N - 2)%Z
    /\ nth (Z.to_nat k) (hex_stencil_l N) [] = left_stencil_at N r c
    /\ stencil_row (hex_M N) (hex_off N)
                   (len (hex_bcs_all N) + len (hex_stencil_r N) + k)
                   (r * N + c)
                   [(r - 1) * N + c; r * N + c - 1; (r + 1) * N + c]%Z.
Proof.
  intros HN Hk. assert (H0 : (0 < N)%Z) by (destruct HN; lia).
  destruct (half_valid N HN) as (m & EN & Hm & _).
  assert (Hin : In (nth (Z.to_nat k) (hex_stencil_l N) []) (hex_stencil_l N))
    by (apply nth_In_Z, Hk).
  rewrite EN in Hin at 2. apply In_hex_stencil_l in Hin; [|exact Hm].
  rewrite <- EN in Hin. destruct Hin as (r & c & Hr & Hc & _ & E).
  exists r, c. split; [exact Hr|]. split; [exact Hc|]. split; [exact E|].
  intros w. unfold row_dot. rewrite hex_M_l_row by assumption. rewrite E.
  unfold left_stencil_at, hex_elmt_l_row, hex_off, stencil_sum, at_node.
  cbn [combine map fold_right fst snd].
  change (inject_Z (len [(r - 1) * N + c; r * N + c - 1; (r + 1) * N + c]%Z))
    with 3.
  pose proof (h_pos N H0). assert (0 < dt) by reflexivity.
  field. split; lra.
Qed.

Lemma rect_node_rows N :
  valid_N N ->
  node_rows (N * N) (rect_M N) (rect_off N) (rect_bcs_all N) (len (rect_centr N)).
Proof.
  intros HN c Hc.
  destruct (rect_partition N HN) as [_ Hcov].
  apply Hcov, in_app_or in Hc. destruct Hc as [Hb|Hi].
  - left. apply (In_nth _ _ 0%Z) in Hb. destruct Hb as (k & Hk & E).
    exists (Z.of_nat k). rewrite Nat2Z.id. split; [unfold len; lia|].
    split; [exact E|]. rewrite <- E. rewrite <- (Nat2Z.id k) at 2.
    apply rect_dirichlet_row. unfold len. lia.
  - right. apply (In_nth _ _ 0%Z) in Hi. destruct Hi as (k & Hk & E).
    destruct (rect_stencil_row N (Z.of_nat k) HN) as [Hs Hr];
      [unfold len; lia|].
    rewrite Nat2Z.id, E in Hs, Hr.
    exists (Z.of_nat k), [c - N; c - 1; c + 1; c + N]%Z.
    split; [unfold len in *; lia|]. split; [|exact Hs].
    unfold in_range in Hr.
    inversion Hr as [|? ? H1 Hr1]; subst.
    inversion Hr1 as [|? ? H2 Hr2]; subst.
    inversion Hr2 as [|? ? H3 Hr3]; subst.
    inversion Hr3 as [|? ? H4 Hr4]; subst.
    inversion Hr4 as [|? ? H5 _]; subst.
    repeat constructor; lia.
Qed.

Lemma hex_node_rows N :
  valid_N N ->
  node_rows (N * N) (hex_M N) (hex_off N) (hex_bcs_all N) (len (hex_centr N)).
Proof.
  intros HN c Hc.
  assert (H4 : (4 < N)%Z) by (destruct HN; lia).
  pose proof (len_hex_centr N HN) as Lc.
  pose proof (len_hex_stencil_r N HN) as Lsr.
  pose proof (len_hex_stencil_l N HN) as Lsl.
  destruct (hex_diag_partition N HN) as [_ Hcov].
  apply Hcov, in_app_or in Hc. destruct Hc as [Hb|Hi].
  - left. apply (In_nth _ _ 0%Z) in Hb. destruct Hb as (k & Hk & E).
    exists (Z.of_nat k). rewrite Nat2Z.id. split; [unfold len; lia|].
    split; [exact E|]. rewrite <- E. rewrite <- (Nat2Z.id k) at 2.
    apply hex_dirichlet_row. unfold len. lia.
  - right. unfold hex_diag_nodes in Hi. apply in_app_or in Hi.
    destruct Hi as [Hi|Hi];
      apply (In_nth _ _ 0%Z) in Hi; destruct Hi as (k & Hk & E);
      unfold column in Hk; rewrite length_map in Hk;
      rewrite nth_column in E by exact Hk.
    + destruct (hex_stencil_row_r N (Z.of_nat k) HN)
        as (r & c' & Hr & Hc' & Erow & Hs); [unfold len; lia|].
      rewrite Nat2Z.id in Erow. rewrite Erow in E. cbn in E. subst c.
      exists (Z.of_nat k),
             [(r - 1) * N + c'; r * N + c' + 1; (r + 1) * N + c']%Z.
      split; [unfold len in *; lia|]. split; [|exact Hs].
      repeat constructor; nia.
    + destruct (hex_stencil_row_l N (Z.of_nat k) HN)
        as (r & c' & Hr & Hc' & Erow & Hs); [unfold len; lia|].
      rewrite Nat2Z.id in Erow. rewrite Erow in E. cbn in E. subst c.
      exists (len (hex_stencil_r N) + Z.of_nat k)%Z,
             [(r - 1) * N + c'; r * N + c' - 1; (r + 1) * N + c']%Z.
      split; [unfold len in *; lia|]. split; [repeat constructor; nia|].
      now rewrite Z.add_assoc.
Qed.

Lemma node_rows_dominant n m off bcs nst :
  (0 <= nst)%Z -> (len bcs + nst <= n)%Z ->
  node_rows n m off bcs nst -> dominant n m off.
Proof.
  intros H0 Hn H c Hc.
  destruct (H c Hc) as [(k & Hk & _ & Hd) | (k & nbrs & Hk & Hnb & Hs)].
  - left. exists k. split; [lia | exact Hd].
  - right. exists (len bcs + k)%Z, nbrs. split; [unfold len in *; lia|]. auto.
Qed.

Lemma rect_dominant N : valid_N N -> dominant (N * N) (rect_M N) (rect_off N).
Proof.
  intros HN. apply (node_rows_dominant _ _ _ (rect_bcs_all N) (len (rect_centr N))).
  - unfold len. lia.
  - pose proof (rect_rows_total N HN). lia.
  - now apply rect_node_rows.
Qed.

Lemma hex_dominant N : valid_N N -> dominant (N * N) (hex_M N) (hex_off N).
Proof.
  intros HN. apply (node_rows_dominant _ _ _ (hex_bcs_all N) (len (hex_centr N))).
  - unfold len. lia.
  - pose proof (hex_rows_total N HN). pose proof (len_hex_centr N HN).
    pose proof (len_hex_stencil_r N HN). pose proof (len_hex_stencil_l N HN).
    lia.
  - now apply hex_node_rows.
Qed.

End SystemRows.

Import SystemRows.

(** X11: for every valid N both assembled systems have at most one
    solution: two vectors that [spsolve] may return for the same right-hand
    side have equal entries. *)
Theorem X11_systems_have_one_solution (N : Z) (sqrt3 : Q)
        (exact_u : Q -> Q -> Q -> Q) (rect_sys hex_sys : system) :
  valid_N N ->
  rect_assemble N exact_u = Some rect_sys ->
  hex_assemble N sqrt3 exact_u = Some hex_sys ->
  (forall b u u',
      spsolve (N2 N) (sys_M rect_sys) b u ->
      spsolve (N2 N) (sys_M rect_sys) b u' -> same_vector (N * N) u u')
  /\ (forall b u u',
        spsolve (N2 N) (sys_M hex_sys) b u ->
        spsolve (N2 N) (sys_M hex_sys) b u' -> same_vector (N * N) u u').
Proof.
  intros HN Hr Hh. assert (H0 : 0 < N) by (destruct HN; lia).
  rewrite rect_assemble_eq in Hr by exact HN. injection Hr as <-.
  rewrite hex_assemble_eq in Hh by exact HN. injection Hh as <-.
  cbn [sys_M rect_system hex_system]. unfold N2.
  split; intros b u u' Hu Hu'.
  - apply (dominant_unique (N * N) (rect_M N) (rect_off N) b);
      [nia | apply rect_off_pos; lia | now apply rect_dominant | exact Hu | exact Hu'].
  - apply (dominant_unique (N * N) (hex_M N) (hex_off N) b);
      [nia | apply hex_off_pos; lia | now apply hex_dominant | exact Hu | exact Hu'].
Qed.

Lemma X11_systems_have_one_solution_witness :
  (forall b u u',
      spsolve (N2 6) (sys_M rect_sys6) b u ->
      spsolve (N2 6) (sys_M rect_sys6) b u' -> same_vector (6 * 6) u u')
  /\ (forall b u u',
        spsolve (N2 6) (sys_M hex_sys6) b u ->
        spsolve (N2 6) (sys_M hex_sys6) b u' -> same_vector (6 * 6) u u').
Proof.
  apply (X11_systems_have_one_solution 6 sqrt3_float heat_poly).
  - split; [reflexivity | lia].
  - vm_compute. reflexivity.
  - vm_compute. reflexivity.
Defined.

(** ** Constant fields *)

Module Constants.

Local Open Scope Q_scope.

Lemma at_node_repeat c n i :
  (0 <= i < n)%Z -> at_node (repeat c (Z.to_nat n)) i = c.
Proof.
  intros H. unfold at_node.
  rewrite nth_indep with (d' := c) by (rewrite repeat_length; lia).
  apply nth_repeat.
Qed.

(** The constant vector solves the system that a step sets up from a
    constant field, whatever nodes the centre list names. *)
Lemma constant_solves (n : Z) (m : matrix) (off : Q) (bcs centr : list Z)
      (x y u : list Q) (c t : Q) :
  (forall k, (0 <= k < len bcs)%Z ->
     dirichlet_row m k (nth (Z.to_nat k) bcs 0%Z)
     /\ (0 <= nth (Z.to_nat k) bcs 0 < n)%Z) ->
  (forall k, (0 <= k < len centr)%Z ->
     exists cd nbrs, (0 <= cd < n)%Z /\ Forall (fun j => (0 <= j < n)%Z) nbrs
                     /\ stencil_row m off (len bcs + k) cd nbrs) ->
  (len bcs + len centr = n)%Z ->
  Forall (fun j => (0 <= j < n)%Z) centr ->
  (forall i, (0 <= i < n)%Z -> at_node u i == c) ->
  spsolve n m (next_rhs (fun _ _ _ => c) t x y bcs centr u)
          (repeat c (Z.to_nat n)).
Proof.
  intros Hb Hs Hn Hc Hu. split; [apply repeat_length|].
  intros r Hr. unfold next_rhs.
  assert (Lb : length (boundary_values (fun _ _ _ => c) t x y bcs) = length bcs)
    by apply length_boundary_values.
  destruct (Z_lt_ge_dec r (len bcs)) as [Hlt|Hge].
  - destruct (Hb r ltac:(lia)) as [Hd Hin].
    rewrite (Hd _), at_node_repeat by exact Hin.
    rewrite app_nth1 by (unfold len in *; lia).
    rewrite nth_boundary_values by (unfold len in *; lia). reflexivity.
  - set (k := (r - len bcs)%Z).
    destruct (Hs k ltac:(unfold k; lia)) as (cd & nbrs & Hcd & Hnb & Hst).
    replace (len bcs + k)%Z with r in Hst by (unfold k; lia).
    rewrite (Hst _), at_node_repeat by exact Hcd.
    rewrite (stencil_sum_const c)
      by (intros j Hj; rewrite Forall_forall in Hnb;
          rewrite at_node_repeat by (apply Hnb, Hj); reflexivity).
    rewrite app_nth2 by (unfold len in *; lia).
    rewrite Lb.
    replace (Z.to_nat r - length bcs)%nat with (Z.to_nat k)
      by (unfold k, len; lia).
    rewrite (nth_map_in (fun c0 => - nth (Z.to_nat c0) u 0 / dt) centr _ 0 0%Z)
      by (unfold k, len in *; lia).
    fold (at_node u (nth (Z.to_nat k) centr 0%Z)).
    rewrite Hu.
    + assert (0 < dt) by reflexivity. field. lra.
    + rewrite Forall_forall in Hc. apply Hc, nth_In. unfold k, len in *. lia.
Qed.

Lemma rect_constant_solves N c t u :
  valid_N N -> constant_on N u c ->
  spsolve (N * N) (rect_M N)
          (next_rhs (fun _ _ _ => c) t (rect_x N) (rect_y N)
                    (rect_bcs_all N) (rect_centr N) u)
          (repeat c (Z.to_nat (N * N))).
Proof.
  intros HN Hu. pose proof (rect_rows_total N HN) as Tr.
  apply (constant_solves (N * N) (rect_M N) (rect_off N)).
  - intros k Hk. split; [now apply rect_dirichlet_row|].
    pose proof (rect_bcs_all_in_range N HN) as Hr.
    rewrite Forall_forall in Hr. apply Hr, nth_In_Z, Hk.
  - intros k Hk. destruct (rect_stencil_row N k HN Hk) as [Hs Hr].
    set (cn := nth (Z.to_nat k) (rect_centr N) 0%Z) in *.
    exists cn, [cn - N; cn - 1; cn + 1; cn + N]%Z.
    unfold in_range in Hr.
    inversion Hr as [|? ? H1 Hr1]; subst.
    inversion Hr1 as [|? ? H2 Hr2]; subst.
    inversion Hr2 as [|? ? H3 Hr3]; subst.
    inversion Hr3 as [|? ? H4 Hr4]; subst.
    inversion Hr4 as [|? ? H5 _]; subst.
    split; [lia|]. split; [repeat constructor; lia | exact Hs].
  - exact Tr.
  - apply rect_centr_in_range, HN.
  - exact Hu.
Qed.

Lemma hex_constant_solves N sqrt3 c t u :
  valid_N N -> constant_on N u c ->
  spsolve (N * N) (hex_M N)
          (next_rhs (fun _ _ _ => c) t (hex_x N) (hex_y N sqrt3)
                    (hex_bcs_all N) (hex_centr N) u)
          (repeat c (Z.to_nat (N * N))).
Proof.
  intros HN Hu. pose proof (hex_rows_total N HN) as Th.
  pose proof (len_hex_centr N HN) as Lc.
  pose proof (len_hex_stencil_r N HN) as Lsr.
  pose proof (len_hex_stencil_l N HN) as Lsl.
  apply (constant_solves (N * N) (hex_M N) (hex_off N)).
  - intros k Hk. split; [now apply hex_dirichlet_row|].
    pose proof (hex_bcs_all_in_range N HN) as Hr.
    rewrite Forall_forall in Hr. apply Hr, nth_In_Z, Hk.
  - intros k Hk.
    destruct (Z_lt_ge_dec k (len (hex_stencil_r N))) as [Hlt|Hge].
    + destruct (hex_stencil_row_r N k HN ltac:(lia))
        as (r & c' & Hr & Hc' & _ & Hs).
      exists (r * N + c')%Z,
             [(r - 1) * N + c'; r * N + c' + 1; (r + 1) * N + c']%Z.
      split; [nia|]. split; [repeat constructor; nia | exact Hs].
    + destruct (hex_stencil_row_l N (k - len (hex_stencil_r N)) HN ltac:(lia))
        as (r & c' & Hr & Hc' & _ & Hs).
      replace (len (hex_bcs_all N) + len (hex_stencil_r N)
               + (k - len (hex_stencil_r N)))%Z
        with (len (hex_bcs_all N) + k)%Z in Hs by lia.
      exists (r * N + c')%Z,
             [(r - 1) * N + c'; r * N + c' - 1; (r + 1) * N + c']%Z.
      split; [nia|]. split; [repeat constructor; nia | exact Hs].
  - lia.
  - apply hex_centr_in_range, HN.
  - exact Hu.
Qed.

Lemma constant_on_map2 N c (x y : list Q) :
  len x = (N * N)%Z -> len y = (N * N)%Z ->
  constant_on N (map2 (fun _ _ => c) x y) c.
Proof.
  intros Lx Ly i Hi. unfold at_node, len in *.
  rewrite (nth_map2 _ _ _ _ 0 0) by lia. reflexivity.
Qed.

End Constants.

Import Constants.

(** X12: both schemes keep a constant field.  For a valid N, the constant
    [c] as [exact_u], and a state whose two solutions hold [c] at every
    node, [drawstep] has a successor, and in every successor both solutions
    hold [c] at every node again. *)
Theorem X12_constant_field_is_kept (N : Z) (sqrt3 c : Q)
        (rect_sys hex_sys : system) (st : state) :
  valid_N N ->
  rect_assemble N (fun _ _ _ => c) = Some rect_sys ->
  hex_assemble N sqrt3 (fun _ _ _ => c) = Some hex_sys ->
  well_formed N st ->
  constant_on N (rect_u st) c -> constant_on N (hex_u st) c ->
  (exists st', drawstep N sqrt3 (fun _ _ _ => c) rect_sys hex_sys st st')
  /\ (forall st', drawstep N sqrt3 (fun _ _ _ => c) rect_sys hex_sys st st' ->
        constant_on N (rect_u st') c /\ constant_on N (hex_u st') c).
Proof.
  intros HN Hr Hh Hwf Cr Ch. assert (H0 : 0 < N) by (destruct HN; lia).
  rewrite rect_assemble_eq in Hr by exact HN. injection Hr as <-.
  rewrite hex_assemble_eq in Hh by exact HN. injection Hh as <-.
  pose proof (rect_constant_solves N c (time st) (rect_u st) HN Cr) as Sr.
  pose proof (hex_constant_solves N sqrt3 c (time st) (hex_u st) HN Ch) as Sh.
  split.
  - eexists. apply drawstep_intro.
    + apply step_rhs_closed; assumption.
    + exact Sr.
    + exact Sh.
  - intros st' Hstep. destruct Hstep as [r2 h2 ru hu Hrhs Hsr Hsh].
    rewrite step_rhs_closed in Hrhs by assumption.
    injection Hrhs as <- <-. cbn [rect_u hex_u sys_M rect_system hex_system] in *.
    unfold N2 in *. split; intros i Hi.
    + destruct (dominant_unique (N * N) (rect_M N) (rect_off N) _ _ _
                  ltac:(nia) (rect_off_pos N H0) (rect_dominant N HN) Hsr Sr)
        as [_ E].
      rewrite (E i Hi). now rewrite at_node_repeat.
    + destruct (dominant_unique (N * N) (hex_M N) (hex_off N) _ _ _
                  ltac:(nia) (hex_off_pos N H0) (hex_dominant N HN) Hsh Sh)
        as [_ E].
      rewrite (E i Hi). now rewrite at_node_repeat.
Qed.

Lemma X12_constant_field_is_kept_witness :
  (exists st',
      drawstep 6 sqrt3_float (fun _ _ _ => 1%Q)
               (rect_system 6 (fun _ _ _ => 1%Q))
               (hex_system 6 sqrt3_float (fun _ _ _ => 1%Q))
               (init_state 6 sqrt3_float (fun _ _ _ => 1%Q)
                           (rect_system 6 (fun _ _ _ => 1%Q))
                           (hex_system 6 sqrt3_float (fun _ _ _ => 1%Q))) st')
  /\ (forall st',
        drawstep 6 sqrt3_float (fun _ _ _ => 1%Q)
                 (rect_system 6 (fun _ _ _ => 1%Q))
                 (hex_system 6 sqrt3_float (fun _ _ _ => 1%Q))
                 (init_state 6 sqrt3_float (fun _ _ _ => 1%Q)
                             (rect_system 6 (fun _ _ _ => 1%Q))
                             (hex_system 6 sqrt3_float (fun _ _ _ => 1%Q))) st' ->
        constant_on 6 (rect_u st') 1 /\ constant_on 6 (hex_u st') 1).
Proof.
  apply (X12_constant_field_is_kept 6 sqrt3_float 1).
  - split; [reflexivity | lia].
  - vm_compute. reflexivity.
  - vm_compute. reflexivity.
  - repeat split; vm_compute; reflexivity.
  - apply (constant_on_map2 6 1 (rect_x 6) (rect_y 6)); vm_compute; reflexivity.
  - apply (constant_on_map2 6 1 (hex_x 6) (hex_y 6 sqrt3_float));
      vm_compute; reflexivity.
Defined.

(** ** What is drawn *)

Module Drawing.

Lemma column_stack_ok (x y u : list Q) :
  length y = length x -> length u = length x ->
  column_stack x y u = Some (combine (combine x y) u).
Proof.
  revert y u. induction x as [|a x IH]; intros [|b y] [|c u] Hy Hu;
    cbn in *; try lia; [reflexivity|].
  rewrite IH by lia. reflexivity.
Qed.

Lemma column_stack_mismatch (x y u : list Q) :
  length u <> length x -> column_stack x y u = None.
Proof.
  revert y u. induction x as [|a x IH]; intros [|b y] [|c u] Hu;
    cbn in *; try lia; try reflexivity.
  rewrite IH by lia. reflexivity.
Qed.

Lemma take_rows_ok {A} (tt : list A) polys d :
  Forall (Forall (fun i => 0 <= i < len tt)) polys ->
  take_rows tt polys
  = Some (map (map (fun i => nth (Z.to_nat i) tt d)) polys).
Proof.
  induction 1 as [|p polys Hp _ IH]; [reflexivity|].
  cbn [take_rows map]. rewrite (take_in_range tt p d Hp), IH. reflexivity.
Qed.

Lemma nth_stacked (x y u : list Q) i :
  length y = length x -> length u = length x ->
  nth (Z.to_nat i) (combine (combine x y) u) (0%Q, 0%Q, 0%Q) = vertex3 x y u i.
Proof.
  intros Hy Hu. unfold vertex3, at_node.
  rewrite combine_nth by (rewrite length_combine; lia).
  rewrite combine_nth by lia. reflexivity.
Qed.

Lemma picture_ok N (x y u : list Q) polys :
  len x = N * N -> len y = N * N -> len u = N * N ->
  Forall (Forall (in_range N)) polys ->
  (tt <- column_stack x y u ;; take_rows tt polys)
  = Some (picture_of x y u polys).
Proof.
  intros Lx Ly Lu Hp. unfold len in *.
  rewrite column_stack_ok by lia. cbn [obind].
  rewrite (take_rows_ok _ _ (0%Q, 0%Q, 0%Q)).
  - unfold picture_of. apply (f_equal Some). apply map_ext. intros p.
    apply map_ext. intros i. apply nth_stacked; lia.
  - eapply Forall_impl; [|exact Hp]. intros p Hq.
    eapply Forall_impl; [|exact Hq]. intros i Hi.
    unfold in_range in Hi. unfold len.
    rewrite !length_combine. lia.
Qed.

Lemma len_rect_polys N : 1 <= N -> len (rect_polys N) = (N - 1) * (N - 1).
Proof.
  intros H. unfold rect_polys, len.
  rewrite (length_concat_const (Z.to_nat (N - 1))).
  - rewrite length_map, arange_length. nia.
  - apply Forall_map, Forall_forall. intros i _.
    rewrite length_map, arange_length. f_equal. lia.
Qed.

Lemma rect_polys_quads N : Forall (fun p => length p = 4%nat) (rect_polys N).
Proof.
  unfold rect_polys. apply Forall_concat, Forall_map, Forall_forall.
  intros i _. apply Forall_map, Forall_forall. intros j _. reflexivity.
Qed.

Lemma draw_closed N sqrt3 e st :
  valid_N N -> len (rect_u st) = N * N -> len (hex_u st) = N * N ->
  draw N sqrt3 e st
  = Some (picture_of (rect_x N) (rect_y N) (rect_u st) (rect_polys N),
          picture_of (hex_x N) (hex_y N sqrt3) (hex_u st) (hex_polys N),
          picture_of (hex_x N) (hex_y N sqrt3)
                     (map2 (e (time st)) (hex_x N) (hex_y N sqrt3))
                     (hex_polys N)).
Proof.
  intros HN Lr Lh. assert (H0 : 0 < N) by (destruct HN; lia).
  pose proof (length_rect_x N H0) as Lrx. pose proof (length_rect_y N H0) as Lry.
  pose proof (length_hex_x N H0) as Lhx.
  pose proof (length_hex_y N sqrt3 H0) as Lhy.
  unfold draw.
  pose proof (picture_ok N (rect_x N) (rect_y N) (rect_u st) (rect_polys N)
                Lrx Lry Lr (rect_polys_in_range N HN)) as P1.
  pose proof (picture_ok N (hex_x N) (hex_y N sqrt3) (hex_u st) (hex_polys N)
                Lhx Lhy Lh (hex_polys_in_range N HN)) as P2.
  assert (Le : len (map2 (e (time st)) (hex_x N) (hex_y N sqrt3)) = N * N).
  { unfold len in *. rewrite length_map2; lia. }
  pose proof (picture_ok N (hex_x N) (hex_y N sqrt3) _ (hex_polys N)
                Lhx Lhy Le (hex_polys_in_range N HN)) as P3.
  destruct (column_stack (rect_x N) (rect_y N) (rect_u st)) as [t1|];
    [|discriminate]. cbn [obind] in *. rewrite P1. cbn [obind].
  destruct (column_stack (hex_x N) (hex_y N sqrt3) (hex_u st)) as [t2|];
    [|discriminate]. cbn [obind] in *. rewrite P2. cbn [obind].
  destruct (column_stack (hex_x N) (hex_y N sqrt3)
              (map2 (e (time st)) (hex_x N) (hex_y N sqrt3))) as [t3|];
    [|discriminate]. cbn [obind] in *. rewrite P3. reflexivity.
Qed.

End Drawing.

Import Drawing.

(** X13: for a valid N and a state whose two solutions have one entry per
    node, the "Draw" part of [drawstep] raises nothing and hands over, for
    each of the (N-1)^2 quadrilaterals of [rect_polys] and, twice, for each
    polygon of [hex_polys], the points (x, y, u) of its nodes in the order
    of the polygon; in the third picture u is [exact_u] at the current time
    at the coordinates of the node.  With a solution of another length the
    drawing fails in [np.column_stack]. *)
Theorem X13_draw_vertices (N : Z) (sqrt3 : Q) (exact_u : Q -> Q -> Q -> Q)
        (st : state) :
  valid_N N ->
  (len (rect_u st) = N * N -> len (hex_u st) = N * N ->
   draw N sqrt3 exact_u st
   = Some (picture_of (rect_x N) (rect_y N) (rect_u st) (rect_polys N),
           picture_of (hex_x N) (hex_y N sqrt3) (hex_u st) (hex_polys N),
           picture_of (hex_x N) (hex_y N sqrt3)
                      (map2 (exact_u (time st)) (hex_x N) (hex_y N sqrt3))
                      (hex_polys N)))
  /\ (len (rect_u st) <> N * N -> draw N sqrt3 exact_u st = None)
  /\ len (rect_polys N) = (N - 1) * (N - 1)
  /\ Forall (fun p => length p = 4%nat) (rect_polys N)
  /\ (forall node, in_range N node ->
        at_node (map2 (exact_u (time st)) (hex_x N) (hex_y N sqrt3)) node
        = exact_u (time st) (at_node (hex_x N) node)
                  (at_node (hex_y N sqrt3) node)).
Proof.
  intros HN. assert (H0 : 0 < N) by (destruct HN; lia).
  pose proof (length_rect_x N H0) as Lrx.
  pose proof (length_hex_x N H0) as Lhx.
  pose proof (length_hex_y N sqrt3 H0) as Lhy.
  split; [intros; now apply draw_closed|]. split; [|split; [|split]].
  - intros Hne. unfold draw.
    rewrite column_stack_mismatch by (unfold len in *; lia). reflexivity.
  - apply len_rect_polys. lia.
  - apply rect_polys_quads.
  - intros node Hn. unfold at_node, in_range, len in *.
    apply nth_map2; lia.
Qed.

Lemma X13_draw_vertices_witness :
  (len (rect_u state0) = 6 * 6 -> len (hex_u state0) = 6 * 6 ->
   draw 6 sqrt3_float heat_poly state0
   = Some (picture_of (rect_x 6) (rect_y 6) (rect_u state0) (rect_polys 6),
           picture_of (hex_x 6) (hex_y 6 sqrt3_float) (hex_u state0) (hex_polys 6),
           picture_of (hex_x 6) (hex_y 6 sqrt3_float)
                      (map2 (heat_poly (time state0)) (hex_x 6)
                            (hex_y 6 sqrt3_float))
                      (hex_polys 6)))
  /\ (len (rect_u state0) <> 6 * 6 -> draw 6 sqrt3_float heat_poly state0 = None)
  /\ len (rect_polys 6) = (6 - 1) * (6 - 1)
  /\ Forall (fun p => length p = 4%nat) (rect_polys 6)
  /\ (forall node, in_range 6 node ->
        at_node (map2 (heat_poly (time state0)) (hex_x 6) (hex_y 6 sqrt3_float))
                node
        = heat_poly (time state0) (at_node (hex_x 6) node)
                    (at_node (hex_y 6 sqrt3_float) node)).
Proof.
  apply (X13_draw_vertices 6 sqrt3_float heat_poly state0).
  split; [reflexivity | lia].
Defined.

(** ** Frame after frame *)

Module Frames15.

Lemma len_next_rhs N e t x y bcs centr u :
  len bcs + len centr = N * N ->
  len (next_rhs e t x y bcs centr u) = N * N.
Proof.
  intros H. unfold next_rhs, len in *.
  rewrite length_app, length_boundary_values, length_map. lia.
Qed.

Lemma init_well_formed N sqrt3 e :
  valid_N N ->
  well_formed N (init_state N sqrt3 e (rect_system N e) (hex_system N sqrt3 e)).
Proof.
  intros HN. assert (H0 : 0 < N) by (destruct HN; lia).
  pose proof (length_rect_x N H0) as Lrx. pose proof (length_rect_y N H0) as Lry.
  pose proof (length_hex_x N H0) as Lhx.
  pose proof (length_hex_y N sqrt3 H0) as Lhy.
  pose proof (rect_rows_total N HN) as Tr.
  pose proof (hex_rows_total N HN) as Th.
  unfold well_formed, init_state.
  cbn [rect_u hex_u rect_rhs hex_rhs sys_rhs rect_system hex_system].
  unfold rect_rhs0, hex_rhs0, len in *.
  rewrite !length_map2 by lia.
  rewrite !length_app, !length_skipn, !length_boundary_values.
  unfold zeros, N2. rewrite !repeat_length. repeat split; lia.
Qed.

Lemma animate_inv N sqrt3 e st st' :
  valid_N N -> well_formed N st ->
  animate N sqrt3 e (rect_system N e) (hex_system N sqrt3 e) st st' ->
  well_formed N st' /\ time st' = (time st + dt)%Q
  /\ boundary_holds N sqrt3 e (time st) st'.
Proof.
  intros HN Hwf [pics st1 _ Hstep].
  pose proof (drawstep_boundary N sqrt3 e st st1 HN Hstep)
    as (Ht & Lr & Lh & Br & Bh).
  destruct Hstep as [r2 h2 ru hu Hrhs _ _].
  rewrite step_rhs_closed in Hrhs by assumption. injection Hrhs as <- <-.
  cbn [rect_u hex_u rect_rhs hex_rhs time] in *.
  split; [|split; [reflexivity | split; [exact Br | exact Bh]]].
  unfold well_formed. cbn [rect_u hex_u rect_rhs hex_rhs].
  split; [exact Lr|]. split; [exact Lh|]. split.
  - apply len_next_rhs, rect_rows_total, HN.
  - apply len_next_rhs.
    pose proof (hex_rows_total N HN). pose proof (len_hex_centr N HN).
    pose proof (len_hex_stencil_r N HN). pose proof (len_hex_stencil_l N HN).
    lia.
Qed.

Lemma frames_inv N sqrt3 e n st0 st :
  valid_N N -> well_formed N st0 ->
  frames N sqrt3 e (rect_system N e) (hex_system N sqrt3 e) n st0 st ->
  well_formed N st
  /\ (time st == time st0 + inject_Z (Z.of_nat n) * dt)%Q
  /\ ((0 < n)%nat ->
      exists t, time st = (t + dt)%Q
                /\ (t == time st0 + inject_Z (Z.of_nat n - 1) * dt)%Q
                /\ boundary_holds N sqrt3 e t st).
Proof.
  intros HN Hwf Hf. induction Hf as [st | n st st1 st2 Ha Hf IH].
  - split; [exact Hwf|]. split; [cbn; ring | lia].
  - destruct (animate_inv N sqrt3 e st st1 HN Hwf Ha) as (Hwf1 & Ht1 & B1).
    destruct (IH Hwf1) as (Hwf2 & Ht2 & Hb2).
    split; [exact Hwf2|]. split.
    + rewrite Ht2, Ht1, Nat2Z.inj_succ, <- Z.add_1_r, inject_Z_plus.
      change (inject_Z 1) with 1%Q. ring.
    + intros _. destruct n as [|n].
      * inversion Hf; subst. exists (time st).
        split; [exact Ht1|]. split; [cbn; ring | exact B1].
      * destruct (Hb2 ltac:(lia)) as (t & Et & Eq & B). exists t.
        split; [exact Et|]. split; [|exact B].
        rewrite Eq, Ht1.
        replace (Z.of_nat (S (S n)) - 1)%Z with (Z.of_nat (S n) - 1 + 1)%Z
          by lia.
        rewrite (inject_Z_plus (Z.of_nat (S n) - 1) 1).
        change (inject_Z 1) with 1%Q. ring.
Qed.

End Frames15.

Import Frames15.

(** X14: the animation, frame by frame.  For a valid N, a state reached
    from the initial state of cell 15 by n calls of [animate] has
    [time = n * dt] and one entry per node in its four vectors; there the
    next drawing and the next rewriting of the right-hand sides raise
    nothing, so a frame can only fail in [spsolve]; and for n > 0 both
    solutions hold at the boundary nodes [exact_u] at the time (n-1) * dt
    of the previous frame, one [dt] behind [time]. *)
Theorem X14_frames_of_the_animation (N : Z) (sqrt3 : Q)
        (exact_u : Q -> Q -> Q -> Q) (rect_sys hex_sys : system)
        (n : nat) (st : state) :
  valid_N N ->
  rect_assemble N exact_u = Some rect_sys ->
  hex_assemble N sqrt3 exact_u = Some hex_sys ->
  frames N sqrt3 exact_u rect_sys hex_sys n
         (init_state N sqrt3 exact_u rect_sys hex_sys) st ->
  well_formed N st
  /\ (time st == inject_Z (Z.of_nat n) * dt)%Q
  /\ (exists pics, draw N sqrt3 exact_u st = Some pics)
  /\ (exists r2 h2, step_rhs N sqrt3 exact_u rect_sys hex_sys st = Some (r2, h2))
  /\ ((0 < n)%nat ->
      exists t, time st = (t + dt)%Q
                /\ (t == inject_Z (Z.of_nat n - 1) * dt)%Q
                /\ boundary_holds N sqrt3 exact_u t st).
Proof.
  intros HN Hr Hh Hf.
  rewrite rect_assemble_eq in Hr by exact HN. injection Hr as <-.
  rewrite hex_assemble_eq in Hh by exact HN. injection Hh as <-.
  destruct (frames_inv N sqrt3 exact_u n _ st HN
              (init_well_formed N sqrt3 exact_u HN) Hf) as (Hwf & Ht & Hb).
  cbn [time init_state] in Ht, Hb.
  split; [exact Hwf|]. split; [rewrite Ht; ring|].
  destruct Hwf as (Lr & Lh & Lrr & Lhr).
  split; [|split].
  - eexists. apply draw_closed; assumption.
  - eexists _, _. apply step_rhs_closed; [exact HN|].
    unfold well_formed. auto.
  - intros Hn. destruct (Hb Hn) as (t & Et & Eq & B). exists t.
    split; [exact Et|]. split; [rewrite Eq; ring | exact B].
Qed.

Lemma X14_frames_of_the_animation_witness :
  well_formed 6 state1
  /\ (time state1 == inject_Z (Z.of_nat 1) * dt)%Q
  /\ (exists pics, draw 6 sqrt3_float heat_poly state1 = Some pics)
  /\ (exists r2 h2,
        step_rhs 6 sqrt3_float heat_poly rect_sys6 hex_sys6 state1
        = Some (r2, h2))
  /\ ((0 < 1)%nat ->
      exists t, time state1 = (t + dt)%Q
                /\ (t == inject_Z (Z.of_nat 1 - 1) * dt)%Q
                /\ boundary_holds 6 sqrt3_float heat_poly t state1).
Proof.
  apply (X14_frames_of_the_animation 6 sqrt3_float heat_poly rect_sys6 hex_sys6).
  - split; [reflexivity | lia].
  - vm_compute. reflexivity.
  - vm_compute. reflexivity.
  - apply frames_S with (st1 := state1); [|apply frames_O].
    apply animate_intro
      with (pics := (picture_of (rect_x 6) (rect_y 6) (rect_u state0) (rect_polys 6),
                     picture_of (hex_x 6) (hex_y 6 sqrt3_float) (hex_u state0)
                                (hex_polys 6),
                     picture_of (hex_x 6) (hex_y 6 sqrt3_float)
                                (map2 (heat_poly (time state0)) (hex_x 6)
                                      (hex_y 6 sqrt3_float))
                                (hex_polys 6))).
    + vm_compute. reflexivity.
    + exact first_step.
Defined.

(** ** The step does not amplify *)

Module Stability.

Local Open Scope Q_scope.

Lemma Qabs_sub_le (a b : Q) : Qabs (a - b) <= Qabs a + Qabs b.
Proof.
  pose proof (Qabs_triangle a (- b)) as H. rewrite Qabs_opp in H. exact H.
Qed.

Section MaxNorm.

Variables (n : Z) (m : matrix) (off : Q) (bcs : list Z) (nst : Z).
Hypothesis n_pos : (0 < n)%Z.
Hypothesis off_pos : 0 < off.
Hypothesis rows : node_rows n m off bcs nst.
Hypothesis rows_fit : (0 <= nst)%Z /\ (len bcs + nst <= n)%Z.

Variables (b u : list Q) (B : Q).
Hypothesis Hu : spsolve n m b u.
Hypothesis Hb : forall k, (0 <= k < len bcs)%Z -> Qabs (at_node b k) <= B.
Hypothesis Hs :
  forall k, (0 <= k < nst)%Z -> Qabs (at_node b (len bcs + k)) <= (1 / dt) * B.

Lemma absu_le c : (0 <= c < n)%Z -> Qabs (at_node u c) <= amax (abs_entries n (at_node u)).
Proof.
  intros Hc. apply amax_ge. unfold abs_entries.
  apply (in_map (fun c => Qabs (at_node u c))). now apply In_arange.
Qed.

Lemma amax_absu_le : amax (abs_entries n (at_node u)) <= B.
Proof.
  destruct (amax_attained (abs_entries n (at_node u))) as (v & Hv & Ev).
  { unfold abs_entries. rewrite arange_cons by lia. discriminate. }
  unfold abs_entries in Hv. apply in_map_iff in Hv. destruct Hv as (c & <- & Hc).
  apply In_arange in Hc.
  destruct Hu as [_ Su]. destruct rows_fit as [Hn0 Hn1].
  destruct (rows c Hc) as [(k & Hk & _ & Hd) | (k & nbrs & Hk & Hn & Hst)].
  - assert (E : at_node u c == at_node b k).
    { rewrite <- (Hd u). apply Su. lia. }
    rewrite Ev, E. now apply Hb.
  - set (kq := inject_Z (len nbrs)).
    assert (Hkq : 0 <= kq).
    { unfold kq. change 0 with (inject_Z 0). rewrite <- Zle_Qle.
      unfold len. lia. }
    pose proof idt_pos as Hi. set (idt := 1 / dt) in *.
    set (S := stencil_sum (at_node u) nbrs).
    set (br := at_node b (len bcs + k)).
    assert (E1 : (kq * off + idt) * at_node u c == off * S - br).
    { assert (E0 : row_dot m u (len bcs + k) == br)
        by (apply Su; unfold len in *; lia).
      rewrite (Hst u) in E0. fold kq idt S in E0.
      set (uc := at_node u c) in *.
      assert (E2 : (kq * off + idt) * uc
                   == off * S - ((- (kq * off) - idt) * uc + off * S)) by ring.
      rewrite E0 in E2. exact E2. }
    assert (HP : 0 <= kq * off + idt).
    { assert (0 <= kq * off) by (apply Qmult_le_0_compat; lra). lra. }
    assert (E4 : (kq * off + idt) * Qabs (at_node u c) == Qabs (off * S - br)).
    { rewrite <- (Qabs_pos (kq * off + idt)) at 1 by exact HP.
      rewrite <- Qabs_Qmult. now rewrite E1. }
    assert (H1 : Qabs (off * S - br) <= off * Qabs S + Qabs br).
    { pose proof (Qabs_sub_le (off * S) br) as H.
      rewrite Qabs_Qmult, (Qabs_pos off) in H by lra. exact H. }
    assert (H2 : Qabs S <= kq * amax (abs_entries n (at_node u))).
    { apply stencil_sum_bound. intros j Hj. apply absu_le.
      rewrite Forall_forall in Hn. apply Hn, Hj. }
    assert (H3 : Qabs br <= idt * B) by (apply Hs; exact Hk).
    set (M := amax (abs_entries n (at_node u))) in *. rewrite <- Ev in E4.
    assert (H4 : off * Qabs S <= off * (kq * M))
      by (apply Qmult_le_l; [exact off_pos | exact H2]).
    assert (E5 : (kq * off + idt) * M == off * (kq * M) + idt * M) by ring.
    assert (H5 : idt * M <= idt * B) by lra.
    apply Qmult_le_l in H5; [exact H5 | exact Hi].
Qed.

Lemma max_norm_bound c : (0 <= c < n)%Z -> Qabs (at_node u c) <= B.
Proof.
  intros Hc. pose proof (absu_le c Hc). pose proof amax_absu_le. lra.
Qed.

End MaxNorm.

Lemma next_rhs_boundary e t x y bcs centr u k :
  (0 <= k < len bcs)%Z ->
  at_node (next_rhs e t x y bcs centr u) k
  = e t (at_node x (nth (Z.to_nat k) bcs 0%Z))
        (at_node y (nth (Z.to_nat k) bcs 0%Z)).
Proof.
  intros Hk. unfold at_node, next_rhs.
  rewrite app_nth1 by (rewrite length_boundary_values; unfold len in *; lia).
  apply nth_boundary_values. unfold len in *. lia.
Qed.

Lemma next_rhs_stencil e t x y bcs centr u k :
  (0 <= k < len centr)%Z ->
  at_node (next_rhs e t x y bcs centr u) (len bcs + k)
  = - at_node u (nth (Z.to_nat k) centr 0%Z) / dt.
Proof.
  intros Hk. unfold at_node, next_rhs.
  rewrite app_nth2 by (rewrite length_boundary_values; unfold len in *; lia).
  rewrite length_boundary_values.
  replace (Z.to_nat (len bcs + k) - length bcs)%nat with (Z.to_nat k)
    by (unfold len; lia).
  apply (nth_map_in (fun c0 => - nth (Z.to_nat c0) u 0 / dt) centr _ 0 0%Z).
  unfold len in *. lia.
Qed.

Lemma Qabs_over_dt v B : Qabs v <= B -> Qabs (- v / dt) <= (1 / dt) * B.
Proof.
  intros H. assert (E : - v / dt == (1 / dt) * - v).
  { assert (0 < dt) by reflexivity. field. lra. }
  rewrite E, Qabs_Qmult, Qabs_opp, (Qabs_pos (1 / dt)).
  - apply Qmult_le_l; [apply idt_pos | exact H].
  - pose proof idt_pos. lra.
Qed.

(** One mesh: the solution of the system that a step sets up is bounded by
    what bounds the old solution and the boundary values. *)
Lemma solve_bounded N m off bcs centr x y e t u u' B :
  (0 < N)%Z -> 0 < off ->
  node_rows (N * N) m off bcs (len centr) ->
  (len bcs + len centr = N * N)%Z ->
  Forall (in_range N) centr ->
  bounded_by N u B ->
  (forall k, (0 <= k < len bcs)%Z ->
     Qabs (e t (at_node x (nth (Z.to_nat k) bcs 0%Z))
               (at_node y (nth (Z.to_nat k) bcs 0%Z))) <= B) ->
  spsolve (N * N) m (next_rhs e t x y bcs centr u) u' ->
  bounded_by N u' B.
Proof.
  intros H0 Ho Hrows Hn Hc Hu He Hs i Hi.
  apply (max_norm_bound (N * N) m off bcs (len centr) ltac:(nia) Ho Hrows
           ltac:(unfold len in *; lia) _ u' B Hs); [| |exact Hi].
  - intros k Hk. rewrite next_rhs_boundary by exact Hk. now apply He.
  - intros k Hk. rewrite next_rhs_stencil by exact Hk.
    apply Qabs_over_dt, Hu. rewrite Forall_forall in Hc.
    apply Hc, nth_In_Z, Hk.
Qed.

(** A bound checked entry by entry. *)
Lemma bounded_by_check N u B :
  len u = (N * N)%Z ->
  forallb (fun v => Qle_bool (Qabs v) B) u = true -> bounded_by N u B.
Proof.
  intros L H i Hi. rewrite forallb_forall in H.
  apply Qle_bool_iff, H. unfold at_node. apply nth_In. unfold len in L. lia.
Qed.

Lemma heat_poly_bounded x y :
  unit_interval x -> unit_interval y -> Qabs (heat_poly 0 x y) <= 2.
Proof.
  intros [Hx0 Hx1] [Hy0 Hy1]. unfold heat_poly.
  assert (0 <= x * x) by (apply Qmult_le_0_compat; assumption).
  assert (0 <= y * y) by (apply Qmult_le_0_compat; assumption).
  assert (x * x <= 1 * 1) by (apply Qmult_le_compat_nonneg; split; assumption).
  assert (y * y <= 1 * 1) by (apply Qmult_le_compat_nonneg; split; assumption).
  apply Qabs_Qle_condition. unfold mu. split; lra.
Qed.

End Stability.

Import Stability.

(** X15: a step does not amplify.  For a valid N, if both solutions of a
    state and the values of [exact_u] at the current time on the unit
    square are bounded by B in absolute value, then so are both solutions
    after [drawstep], on both meshes. *)
Theorem X15_step_does_not_amplify (N : Z) (sqrt3 : Q)
        (exact_u : Q -> Q -> Q -> Q) (rect_sys hex_sys : system)
        (st st' : state) (B : Q) :
  valid_N N -> (0 < sqrt3)%Q ->
  rect_assemble N exact_u = Some rect_sys ->
  hex_assemble N sqrt3 exact_u = Some hex_sys ->
  well_formed N st ->
  bounded_by N (rect_u st) B -> bounded_by N (hex_u st) B ->
  (forall x y, unit_interval x -> unit_interval y ->
               (Qabs (exact_u (time st) x y) <= B)%Q) ->
  drawstep N sqrt3 exact_u rect_sys hex_sys st st' ->
  bounded_by N (rect_u st') B /\ bounded_by N (hex_u st') B.
Proof.
  intros HN Hsq Hr Hh Hwf Br Bh Be Hstep.
  assert (H0 : 0 < N) by (destruct HN; lia).
  assert (H1 : 1 < N) by (destruct HN; lia).
  rewrite rect_assemble_eq in Hr by exact HN. injection Hr as <-.
  rewrite hex_assemble_eq in Hh by exact HN. injection Hh as <-.
  destruct Hstep as [r2 h2 ru hu Hrhs Hsr Hsh].
  rewrite step_rhs_closed in Hrhs by assumption. injection Hrhs as <- <-.
  cbn [rect_u hex_u sys_M rect_system hex_system] in *. unfold N2 in *.
  assert (Hunit : forall (l : list Q) node,
             len l = N * N -> Forall unit_interval l -> in_range N node ->
             unit_interval (at_node l node)).
  { intros l node Ll Hl Hn. rewrite Forall_forall in Hl. apply Hl.
    unfold at_node. apply nth_In. unfold in_range, len in *. lia. }
  split.
  - apply (solve_bounded N (rect_M N) (rect_off N) (rect_bcs_all N)
             (rect_centr N) (rect_x N) (rect_y N) exact_u (time st) (rect_u st));
      [ exact H0 | apply rect_off_pos, H0 | apply rect_node_rows, HN
      | apply rect_rows_total, HN | apply rect_centr_in_range, HN | exact Br
      | | exact Hsr ].
    intros k Hk.
    assert (Hn : in_range N (nth (Z.to_nat k) (rect_bcs_all N) 0)).
    { pose proof (rect_bcs_all_in_range N HN) as Hin.
      rewrite Forall_forall in Hin. apply Hin, nth_In_Z, Hk. }
    apply Be; apply Hunit; try exact Hn.
    + apply length_rect_x, H0.
    + apply rect_x_spec. lia.
    + apply length_rect_y, H0.
    + apply rect_y_spec. lia.
  - apply (solve_bounded N (hex_M N) (hex_off N) (hex_bcs_all N)
             (hex_centr N) (hex_x N) (hex_y N sqrt3) exact_u (time st)
             (hex_u st));
      [ exact H0 | apply hex_off_pos, H0 | apply hex_node_rows, HN
      | | apply hex_centr_in_range, HN | exact Bh | | exact Hsh ].
    + pose proof (hex_rows_total N HN). pose proof (len_hex_centr N HN).
      pose proof (len_hex_stencil_r N HN). pose proof (len_hex_stencil_l N HN).
      lia.
    + intros k Hk.
      assert (Hn : in_range N (nth (Z.to_nat k) (hex_bcs_all N) 0)).
      { pose proof (hex_bcs_all_in_range N HN) as Hin.
        rewrite Forall_forall in Hin. apply Hin, nth_In_Z, Hk. }
      apply Be; apply Hunit; try exact Hn.
      * apply length_hex_x, H0.
      * apply hex_x_spec. lia.
      * apply length_hex_y, H0.
      * apply hex_y_spec; [lia | exact Hsq].
Qed.

Lemma X15_step_does_not_amplify_witness :
  bounded_by 6 (rect_u state1) 2 /\ bounded_by 6 (hex_u state1) 2.
Proof.
  apply (X15_step_does_not_amplify 6 sqrt3_float heat_poly rect_sys6 hex_sys6
           state0 state1 2).
  - split; [reflexivity | lia].
  - reflexivity.
  - vm_compute. reflexivity.
  - vm_compute. reflexivity.
  - repeat split; vm_compute; reflexivity.
  - apply bounded_by_check; vm_compute; reflexivity.
  - apply bounded_by_check; vm_compute; reflexivity.
  - exact heat_poly_bounded.
  - exact first_step.
Defined.

(** ** Where the stencils reach *)

Lemma half_units_right r c :
  1 <= r -> 0 <= c -> (c + 1) mod 2 = r mod 2 ->
  half_units (r - 1) c = half_units r c - 1
  /\ half_units (r + 1) c = half_units r c - 1
  /\ half_units r (c + 1) = half_units r c + 2.
Proof.
  intros Hr Hc Hp. unfold half_units.
  destruct (Z.eqb_spec (r mod 2) 1), (Z.eqb_spec ((r + 1) mod 2) 1),
    (Z.eqb_spec ((r - 1) mod 2) 1);
    Z.to_euclidean_division_equations; lia.
Qed.

Lemma half_units_left r c :
  1 <= r -> 1 <= c -> c mod 2 = r mod 2 ->
  half_units (r - 1) c = half_units r c + 1
  /\ half_units (r + 1) c = half_units r c + 1
  /\ half_units r (c - 1) = half_units r c - 2.
Proof.
  intros Hr Hc Hp. unfold half_units.
  destruct (Z.eqb_spec (r mod 2) 1), (Z.eqb_spec ((r + 1) mod 2) 1),
    (Z.eqb_spec ((r - 1) mod 2) 1);
    Z.to_euclidean_division_equations; lia.
Qed.

(** X16: where the stencils reach.  For every valid N and a node (r, c)
    off the boundary, drawn at (X, Y): its right stencil, if it has one,
    lists the points (X - u, Y - v), (X, Y), (X + 2u, Y), (X - u, Y + v),
    and its left stencil, otherwise, lists (X + u, Y - v), (X - 2u, Y),
    (X, Y), (X + u, Y + v), with u = 1/(3N - 2) and v = 1/(N - 1): the node
    is coupled to its neighbour across the short step and to the two nodes
    half a short step to the other side in the rows below and above. *)
Theorem X16_stencil_geometry (N : Z) (sqrt3 : Q) (r c : Z) :
  valid_N N -> (0 < sqrt3)%Q -> 2 <= r <= N - 3 -> 1 <= c <= N - 2 ->
  let u := (1 / inject_Z (3 * N - 2))%Q in
  let v := (1 / inject_Z (N - 1))%Q in
  let X := fst (vertex N sqrt3 (r * N + c)) in
  let Y := snd (vertex N sqrt3 (r * N + c)) in
  ((c + 1) mod 2 = r mod 2 ->
   In (right_stencil_at N r c) (hex_stencil_r N)
   /\ same_points (map (vertex N sqrt3) (right_stencil_at N r c))
        [ (X - u, Y - v); (X, Y); (X + 2 * u, Y); (X - u, Y + v) ]%Q)
  /\ (c mod 2 = r mod 2 ->
      In (left_stencil_at N r c) (hex_stencil_l N)
      /\ same_points (map (vertex N sqrt3) (left_stencil_at N r c))
           [ (X + u, Y - v); (X - 2 * u, Y); (X, Y); (X + u, Y + v) ]%Q).
Proof.
  intros HN Hs Hr Hc u v X Y.
  destruct (half_valid N HN) as (m & EN & Hm & _).
  destruct HN as [Hev H4].
  assert (Hu : (0 < inject_Z (3 * N - 2))%Q).
  { change 0%Q with (inject_Z 0). rewrite <- Zlt_Qlt. lia. }
  assert (Hv : (0 < inject_Z (N - 1))%Q).
  { change 0%Q with (inject_Z 0). rewrite <- Zlt_Qlt. lia. }
  assert (Hx : forall j i, 0 <= i < N -> 0 <= j < N ->
             (fst (vertex N sqrt3 (j * N + i))
              == inject_Z (half_units j i) / inject_Z (3 * N - 2))%Q).
  { intros j i Hi Hj. apply nth_hex_x; assumption || lia. }
  assert (Hy : forall j i, 0 <= i < N -> 0 <= j < N ->
             (snd (vertex N sqrt3 (j * N + i))
              == inject_Z j / inject_Z (N - 1))%Q).
  { intros j i Hi Hj. apply nth_hex_y; assumption || lia. }
  split; intros Hp.
  - destruct (half_units_right r c ltac:(lia) ltac:(lia) Hp) as (E1 & E2 & E3).
    split.
    + rewrite EN. apply In_hex_stencil_r; [exact Hm|].
      exists r, c. rewrite <- EN. auto.
    + unfold right_stencil_at, same_points. cbn [map].
      replace (r * N + c + 1) with (r * N + (c + 1)) by lia.
      unfold X, Y.
      repeat apply Forall2_cons; try apply Forall2_nil; cbn [fst snd];
        rewrite ?Hx, ?Hy by lia;
        rewrite ?E1, ?E2, ?E3;
        unfold u, v;
        replace (half_units r c - 1) with (half_units r c + (-1)) by lia;
        replace (r - 1) with (r + (-1)) by lia;
        rewrite ?inject_Z_plus;
        change (inject_Z 1) with 1%Q; change (inject_Z 2) with 2%Q;
        change (inject_Z (-1)) with (-1)%Q;
        (split; field; lra).
  - destruct (half_units_left r c ltac:(lia) ltac:(lia) Hp) as (E1 & E2 & E3).
    split.
    + rewrite EN. apply In_hex_stencil_l; [exact Hm|].
      exists r, c. rewrite <- EN. auto.
    + unfold left_stencil_at, same_points. cbn [map].
      replace (r * N + c - 1) with (r * N + (c - 1)) by lia.
      unfold X, Y.
      repeat apply Forall2_cons; try apply Forall2_nil; cbn [fst snd];
        rewrite ?Hx, ?Hy by lia;
        rewrite ?E1, ?E2, ?E3;
        unfold u, v;
        replace (half_units r c - 2) with (half_units r c + (-2)) by lia;
        replace (r - 1) with (r + (-1)) by lia;
        rewrite ?inject_Z_plus;
        change (inject_Z 1) with 1%Q; change (inject_Z 2) with 2%Q;
        change (inject_Z (-1)) with (-1)%Q; change (inject_Z (-2)) with (-2)%Q;
        (split; field; lra).
Qed.

Lemma X16_stencil_geometry_witness :
  let u := (1 / inject_Z (3 * 6 - 2))%Q in
  let v := (1 / inject_Z (6 - 1))%Q in
  let X := fst (vertex 6 sqrt3_float (2 * 6 + 1)) in
  let Y := snd (vertex 6 sqrt3_float (2 * 6 + 1)) in
  ((1 + 1) mod 2 = 2 mod 2 ->
   In (right_stencil_at 6 2 1) (hex_stencil_r 6)
   /\ same_points (map (vertex 6 sqrt3_float) (right_stencil_at 6 2 1))
        [ (X - u, Y - v); (X, Y); (X + 2 * u, Y); (X - u, Y + v) ]%Q)
  /\ (1 mod 2 = 2 mod 2 ->
      In (left_stencil_at 6 2 1) (hex_stencil_l 6)
      /\ same_points (map (vertex 6 sqrt3_float) (left_stencil_at 6 2 1))
           [ (X + u, Y - v); (X - 2 * u, Y); (X, Y); (X + u, Y + v) ]%Q).
Proof.
  apply (X16_stencil_geometry 6 sqrt3_float 2 1).
  - split; [reflexivity | lia].
  - reflexivity.
  - lia.
  - lia.
Defined.

(** ** The cells of the rectangular mesh *)

Lemma rect_polys_rows N :
  rect_polys N
  = concat (map (fun i => map (cell_at N i) (arange 0 (N - 1)))
                (arange 0 (N - 1))).
Proof. reflexivity. Qed.

Lemma In_rect_polys N p :
  In p (rect_polys N) <->
  exists i j, 0 <= i < N - 1 /\ 0 <= j < N - 1 /\ p = cell_at N i j.
Proof.
  rewrite rect_polys_rows, in_concat. split.
  - intros (row & Hrow & Hp). apply in_map_iff in Hrow.
    destruct Hrow as (i & <- & Hi). apply in_map_iff in Hp.
    destruct Hp as (j & <- & Hj). apply In_arange in Hi, Hj.
    exists i, j. repeat split; lia.
  - intros (i & j & Hi & Hj & ->).
    exists (map (cell_at N i) (arange 0 (N - 1))). split.
    + apply (in_map (fun i => map (cell_at N i) (arange 0 (N - 1)))).
      apply In_arange. lia.
    + apply in_map, In_arange. lia.
Qed.

Lemma nth_rect_polys N i j :
  0 <= i < N - 1 -> 0 <= j < N - 1 ->
  nth (Z.to_nat (i * (N - 1) + j)) (rect_polys N) [] = cell_at N i j.
Proof.
  intros Hi Hj. rewrite rect_polys_rows.
  replace (Z.to_nat (i * (N - 1) + j))
    with (Z.to_nat i * Z.to_nat (N - 1) + Z.to_nat j)%nat by nia.
  rewrite nth_concat_rows.
  - rewrite nth_map_arange by lia. rewrite nth_map_arange by lia.
    now rewrite !Z.add_0_l.
  - apply Forall_map, Forall_forall. intros k _.
    rewrite length_map, arange_length. f_equal. lia.
  - lia.
  - rewrite length_map, arange_length. lia.
Qed.

(** X17: for every valid N the polygons of the rectangular mesh are exactly
    the (N-1)^2 cells [j*N+i, j*N+i+1, (j+1)*N+i+1, (j+1)*N+i] with
    0 <= i, j < N-1, each once; the transposition puts them column by
    column, polygon [i*(N-1) + j] being the cell (i, j); and each is drawn
    as the square with corners (i, j), (i+1, j), (i+1, j+1), (i, j+1),
    divided by N-1. *)
Theorem X17_rect_polys_are_cells (N : Z) :
  valid_N N ->
  len (rect_polys N) = (N - 1) * (N - 1)
  /\ (forall p, In p (rect_polys N) <->
        exists i j, 0 <= i < N - 1 /\ 0 <= j < N - 1 /\ p = cell_at N i j)
  /\ (forall i j, 0 <= i < N - 1 -> 0 <= j < N - 1 ->
        nth (Z.to_nat (i * (N - 1) + j)) (rect_polys N) [] = cell_at N i j
        /\ NoDup (cell_at N i j)
        /\ same_points (map (rect_vertex N) (cell_at N i j))
             [ (inject_Z i / inject_Z (N - 1), inject_Z j / inject_Z (N - 1));
               (inject_Z (i + 1) / inject_Z (N - 1), inject_Z j / inject_Z (N - 1));
               (inject_Z (i + 1) / inject_Z (N - 1),
                inject_Z (j + 1) / inject_Z (N - 1));
               (inject_Z i / inject_Z (N - 1),
                inject_Z (j + 1) / inject_Z (N - 1)) ]%Q).
Proof.
  intros [_ H4].
  split; [apply len_rect_polys; lia|]. split; [apply In_rect_polys|].
  intros i j Hi Hj. split; [now apply nth_rect_polys|]. split.
  - unfold cell_at. repeat constructor; cbn [In]; nia.
  - unfold cell_at, same_points, rect_vertex, at_node. cbn [map].
    replace (j * N + i + 1) with (j * N + (i + 1)) by lia.
    replace ((j + 1) * N + i + 1) with ((j + 1) * N + (i + 1)) by lia.
    repeat apply Forall2_cons; try apply Forall2_nil; cbn [fst snd];
      (split; [apply nth_rect_x | apply nth_rect_y]; lia).
Qed.

Lemma X17_rect_polys_are_cells_witness :
  len (rect_polys 6) = (6 - 1) * (6 - 1)
  /\ (forall p, In p (rect_polys 6) <->
        exists i j, 0 <= i < 6 - 1 /\ 0 <= j < 6 - 1 /\ p = cell_at 6 i j)
  /\ (forall i j, 0 <= i < 6 - 1 -> 0 <= j < 6 - 1 ->
        nth (Z.to_nat (i * (6 - 1) + j)) (rect_polys 6) [] = cell_at 6 i j
        /\ NoDup (cell_at 6 i j)
        /\ same_points (map (rect_vertex 6) (cell_at 6 i j))
             [ (inject_Z i / inject_Z (6 - 1), inject_Z j / inject_Z (6 - 1));
               (inject_Z (i + 1) / inject_Z (6 - 1), inject_Z j / inject_Z (6 - 1));
               (inject_Z (i + 1) / inject_Z (6 - 1),
                inject_Z (j + 1) / inject_Z (6 - 1));
               (inject_Z i / inject_Z (6 - 1),
                inject_Z (j + 1) / inject_Z (6 - 1)) ]%Q).
Proof.
  apply (X17_rect_polys_are_cells 6). split; [reflexivity | lia].
Defined.

(** ** The equations of a step *)

Module Scheme.

Local Open Scope Q_scope.

Lemma solved_stencil_row n m off bcs centr x y e t u u' k c nbrs :
  (0 <= k < len centr)%Z -> (len bcs + len centr <= n)%Z ->
  stencil_row m off (len bcs + k) c nbrs ->
  spsolve n m (next_rhs e t x y bcs centr u) u' ->
  (- (inject_Z (len nbrs) * off) - 1 / dt) * at_node u' c
  + off * stencil_sum (at_node u') nbrs
  == - at_node u (nth (Z.to_nat k) centr 0%Z) / dt.
Proof.
  intros Hk Hn Hst [_ Hs]. rewrite <- (Hst u').
  rewrite (Hs (len bcs + k)%Z) by (unfold len in *; lia).
  fold (at_node (next_rhs e t x y bcs centr u) (len bcs + k)).
  now rewrite next_rhs_stencil.
Qed.

Lemma nth_hex_centr_r N k :
  (0 <= k < len (hex_stencil_r N))%Z ->
  nth (Z.to_nat k) (hex_centr N) 0%Z
  = nth 2 (nth (Z.to_nat k) (hex_stencil_r N) []) 0%Z.
Proof.
  intros Hk. unfold hex_centr.
  rewrite app_nth1 by (unfold column, len in *; rewrite length_map; lia).
  apply nth_column. unfold len in *. lia.
Qed.

Lemma nth_hex_centr_l N k :
  (0 <= k < len (hex_stencil_l N))%Z ->
  nth (Z.to_nat (len (hex_stencil_r N) + k)) (hex_centr N) 0%Z
  = nth 1 (nth (Z.to_nat k) (hex_stencil_l N) []) 0%Z.
Proof.
  intros Hk. unfold hex_centr.
  rewrite app_nth2 by (unfold column, len in *; rewrite length_map; lia).
  unfold column at 1. rewrite length_map.
  replace (Z.to_nat (len (hex_stencil_r N) + k) - length (hex_stencil_r N))%nat
    with (Z.to_nat k) by (unfold len; lia).
  apply nth_column. unfold len in *. lia.
Qed.

End Scheme.

Import Scheme.

(** X18: the equations of a step.  For a valid N and a state with one entry
    per node in each vector, the solutions u' after [drawstep] satisfy, with
    u the solutions before it: on the rectangular mesh, at every node c off
    the boundary,
      rect_off * (u'[c-N] + u'[c-1] + u'[c+1] + u'[c+N]) + rect_diag * u'[c]
        = - u[c] / dt;
    on the hexagonal mesh, at every node c off the boundary with a right
    stencil,
      hex_off * (u'[c-N] + u'[c+1] + u'[c+N]) + hex_diag * u'[c]
        = - u[c+1] / dt,
    and with a left stencil the same with c-1 in the place of c+1: the old
    value on the right is that of the horizontal neighbour, not of c. *)
Theorem X18_equations_of_a_step (N : Z) (sqrt3 : Q)
        (exact_u : Q -> Q -> Q -> Q) (rect_sys hex_sys : system)
        (st st' : state) :
  valid_N N ->
  rect_assemble N exact_u = Some rect_sys ->
  hex_assemble N sqrt3 exact_u = Some hex_sys ->
  well_formed N st ->
  drawstep N sqrt3 exact_u rect_sys hex_sys st st' ->
  (forall i j, 1 <= i <= N - 2 -> 1 <= j <= N - 2 ->
     let c := j * N + i in
     let u := at_node (rect_u st) in
     let u' := at_node (rect_u st') in
     (rect_off N * (u' (c - N)%Z + u' (c - 1)%Z + u' (c + 1)%Z + u' (c + N)%Z)
      + rect_diag N * u' c == - u c / dt)%Q)
  /\ (forall r i, 2 <= r <= N - 3 -> 1 <= i <= N - 2 ->
        let c := r * N + i in
        let u := at_node (hex_u st) in
        let u' := at_node (hex_u st') in
        ((i + 1) mod 2 = r mod 2 ->
         (hex_off N * (u' (c - N)%Z + u' (c + 1)%Z + u' (c + N)%Z)
          + hex_diag N * u' c == - u (c + 1)%Z / dt)%Q)
        /\ (i mod 2 = r mod 2 ->
            (hex_off N * (u' (c - N)%Z + u' (c - 1)%Z + u' (c + N)%Z)
             + hex_diag N * u' c == - u (c - 1)%Z / dt)%Q)).
Proof.
  intros HN Hr Hh Hwf Hstep.
  assert (H0 : 0 < N) by (destruct HN; lia).
  rewrite rect_assemble_eq in Hr by exact HN. injection Hr as <-.
  rewrite hex_assemble_eq in Hh by exact HN. injection Hh as <-.
  destruct Hstep as [r2 h2 ru hu Hrhs Hsr Hsh].
  rewrite step_rhs_closed in Hrhs by assumption. injection Hrhs as <- <-.
  cbn [rect_u hex_u sys_M rect_system hex_system] in *. unfold N2 in *.
  pose proof (rect_rows_total N HN) as Tr.
  pose proof (hex_rows_total N HN) as Th.
  pose proof (len_hex_centr N HN) as Lc.
  pose proof (len_hex_stencil_r N HN) as Lsr.
  pose proof (len_hex_stencil_l N HN) as Lsl.
  pose proof (h_pos N H0) as Hh. assert (Hdt : (0 < dt)%Q) by reflexivity.
  destruct (half_valid N HN) as (m & EN & Hm & _).
  split.
  - intros i j Hi Hj. set (c := (j * N + i)%Z).
    set (u := at_node (rect_u st)). set (u' := at_node ru).
    assert (Hin : In c (rect_centr N)).
    { apply In_rect_centr. exists i, j. repeat split; lia. }
    apply (In_nth _ _ 0) in Hin. destruct Hin as (k & Hk & E).
    destruct (rect_stencil_row N (Z.of_nat k) HN ltac:(unfold len; lia))
      as [Hst _].
    rewrite Nat2Z.id, E in Hst.
    pose proof (solved_stencil_row (N * N) (rect_M N) (rect_off N)
                  (rect_bcs_all N) (rect_centr N) _ _ _ _ _ _ (Z.of_nat k) _ _
                  ltac:(unfold len; lia) ltac:(lia) Hst Hsr) as Heq.
    rewrite Nat2Z.id, E in Heq. fold u u' in Heq.
    unfold stencil_sum in Heq. cbn [fold_right] in Heq.
    change (inject_Z (len [c - N; c - 1; c + 1; c + N]%Z)) with 4%Q in Heq.
    rewrite <- Heq. unfold rect_off, rect_diag. field. split; lra.
  - intros r i Hr Hi. set (c := (r * N + i)%Z).
    set (u := at_node (hex_u st)). set (u' := at_node hu).
    split; intros Hp.
    + assert (Hin : In (right_stencil_at N r i) (hex_stencil_r N)).
      { rewrite EN. apply In_hex_stencil_r; [exact Hm|].
        exists r, i. rewrite <- EN. auto. }
      apply (In_nth _ _ []) in Hin. destruct Hin as (k & Hk & E).
      destruct (hex_stencil_row_r N (Z.of_nat k) HN ltac:(unfold len; lia))
        as (r' & i' & _ & _ & Erow & Hst).
      rewrite Nat2Z.id, E in Erow. unfold right_stencil_at in Erow.
      injection Erow as E1 E2 E3 E4.
      rewrite <- E1, <- E4, <- E3, <- E2 in Hst.
      pose proof (solved_stencil_row (N * N) (hex_M N) (hex_off N)
                    (hex_bcs_all N) (hex_centr N) _ _ _ _ _ _ (Z.of_nat k) _ _
                    ltac:(unfold len in *; lia) ltac:(lia) Hst Hsh) as Heq.
      rewrite nth_hex_centr_r in Heq by (unfold len; lia).
      rewrite Nat2Z.id, E in Heq. cbn [right_stencil_at nth] in Heq.
      fold c u u' in Heq.
      replace ((r - 1) * N + i)%Z with (c - N)%Z in Heq by (unfold c; lia).
      replace ((r + 1) * N + i)%Z with (c + N)%Z in Heq by (unfold c; lia).
      unfold stencil_sum in Heq. cbn [fold_right] in Heq.
      change (inject_Z (len [c - N; c + 1; c + N]%Z)) with 3%Q in Heq.
      rewrite <- Heq. unfold hex_off, hex_diag. field. split; lra.
    + assert (Hin : In (left_stencil_at N r i) (hex_stencil_l N)).
      { rewrite EN. apply In_hex_stencil_l; [exact Hm|].
        exists r, i. rewrite <- EN. auto. }
      apply (In_nth _ _ []) in Hin. destruct Hin as (k & Hk & E).
      destruct (hex_stencil_row_l N (Z.of_nat k) HN ltac:(unfold len; lia))
        as (r' & i' & _ & _ & Erow & Hst).
      rewrite Nat2Z.id, E in Erow. unfold left_stencil_at in Erow.
      injection Erow as E1 E2 E3 E4.
      rewrite <- E1, <- E4, <- E2, <- E3 in Hst.
      rewrite <- Z.add_assoc in Hst.
      pose proof (solved_stencil_row (N * N) (hex_M N) (hex_off N)
                    (hex_bcs_all N) (hex_centr N) _ _ _ _ _ _
                    (len (hex_stencil_r N) + Z.of_nat k)%Z _ _
                    ltac:(unfold len in *; lia) ltac:(lia) Hst Hsh) as Heq.
      rewrite nth_hex_centr_l in Heq by (unfold len; lia).
      rewrite Nat2Z.id, E in Heq. cbn [left_stencil_at nth] in Heq.
      fold c u u' in Heq.
      replace ((r - 1) * N + i)%Z with (c - N)%Z in Heq by (unfold c; lia).
      replace ((r + 1) * N + i)%Z with (c + N)%Z in Heq by (unfold c; lia).
      unfold stencil_sum in Heq. cbn [fold_right] in Heq.
      change (inject_Z (len [c - N; c - 1; c + N]%Z)) with 3%Q in Heq.
      rewrite <- Heq. unfold hex_off, hex_diag. field. split; lra.
Qed.

Lemma X18_equations_of_a_step_witness :
  (forall i j, 1 <= i <= 6 - 2 -> 1 <= j <= 6 - 2 ->
     let c := j * 6 + i in
     let u := at_node (rect_u state0) in
     let u' := at_node (rect_u state1) in
     (rect_off 6 * (u' (c - 6)%Z + u' (c - 1)%Z + u' (c + 1)%Z + u' (c + 6)%Z)
      + rect_diag 6 * u' c == - u c / dt)%Q)
  /\ (forall r i, 2 <= r <= 6 - 3 -> 1 <= i <= 6 - 2 ->
        let c := r * 6 + i in
        let u := at_node (hex_u state0) in
        let u' := at_node (hex_u state1) in
        ((i + 1) mod 2 = r mod 2 ->
         (hex_off 6 * (u' (c - 6)%Z + u' (c + 1)%Z + u' (c + 6)%Z)
          + hex_diag 6 * u' c == - u (c + 1)%Z / dt)%Q)
        /\ (i mod 2 = r mod 2 ->
            (hex_off 6 * (u' (c - 6)%Z + u' (c - 1)%Z + u' (c + 6)%Z)
             + hex_diag 6 * u' c == - u (c - 1)%Z / dt)%Q)).
Proof.
  apply (X18_equations_of_a_step 6 sqrt3_float heat_poly rect_sys6 hex_sys6
           state0 state1).
  - split; [reflexivity | lia].
  - vm_compute. reflexivity.
  - vm_compute. reflexivity.
  - repeat split; vm_compute; reflexivity.
  - exact first_step.
Defined.
